(** * LUTInterpolator: bias-plane blending and gmro length inversion

    A shallow embedding of [lut_interpolator.py].

    Numbers.  A Python [float] is modelled by a rational [Q]: a finite
    value, no NaN and no infinities.  Two floats are "the same" when they
    are [Qeq]; every comparison of the source is the boolean comparison on
    [Q].  A Python [int] (a channel length of the Length Universe) is a [Z].

    Rounding.  In the length inversion the result of a float operation
    decides what is returned (the plane snap, the flat test, the fallback)
    and is compared with other floats, so every float operation there is
    the exact result passed through a rounding function [rnd], a parameter
    of the inversion; [round_double] is IEEE binary64 rounding to nearest,
    ties to even (proved to return a nearest double, to keep the order and
    to leave a double as it is), and [unrounded] is no rounding.  In the
    forward path no branch depends on the result of an operation (the bias
    is only compared with the plane biases), and its value is kept exact.
    Arguments and table values are taken as they are given; the closed
    examples that turn on a rounding give them as doubles.

    Containers.  A [DataFrame] with the columns [gm_id], [length_nm],
    [value] is a list of rows.  The outer dictionaries [self.data] and
    [self.rbf], keyed by the quantity name, are [gmap string _].  The inner
    dictionaries, keyed by the bias (a float), are insertion-ordered
    association lists compared with [Qeq_bool], because
    [build_interpolators] walks them in insertion order.  [gmro_pred], keyed
    by an integer length, is a [gmap Z Q].

    Effects.  Exceptions are the [Raise] outcome of a small monad that also
    keeps a ghost log of the divisor of every float division the source file
    executes (lines 213 and 318). *)

From Stdlib Require Import QArith Qabs Qround Qpower Lqa ZArith.
From stdpp Require Import gmap strings list sorting.

Local Open Scope Q_scope.

(** ** Floats as rationals *)

Definition Qlt_bool (x y : Q) : bool := negb (Qle_bool y x).

#[global] Instance Qle_dec (x y : Q) : Decision (x <= y) :=
  decide (Qnum x * QDen y <= Qnum y * QDen x)%Z.

(** [int(x)] on a float truncates toward zero. *)
Definition py_int (x : Q) : Z := Z.quot (Qnum x) (Zpos (Qden x)).

(** Rounding to the nearest integer, ties to the even one; [q] is not
    negative. *)
Definition round_half_even (q : Q) : Z :=
  let f := Qfloor q in
  match Qcompare (q - inject_Z f) (1 # 2) with
  | Lt => f
  | Gt => (f + 1)%Z
  | Eq => if Z.even f then f else (f + 1)%Z
  end.

(** The exponent [e] of the leading bit of a positive [a]:
    [2^e <= a < 2^(e+1)].  The difference of the bit lengths of the
    numerator and the denominator is [e] or [e + 1]. *)
Definition exponent (a : Q) : Z :=
  let e0 := (Z.log2 (Qnum a) - Z.log2 (Zpos (Qden a)))%Z in
  if Qle_bool (Qpower 2 e0) a then e0 else (e0 - 1)%Z.

(** The exponent of the unit in the last place of the doubles around [a]:
    53 significant bits, and no step finer than that of the subnormal
    numbers, [2^-1074]. *)
Definition ulp_exponent (a : Q) : Z := Z.max (exponent a - 52) (-1074).

(** IEEE 754 binary64 rounding of a real number, to nearest and ties to
    even, with gradual underflow; the result is in lowest terms.  Results
    beyond the largest double are not turned into an infinity. *)
Definition round_double (x : Q) : Q :=
  if Qeq_bool x 0 then 0
  else
    let a := Qabs x in
    let q := ulp_exponent a in
    let m := round_half_even (a / Qpower 2 q) in
    Qred ((if Qle_bool 0 x then 1 else -1) * inject_Z m * Qpower 2 q).

(** No rounding: exact arithmetic. *)
Definition unrounded (x : Q) : Q := x.

(** ** Exceptions and the division log *)

Inductive exn : Type :=
  | ValueError_unknown_quantity (quantity : string)     (* line 224 *)
  | ValueError_no_interpolators (quantity : string)     (* line 172 *)
  | ValueError_gmro_not_available                       (* line 258 *)
  | ValueError_no_length_information                    (* line 262 *)
  | ValueError_no_gmro_at_plane (vds_plane : Q)         (* line 292 *)
  | ValueError_empty_sequence                           (* min() of nothing *)
  | KeyError_quantity (quantity : string)
  | KeyError_bias (bias : Q)
  | KeyError_length (L : Z)
  | ZeroDivisionError
  | FitError.                                           (* RBFInterpolator raised *)

Inductive res (A : Type) : Type :=
  | Ok (a : A)
  | Raise (e : exn).
Arguments Ok {A} a.
Arguments Raise {A} e.

(** A computation yields its outcome and the divisors of the float divisions
    it performed, in order. *)
Definition M (A : Type) : Type := res A * list Q.

Definition ret {A} (a : A) : M A := (Ok a, []).
Definition raise {A} (e : exn) : M A := (Raise e, []).
Definition bind {A B} (m : M A) (k : A -> M B) : M B :=
  match m with
  | (Ok a, log) => let '(r, log') := k a in (r, log ++ log')
  | (Raise e, log) => (Raise e, log)
  end.
Definition outcome {A} (m : M A) : res A := m.1.
Definition divisors {A} (m : M A) : list Q := m.2.

Notation "x <- m ;; k" := (bind m (fun x => k))
  (at level 100, m at next level, right associativity).

(** [a / b] on floats: raises on a zero divisor; the divisor is logged. *)
Definition truediv (a b : Q) : M Q :=
  if Qeq_bool b 0 then (Raise ZeroDivisionError, [b]) else (Ok (a / b), [b]).

(** [d[k]] for an optional lookup result. *)
Definition getitem {A} (e : exn) (o : option A) : M A :=
  match o with
  | Some a => ret a
  | None => raise e
  end.

(** ** Dictionaries keyed by a float *)

Section FloatDict.
Context {A : Type}.

Fixpoint dict_get (k : Q) (d : list (Q * A)) : option A :=
  match d with
  | [] => None
  | (k', v) :: d' => if Qeq_bool k' k then Some v else dict_get k d'
  end.

(** [d[k] = v]: an existing key keeps its place (and its key object), a
    new key goes last. *)
Fixpoint dict_set (k : Q) (v : A) (d : list (Q * A)) : list (Q * A) :=
  match d with
  | [] => [(k, v)]
  | (k', v') :: d' =>
      if Qeq_bool k' k then (k', v) :: d' else (k', v') :: dict_set k v d'
  end.

Definition dict_keys (d : list (Q * A)) : list Q := d.*1.
End FloatDict.

(** [sorted(...)] on floats and on ints. *)
Definition sorted_Q (l : list Q) : list Q := merge_sort Qle l.
Definition sorted_Z (l : list Z) : list Z := merge_sort Z.le l.

(** [min(l, key=...)]: the first element whose key is minimal. *)
Fixpoint min_from {A} (key : A -> Q) (best : A) (l : list A) : A :=
  match l with
  | [] => best
  | x :: l' =>
      if Qlt_bool (key x) (key best) then min_from key x l'
      else min_from key best l'
  end.

Definition py_min {A} (key : A -> Q) (l : list A) : option A :=
  match l with
  | [] => None
  | x :: l' => Some (min_from key x l')
  end.

(** ** Sample tables *)

Record Row : Type := mkRow { gm_id : Q; length_nm : Q; value : Q }.

(** A row as read from a CSV, columns already renamed; a cell may be
    missing. *)
Record RawRow : Type :=
  mkRaw { raw_gm_id : option Q; raw_length_nm : option Q; raw_value : option Q }.

Definition dropna (df : list RawRow) : list Row :=
  omap (fun r =>
          match raw_gm_id r, raw_length_nm r, raw_value r with
          | Some g, Some l, Some v => Some (mkRow g l v)
          | _, _, _ => None
          end) df.

(** A fitted plane: [(gm_id, length_nm) -> value]. *)
Abbreviation Interp := (Q -> Q -> Q) (only parsing).

(** ** The engine *)

Record LUTInterpolator : Type := mkLUT {
  kernel : string;
  epsilon : option Q;
  data : gmap string (list (Q * list Row));
  rbf : gmap string (list (Q * Interp));
  lengths : option (list Z)
}.

(** [self.quantities]: assigned once in [__init__] and never written
    again. *)
Definition quantities : list string := ["id_w"; "gmro"; "ft"]%string.

Definition empty_planes {A} : gmap string (list (Q * A)) :=
  list_to_map ((fun q => (q, [])) <$> quantities).

Definition init (kernel : string) (epsilon : option Q) : LUTInterpolator :=
  mkLUT kernel epsilon empty_planes empty_planes None.

Definition set_data (self : LUTInterpolator) d : LUTInterpolator :=
  mkLUT (kernel self) (epsilon self) d (rbf self) (lengths self).
Definition set_rbf (self : LUTInterpolator) r : LUTInterpolator :=
  mkLUT (kernel self) (epsilon self) (data self) r (lengths self).
Definition set_lengths (self : LUTInterpolator) l : LUTInterpolator :=
  mkLUT (kernel self) (epsilon self) (data self) (rbf self) l.

(** [_append_data], after the column renaming: drop the rows with a missing
    cell, then create the plane or concatenate to it. *)
Definition _append_data (self : LUTInterpolator) (df : list RawRow) (vds : Q)
    (quantity_name : string) : LUTInterpolator * res unit :=
  let df := dropna df in
  match data self !! quantity_name with
  | None => (self, Raise (KeyError_quantity quantity_name))
  | Some planes =>
      match dict_get vds planes with
      | None =>
          (set_data self (<[quantity_name := dict_set vds df planes]> (data self)), Ok ())
      | Some old =>
          (set_data self (<[quantity_name := dict_set vds (old ++ df) planes]> (data self)),
           Ok ())
      end
  end.

(** ** Building the interpolators *)

(** The Python set [all_lengths]: floats, distinct up to float equality. *)
Definition set_add (x : Q) (s : list Q) : list Q :=
  if existsb (Qeq_bool x) s then s else s ++ [x].

Definition set_update (s xs : list Q) : list Q :=
  foldl (fun s x => set_add x s) s xs.

Section Build.
(** [scipy.interpolate.RBFInterpolator(X, y, kernel=..., epsilon=...)]:
    a library fit, deterministic in its arguments; [None] when it
    raises (too few or degenerate points). *)
Variable RBFInterpolator :
  list (Q * Q) -> list Q -> string -> option Q -> option Interp.

(** The loop state: [self.rbf] and [all_lengths]. *)
Definition build_state : Type := gmap string (list (Q * Interp)) * list Q.

(** [for vds, df in self.data[q].items(): ...] *)
Fixpoint build_planes (kern : string) (eps : option Q) (q : string)
    (items : list (Q * list Row)) (st : build_state) : build_state * res unit :=
  match items with
  | [] => (st, Ok ())
  | (vds, df) :: items' =>
      let all_lengths := set_update st.2 (length_nm <$> df) in
      let X := (fun r => (gm_id r, length_nm r)) <$> df in
      let y := value <$> df in
      match RBFInterpolator X y kern eps with
      | None => ((st.1, all_lengths), Raise FitError)
      | Some f =>
          match st.1 !! q with
          | None => ((st.1, all_lengths), Raise (KeyError_quantity q))
          | Some planes =>
              build_planes kern eps q items'
                (<[q := dict_set vds f planes]> st.1, all_lengths)
          end
      end
  end.

(** [for q in self.quantities: ...] *)
Fixpoint build_quantities (kern : string) (eps : option Q)
    (d : gmap string (list (Q * list Row))) (qs : list string)
    (st : build_state) : build_state * res unit :=
  match qs with
  | [] => (st, Ok ())
  | q :: qs' =>
      match d !! q with
      | None => (st, Raise (KeyError_quantity q))
      | Some items =>
          match build_planes kern eps q items st with
          | (st', Ok _) => build_quantities kern eps d qs' st'
          | (st', Raise e) => (st', Raise e)
          end
      end
  end.

(** [build_interpolators]: [self.rbf] is reset and refilled; when the
    loop raises, the planes fitted so far stay in [self.rbf] and
    [self.lengths] is not touched. *)
Definition build_interpolators (self : LUTInterpolator)
    : LUTInterpolator * res unit :=
  match build_quantities (kernel self) (epsilon self) (data self) quantities
          (empty_planes, []) with
  | ((r, all_lengths), Ok _) =>
      match all_lengths with
      | [] => (set_rbf self r, Ok ())
      | _ :: _ =>
          (set_lengths (set_rbf self r)
             (Some (sorted_Z (py_int <$> all_lengths))), Ok ())
      end
  | ((r, _), Raise e) => (set_rbf self r, Raise e)
  end.
End Build.

(** ** Blending across bias planes *)

Definition _available_vds (planes : list (Q * Interp)) : list Q :=
  sorted_Q (dict_keys planes).

(** [for i in range(len(avail) - 1): if avail[i] <= vds <= avail[i + 1]] *)
Fixpoint find_bounding (avail : list Q) (vds : Q) : option (Q * Q) :=
  match avail with
  | v1 :: ((v2 :: _) as rest) =>
      if Qle_bool v1 vds && Qle_bool vds v2 then Some (v1, v2)
      else find_bounding rest vds
  | _ => None
  end.

(** [float(self.rbf[quantity][v](X))] *)
Definition eval_plane (planes : list (Q * Interp)) (v gm_id length_nm : Q) : M Q :=
  f <- getitem (KeyError_bias v) (dict_get v planes) ;;
  ret (f gm_id length_nm).

Definition _interp_in_vds (self : LUTInterpolator) (quantity : string)
    (gm_id vds length_nm : Q) : M Q :=
  planes <- getitem (KeyError_quantity quantity) (rbf self !! quantity) ;;
  let avail := _available_vds planes in
  match avail with
  | [] => raise (ValueError_no_interpolators quantity)
  | lowest :: _ =>
      match dict_get vds planes with
      | Some f => ret (f gm_id length_nm)
      | None =>
          if Qlt_bool vds lowest then eval_plane planes lowest gm_id length_nm
          else
            let highest := List.last avail lowest in
            if Qlt_bool highest vds then eval_plane planes highest gm_id length_nm
            else
              match find_bounding avail vds with
              | None => eval_plane planes highest gm_id length_nm
              | Some (v1, v2) =>
                  y1 <- eval_plane planes v1 gm_id length_nm ;;
                  y2 <- eval_plane planes v2 gm_id length_nm ;;
                  t <- truediv (vds - v1) (v2 - v1) ;;
                  ret (y1 + t * (y2 - y1))
              end
      end
  end.

(** ** Forward prediction *)

Definition predict (self : LUTInterpolator) (quantity : string)
    (gm_id vds length_nm : Q) : M Q :=
  if bool_decide (quantity ∈ quantities) then
    _interp_in_vds self quantity gm_id vds length_nm
  else raise (ValueError_unknown_quantity quantity).

Definition predict_all (self : LUTInterpolator) (gm_id vds length_nm : Q)
    : M (Q * Q * Q) :=
  id_w <- predict self "id_w" gm_id vds length_nm ;;
  gmro <- predict self "gmro" gm_id vds length_nm ;;
  ft <- predict self "ft" gm_id vds length_nm ;;
  ret (id_w, gmro, ft).

(** ** Length inversion from gmro *)

(** [df.sort_values("gm_id")]: the rows in ascending [gm_id].  Rows with
    equal [gm_id] keep the order they had, as a stable sort leaves them;
    pandas promises no order for them. *)
Definition gm_id_le (r1 r2 : Row) : Prop := gm_id r1 <= gm_id r2.

Fixpoint insert_row (r : Row) (sorted : list Row) : list Row :=
  match sorted with
  | [] => [r]
  | r' :: rest =>
      if Qle_bool (gm_id r) (gm_id r') then r :: sorted
      else r' :: insert_row r rest
  end.

Definition sort_values_gm_id (df : list Row) : list Row := foldr insert_row [] df.

Arguments sort_values_gm_id : simpl never.

(** [df_plane[df_plane["length_nm"] == L]] *)
Definition slice_length (df_plane : list Row) (L : Z) : list Row :=
  List.filter (fun r => Qeq_bool (length_nm r) (inject_Z L)) df_plane.

(** [sorted(gmro_pred.keys())] *)
Definition lengths_ordered (gmro_pred : gmap Z Q) : list Z :=
  sorted_Z (map_to_list gmro_pred).*1.

(** The float literal [1e-12]: the double nearest to 10^-12, which is
    4951760157141521 * 2^-92. *)
Definition flat_tol : Q := 4951760157141521 # 4951760157141521099596496896.

(** [(g1 <= gmro_measured <= g2) or (g2 <= gmro_measured <= g1)] *)
Definition brackets (g1 g2 m : Q) : bool :=
  (Qle_bool g1 m && Qle_bool m g2) || (Qle_bool g2 m && Qle_bool m g1).

#[global] Instance Q_inhabited : Inhabited Q := populate 0.

(** What the call returns: [L_disc], or [(L_est, L_disc)] when
    [return_continuous] is set. *)
Inductive Estimate : Type :=
  | Discrete (L_disc : Z)
  | Continuous (L_est : Q) (L_disc : Z).

Definition returned (return_continuous : bool) (L_est : Q) (L_disc : Z) : Estimate :=
  if return_continuous then Continuous L_est L_disc else Discrete L_disc.

Section Inversion.
(** The rounding of the float operations. *)
Variable rnd : Q -> Q.

(** [float(n)] on an int, also where an int meets a float in [+] or [*]. *)
Definition py_float (n : Z) : Q := rnd (inject_Z n).

(** [a / b] on floats, rounded: raises on a zero divisor; the divisor is
    logged. *)
Definition truediv_rounded (a b : Q) : M Q :=
  if Qeq_bool b 0 then (Raise ZeroDivisionError, [b])
  else (Ok (rnd (a / b)), [b]).

(** [numpy.interp(x, xp, fp)] for ascending [xp], a library function:
    piecewise linear between the samples, clamped to the first and the last
    sample outside their range.  Between the samples [j] and [j+1] the value
    is [slope * (x - xp[j]) + fp[j]] with
    [slope = (fp[j+1] - fp[j]) / (xp[j+1] - xp[j])], every operation rounded
    on its own. *)
Definition interp_segment (x x0 y0 x1 y1 : Q) : Q :=
  let slope := rnd (rnd (y1 - y0) / rnd (x1 - x0)) in
  rnd (rnd (slope * rnd (x - x0)) + y0).

(** The search keeps the last index [j] with [xp[j] <= x], as numpy's does,
    and a query at [xp[j]] returns [fp[j]]. *)
Fixpoint interp_from (x x0 y0 : Q) (rest : list (Q * Q)) : Q :=
  match rest with
  | [] => y0
  | (x1, y1) :: rest' =>
      if Qle_bool x1 x then interp_from x x1 y1 rest'
      else if Qeq_bool x0 x then y0
      else interp_segment x x0 y0 x1 y1
  end.

Definition np_interp (x : Q) (xp fp : list Q) : option Q :=
  match zip xp fp with
  | [] => None
  | (x0, y0) :: rest =>
      Some (if Qlt_bool x x0 then y0 else interp_from x x0 y0 rest)
  end.

(** Stage 1, lines 270-271: the raw gmro plane nearest to the query bias,
    by the key [abs(x - vds_req)]. *)
Definition snap_plane (planes : list (Q * list Row)) (vds_req : Q) : option Q :=
  py_min (fun x => Qabs (rnd (x - vds_req))) (sorted_Q (dict_keys planes)).

(** Stage 2, lines 278-289: [for L in self.lengths: ...]. *)
Fixpoint reconstruct (df_plane : list Row) (gm : Q) (ls : list Z)
    (gmro_pred : gmap Z Q) : M (gmap Z Q) :=
  match ls with
  | [] => ret gmro_pred
  | L :: ls' =>
      match slice_length df_plane L with
      | [] => reconstruct df_plane gm ls' gmro_pred
      | (_ :: _) as df_L =>
          let df_L := sort_values_gm_id df_L in
          gmro_L <- getitem ValueError_empty_sequence
                      (np_interp gm (gm_id <$> df_L) (value <$> df_L)) ;;
          reconstruct df_plane gm ls' (<[L := gmro_L]> gmro_pred)
      end
  end.

(** Lines 257-293: the guards, the plane snap and the reconstruction map
    [gmro_pred], which is not empty when it is returned. *)
Definition gmro_reconstruction (self : LUTInterpolator) (gm vds_req : Q)
    : M (gmap Z Q) :=
  planes <- getitem (KeyError_quantity "gmro") (data self !! "gmro"%string) ;;
  match planes with
  | [] => raise ValueError_gmro_not_available
  | _ :: _ =>
      match lengths self with
      | None => raise ValueError_no_length_information
      | Some ls =>
          vds_plane <- getitem ValueError_empty_sequence (snap_plane planes vds_req) ;;
          df_plane <- getitem (KeyError_bias vds_plane) (dict_get vds_plane planes) ;;
          gmro_pred <- reconstruct df_plane gm ls ∅ ;;
          match map_to_list gmro_pred with
          | [] => raise (ValueError_no_gmro_at_plane vds_plane)
          | _ :: _ => ret gmro_pred
          end
      end
  end.

(** Stage 4, lines 314-319: [g2 - g1] is computed once for the test and
    once, with the same result, as the divisor. *)
Definition continuous_estimate (L1 L2 : Z) (g1 g2 m : Q) : M Q :=
  if Qlt_bool (Qabs (rnd (g2 - g1))) flat_tol then
    ret (rnd ((1 # 2) * py_float (L1 + L2)))
  else
    t <- truediv_rounded (rnd (m - g1)) (rnd (g2 - g1)) ;;
    ret (rnd (py_float L1 + rnd (t * py_float (L2 - L1)))).

(** Stage 3 to 5, lines 303-323: the first bracketing adjacent pair gives
    [(L_est, L_disc)] and ends the scan. *)
Fixpoint find_bracket (gmro_pred : gmap Z Q) (m : Q) (ls : list Z)
    : M (option (Q * Z)) :=
  match ls with
  | L1 :: ((L2 :: _) as rest) =>
      g1 <- getitem (KeyError_length L1) (gmro_pred !! L1) ;;
      g2 <- getitem (KeyError_length L2) (gmro_pred !! L2) ;;
      if brackets g1 g2 m then
        L_est <- continuous_estimate L1 L2 g1 g2 m ;;
        ret (Some (L_est, Z.max L1 L2))
      else find_bracket gmro_pred m rest
  | _ => ret None
  end.

(** The key of the fallback [min]: [abs(gmro_pred[L] - gmro_measured)];
    every [L] it is applied to is a key of [gmro_pred]. *)
Definition gmro_distance (gmro_pred : gmap Z Q) (m : Q) (L : Z) : Q :=
  Qabs (rnd (gmro_pred !!! L - m)).

(** Lines 296-334. *)
Definition invert (gmro_pred : gmap Z Q) (m : Q) (return_continuous : bool)
    : M Estimate :=
  let ordered := lengths_ordered gmro_pred in
  found <- find_bracket gmro_pred m ordered ;;
  match found with
  | Some (L_est, L_disc) => ret (returned return_continuous L_est L_disc)
  | None =>
      L_disc <- getitem ValueError_empty_sequence
                  (py_min (gmro_distance gmro_pred m) ordered) ;;
      ret (returned return_continuous (py_float L_disc) L_disc)
  end.

Definition estimate_length_from_gmro (self : LUTInterpolator)
    (gm gmro_measured vds : Q) (return_continuous : bool) : M Estimate :=
  gmro_pred <- gmro_reconstruction self gm vds ;;
  invert gmro_pred gmro_measured return_continuous.
End Inversion.

(** ** Vocabulary of the statements *)

(** A float holding an integer value. *)
Definition is_integer (x : Q) : bool := Qeq_bool x (inject_Z (py_int x)).

(** The adjacent pairs a scan over [l] visits, in order. *)
Definition adjacent_pairs (l : list Z) : list (Z * Z) := zip l (tail l).

(** The measurement lies between the reconstructed values of the pair,
    bounds included, in either direction. *)
Definition pair_brackets (gmro_pred : gmap Z Q) (m : Q) (pr : Z * Z) : Prop :=
  exists g1 g2,
    gmro_pred !! pr.1 = Some g1 /\ gmro_pred !! pr.2 = Some g2
    /\ brackets g1 g2 m = true.

Definition no_bracket (gmro_pred : gmap Z Q) (m : Q) (l : list Z) : Prop :=
  Forall (fun pr => ~ pair_brackets gmro_pred m pr) (adjacent_pairs l).

(** [(L1, L2)] is the first adjacent pair of the ascending lengths that
    brackets the measurement; [g1], [g2] are its reconstructed values. *)
Definition first_bracket (gmro_pred : gmap Z Q) (m : Q) (L1 L2 : Z) (g1 g2 : Q)
    : Prop :=
  (exists pre post,
     lengths_ordered gmro_pred = pre ++ L1 :: L2 :: post
     /\ no_bracket gmro_pred m (pre ++ [L1]))
  /\ gmro_pred !! L1 = Some g1
  /\ gmro_pred !! L2 = Some g2
  /\ brackets g1 g2 m = true.

(** A computation is division-safe when every divisor it used is at least
    [1e-12] in absolute value and it did not end in a division by zero. *)
Definition division_safe {A} (c : M A) : Prop :=
  Forall (fun d => flat_tol <= Qabs d) (divisors c)
  /\ outcome c <> Raise ZeroDivisionError.

(** ** Vocabulary of the store invariants *)

(** The keys of a float-keyed dictionary are pairwise different floats. *)
Fixpoint keys_distinct {A} (d : list (Q * A)) : Prop :=
  match d with
  | [] => True
  | (k, _) :: d' => dict_get k d' = None /\ keys_distinct d'
  end.

(** Both outer dictionaries hold the three quantities, and no raw plane
    dictionary holds a bias twice. *)
Definition well_formed (self : LUTInterpolator) : Prop :=
  forall q, q ∈ quantities ->
    (exists planes, data self !! q = Some planes /\ keys_distinct planes)
    /\ (exists fitted, rbf self !! q = Some fitted).

(** The engines a caller can get: from [__init__], by loading, by
    building. *)
Inductive reachable
    (fit : list (Q * Q) -> list Q -> string -> option Q -> option Interp)
    : LUTInterpolator -> Prop :=
  | reach_init kern eps : reachable fit (init kern eps)
  | reach_append self df vds q :
      reachable fit self -> reachable fit (_append_data self df vds q).1
  | reach_build self :
      reachable fit self -> reachable fit (build_interpolators fit self).1.

(** The fit [build_interpolators] asks for on one table. *)
Definition fit_table
    (fit : list (Q * Q) -> list Q -> string -> option Q -> option Interp)
    (kern : string) (eps : option Q) (df : list Row) : option Interp :=
  fit ((fun r => (gm_id r, length_nm r)) <$> df) (value <$> df) kern eps.

(** [r] is a row of some table of a canonical quantity. *)
Definition row_in_store (d : gmap string (list (Q * list Row))) (r : Row) : Prop :=
  exists q planes v df,
    q ∈ quantities /\ d !! q = Some planes /\ (v, df) ∈ planes /\ r ∈ df.

(** Every table of every canonical quantity can be fitted. *)
Definition all_fits_succeed
    (fit : list (Q * Q) -> list Q -> string -> option Q -> option Interp)
    (self : LUTInterpolator) : Prop :=
  forall q planes v df,
    q ∈ quantities -> data self !! q = Some planes -> (v, df) ∈ planes ->
    is_Some (fit_table fit (kernel self) (epsilon self) df).

(** [fitted] holds, bias by bias and in the same order, the fits of the
    tables of [planes]. *)
Definition fitted_from
    (fit : list (Q * Q) -> list Q -> string -> option Q -> option Interp)
    (kern : string) (eps : option Q)
    (planes : list (Q * list Row)) (fitted : list (Q * Interp)) : Prop :=
  Forall2 (fun p f => f.1 = p.1 /\ fit_table fit kern eps p.2 = Some f.2)
    planes fitted.

(** [all_lengths] after the tables of [items], and after the quantities
    [qs]. *)
Definition gather_lengths (all_lengths : list Q) (items : list (Q * list Row))
    : list Q :=
  foldl (fun s p => set_update s (length_nm <$> p.2)) all_lengths items.

Definition gather_all (d : gmap string (list (Q * list Row))) (qs : list string)
    (all_lengths : list Q) : list Q :=
  foldl (fun s q => gather_lengths s (default [] (d !! q))) all_lengths qs.

(** ** Example engines *)

(** A stand-in for the library fit, for closed examples: the constant
    surface through the first sample; it raises on an empty table. *)
Definition constant_fit (X : list (Q * Q)) (y : list Q) (kern : string)
    (eps : option Q) : option Interp :=
  match y with
  | [] => None
  | v :: _ => Some (fun _ _ => v)
  end.

Definition raw (g l v : Q) : RawRow := mkRaw (Some g) (Some l) (Some v).

(** Load one gmro table at a bias, then build. *)
Definition load_gmro (self : LUTInterpolator) (vds : Q) (rows : list RawRow)
    : LUTInterpolator :=
  (_append_data self rows vds "gmro").1.

Definition built (self : LUTInterpolator) : LUTInterpolator :=
  (build_interpolators constant_fit self).1.

Definition fresh : LUTInterpolator := init "thin_plate_spline" None.

(** One plane at 0.4 V: gmro 30 at 500 nm and 40 at 700 nm. *)
Definition one_plane : LUTInterpolator :=
  built (load_gmro fresh (2 # 5) [raw 10 500 30; raw 10 700 40]).

(** A second plane at 0.8 V: gmro 60 at 500 nm and 80 at 700 nm. *)
Definition two_planes : LUTInterpolator :=
  built (load_gmro one_plane (4 # 5) [raw 10 500 60; raw 10 700 80]).

(** One plane on which gmro is 30 at both lengths. *)
Definition flat_plane : LUTInterpolator :=
  built (load_gmro fresh (2 # 5) [raw 10 500 30; raw 10 700 30]).

(** One plane whose only length, 500.5 nm, is not an integer. *)
Definition off_grid : LUTInterpolator :=
  built (load_gmro fresh (2 # 5) [raw 10 (1001 # 2) 30]).

(** One plane on which gmro is 0 at 500 nm and [g] at 700 nm. *)
Definition rising_plane (g : Q) : LUTInterpolator :=
  built (load_gmro fresh (2 # 5) [raw 10 500 0; raw 10 700 g]).

(** One plane with two samples for each length: gmro 30 and 31 at 500 nm,
    40 and 42 at 700 nm, at [gm_id] 10 and 13. *)
Definition sampled_plane : LUTInterpolator :=
  built (load_gmro fresh (2 # 5)
           [raw 13 500 31; raw 10 500 30; raw 10 700 40; raw 13 700 42]).

(** The reconstruction map of [one_plane] at [gm_id = 10]. *)
Definition gmro_500_700 : gmap Z Q := <[700%Z := 40]> (<[500%Z := 30]> ∅).

(** The raw gmro planes of [two_planes] and of [off_grid]. *)
Definition two_planes_gmro : list (Q * list Row) :=
  [(2 # 5, [mkRow 10 500 30; mkRow 10 700 40]);
   (4 # 5, [mkRow 10 500 60; mkRow 10 700 80])].

Definition off_grid_gmro : list (Q * list Row) :=
  [(2 # 5, [mkRow 10 (1001 # 2) 30])].

(** The fitted gmro planes of [two_planes]. *)
Definition two_planes_rbf : list (Q * Interp) :=
  [(2 # 5, fun _ _ => 30); (4 # 5, fun _ _ => 60)].

(** * Properties *)

(** ** The model on concrete inputs *)

(** Doubles: the nearest to 0.1 and to its opposite, an integer beyond
    2^53 and a tie that goes to the even significand, the smallest
    subnormal and a value that underflows to zero. *)
Example round_double_values :
  round_double (1 # 10) = 3602879701896397 # 36028797018963968
  /\ round_double (- (1 # 10)) = - (3602879701896397 # 36028797018963968)
  /\ round_double 9007199254740993 = 9007199254740992
  /\ round_double 9007199254740995 = 9007199254740996
  /\ round_double (3 # 2 ^ 1075) = 1 # 2 ^ 1073
  /\ round_double (1 # 2 ^ 1075) = 0
  /\ round_double (1 # 3) = 6004799503160661 # 18014398509481984.
Proof. repeat split; vm_compute; reflexivity. Qed.

Example np_interp_between :
  np_interp round_double 15 [10; 20] [30; 50] = Some 40.
Proof. vm_compute. reflexivity. Qed.

(** The slope 1/3 is rounded before it is used. *)
Example np_interp_rounds :
  np_interp round_double 1 [0; 3] [0; 1]
  = Some (6004799503160661 # 18014398509481984)
  /\ Qred <$> np_interp unrounded 1 [0; 3] [0; 1] = Some (1 # 3).
Proof. split; vm_compute; reflexivity. Qed.

Example np_interp_clamped :
  np_interp round_double 5 [10; 20] [30; 50] = Some 30
  /\ np_interp round_double 25 [10; 20] [30; 50] = Some 50.
Proof. split; reflexivity. Qed.

Example py_int_truncates : py_int (1001 # 2) = 500%Z /\ py_int (- (3 # 2)) = (-1)%Z.
Proof. split; reflexivity. Qed.

Example dropna_drops : dropna [raw 10 500 30; mkRaw (Some 10) None (Some 3)]
                       = [mkRow 10 500 30].
Proof. reflexivity. Qed.

Example append_concatenates :
  data (load_gmro (load_gmro fresh (2 # 5) [raw 10 500 30]) (4 # 10) [raw 10 700 40])
    !! "gmro"%string
  = Some [(2 # 5, [mkRow 10 500 30; mkRow 10 700 40])].
Proof. vm_compute. reflexivity. Qed.

Example build_fills_the_engine :
  lengths two_planes = Some [500; 700]%Z
  /\ dict_keys <$> rbf two_planes !! "gmro"%string = Some [2 # 5; 4 # 5]
  /\ rbf two_planes !! "ft"%string = Some [].
Proof. repeat split; vm_compute; reflexivity. Qed.

(** The lengths are cast to [int] after the set has made them distinct. *)
Example lengths_after_int_cast :
  lengths (built (load_gmro fresh (2 # 5) [raw 10 500 30; raw 10 (1001 # 2) 31]))
  = Some [500; 500]%Z.
Proof. vm_compute. reflexivity. Qed.

(** A fit that raises leaves [self.lengths] alone. *)
Example build_raises_on_empty_table :
  build_interpolators constant_fit (load_gmro fresh (2 # 5) [])
  = (set_rbf (load_gmro fresh (2 # 5) []) empty_planes, Raise FitError).
Proof. vm_compute. reflexivity. Qed.

Example predict_halfway :
  predict two_planes "gmro" 10 (3 # 5) 600 = (Ok (11250 # 250), [10 # 25])
  /\ 11250 # 250 == 45 /\ 10 # 25 == (4 # 5) - (2 # 5).
Proof. split; [vm_compute; reflexivity|split; reflexivity]. Qed.

Example predict_never_loaded :
  predict two_planes "ft" 10 (3 # 5) 600
  = (Raise (ValueError_no_interpolators "ft"), []).
Proof. vm_compute. reflexivity. Qed.

Example estimate_before_build :
  estimate_length_from_gmro round_double (load_gmro fresh (2 # 5) [raw 10 500 30]) 10 35 (2 # 5) false
  = (Raise ValueError_no_length_information, [])
  /\ estimate_length_from_gmro round_double fresh 10 35 (2 # 5) false
     = (Raise ValueError_gmro_not_available, []).
Proof. split; vm_compute; reflexivity. Qed.

(** ** The monad *)

Lemma bind_ret {A B} (a : A) (k : A -> M B) : bind (ret a) k = k a.
Proof. unfold bind, ret. by destruct (k a). Qed.

Lemma bind_raise {A B} (e : exn) (k : A -> M B) : bind (raise e) k = raise e.
Proof. done. Qed.

Lemma bind_getitem_Some {A B} e (a : A) (k : A -> M B) :
  bind (getitem e (Some a)) k = k a.
Proof. apply bind_ret. Qed.

Lemma bind_getitem_None {A B} e (k : A -> M B) :
  bind (getitem e None) k = raise e.
Proof. done. Qed.

Lemma bind_Ok_nil {A B} (a : A) (k : A -> M B) : bind (Ok a, []) k = k a.
Proof. apply bind_ret. Qed.

Ltac monad_step :=
  repeat first
    [ rewrite bind_getitem_Some | rewrite bind_getitem_None
    | rewrite bind_ret | rewrite bind_raise | rewrite bind_Ok_nil ].

(** ** Comparisons and sorting *)

Lemma Qlt_bool_iff x y : Qlt_bool x y = true <-> x < y.
Proof.
  unfold Qlt_bool. rewrite negb_true_iff.
  split; intros H.
  - apply Qnot_le_lt. intros Hle. apply Qle_bool_iff in Hle. congruence.
  - destruct (Qle_bool y x) eqn:E; [|done].
    apply Qle_bool_iff in E. exfalso. eapply Qlt_not_le; eauto.
Qed.

Lemma Qlt_bool_false x y : Qlt_bool x y = false <-> y <= x.
Proof.
  unfold Qlt_bool. rewrite negb_false_iff. apply Qle_bool_iff.
Qed.

Lemma Qle_bool_false x y : Qle_bool x y = false <-> y < x.
Proof.
  rewrite <- Qlt_bool_iff. unfold Qlt_bool.
  destruct (Qle_bool x y); simpl; intuition congruence.
Qed.

#[global] Instance Qle_transitive : Transitive Qle.
Proof. intros x y z. apply Qle_trans. Qed.

#[global] Instance Qle_total : Total Qle.
Proof.
  intros x y. destruct (Qlt_le_dec x y) as [H|H]; [left; by apply Qlt_le_weak | by right].
Qed.

#[global] Instance Zle_total : Total Z.le.
Proof. intros x y. lia. Qed.

Lemma Qeq_bool_false x y : Qeq_bool x y = false <-> ~ x == y.
Proof.
  split.
  - intros H Heq. apply Qeq_bool_iff in Heq. congruence.
  - intros H. destruct (Qeq_bool x y) eqn:E; [|done].
    apply Qeq_bool_iff in E. done.
Qed.

Lemma sorted_Q_elem x l : x ∈ sorted_Q l <-> x ∈ l.
Proof. unfold sorted_Q. by rewrite merge_sort_Permutation. Qed.

Lemma sorted_Q_sorted l : StronglySorted Qle (sorted_Q l).
Proof. apply StronglySorted_merge_sort; apply _. Qed.

Lemma sorted_Z_elem x l : x ∈ sorted_Z l <-> x ∈ l.
Proof. unfold sorted_Z. by rewrite merge_sort_Permutation. Qed.

Lemma sorted_Z_sorted l : StronglySorted Z.le (sorted_Z l).
Proof. apply StronglySorted_merge_sort; apply _. Qed.

(** The head of a sorted list is a lower bound, its last element an upper
    bound. *)
Lemma sorted_head_le (x : Q) l y :
  StronglySorted Qle (x :: l) -> y ∈ x :: l -> x <= y.
Proof.
  intros Hs Hy. apply StronglySorted_inv in Hs as [_ Hall].
  apply elem_of_cons in Hy as [->|Hy]; [apply Qle_refl|].
  rewrite Forall_forall in Hall. by apply Hall.
Qed.

Lemma sorted_le_last (l : list Q) d y :
  StronglySorted Qle l -> y ∈ l -> y <= List.last l d.
Proof.
  revert y. induction l as [|x l IH]; intros y Hs Hy; [by apply elem_of_nil in Hy|].
  apply StronglySorted_inv in Hs as [Hs Hall].
  destruct l as [|x' l].
  - apply list_elem_of_singleton in Hy as ->. apply Qle_refl.
  - change (List.last (x :: x' :: l) d) with (List.last (x' :: l) d).
    apply elem_of_cons in Hy as [->|Hy]; [|by apply IH].
    eapply Qle_trans; [|apply IH; [done|left]].
    rewrite Forall_forall in Hall. apply Hall. left.
Qed.

Lemma last_elem (l : list Q) x d : List.last (x :: l) d ∈ x :: l.
Proof.
  revert x. induction l as [|y l IH]; intros x; [left|].
  change (List.last (x :: y :: l) d) with (List.last (y :: l) d).
  right. apply IH.
Qed.

(** ** Rounding to a double *)

Lemma pow2_pos e : 0 < Qpower 2 e.
Proof. apply Qpower_0_lt. reflexivity. Qed.

Lemma pow2_succ e : Qpower 2 (e + 1) == 2 * Qpower 2 e.
Proof. rewrite Qpower_plus by discriminate. simpl. ring. Qed.

Lemma pow2_inject k : (0 <= k)%Z -> Qpower 2 k == inject_Z (2 ^ k).
Proof. intros H. rewrite Zpower_Qpower by done. reflexivity. Qed.

Lemma pow2_sub a b : Qpower 2 (a - b) == Qpower 2 a / Qpower 2 b.
Proof.
  unfold Z.sub. rewrite Qpower_plus by discriminate. rewrite Qpower_opp. reflexivity.
Qed.

Lemma exponent_spec a :
  0 < a -> Qpower 2 (exponent a) <= a /\ a < Qpower 2 (exponent a + 1).
Proof.
  intros Ha. unfold exponent.
  set (n := Qnum a). set (d := Zpos (Qden a)).
  assert (Hn : (0 < n)%Z).
  { unfold n. unfold Qlt in Ha. simpl in Ha. lia. }
  assert (Hd : (0 < d)%Z) by (unfold d; lia).
  destruct (Z.log2_spec n Hn) as [Hn1 Hn2].
  destruct (Z.log2_spec d Hd) as [Hd1 Hd2].
  pose proof (Z.log2_nonneg n) as Hln. pose proof (Z.log2_nonneg d) as Hld.
  set (ln := Z.log2 n) in *. set (ld := Z.log2 d) in *.
  assert (Haeq : a == inject_Z n / inject_Z d).
  { unfold n, d. destruct a as [an ad]. simpl. rewrite <- Qmake_Qdiv. reflexivity. }
  assert (Hdq : 0 < inject_Z d) by (rewrite <- (Zlt_Qlt 0); done).
  assert (Hpn := pow2_inject ln Hln). assert (Hpd := pow2_inject ld Hld).
  assert (Hps : forall k, 0 < Qpower 2 k) by apply pow2_pos.
  assert (Hn1q : Qpower 2 ln <= inject_Z n) by (rewrite Hpn, <- Zle_Qle; done).
  assert (Hn2q : inject_Z n < 2 * Qpower 2 ln).
  { rewrite Hpn. change 2 with (inject_Z 2). rewrite <- inject_Z_mult, <- Zlt_Qlt.
    rewrite Z.pow_succ_r in Hn2 by done. done. }
  assert (Hd1q : Qpower 2 ld <= inject_Z d) by (rewrite Hpd, <- Zle_Qle; done).
  assert (Hd2q : inject_Z d < 2 * Qpower 2 ld).
  { rewrite Hpd. change 2 with (inject_Z 2). rewrite <- inject_Z_mult, <- Zlt_Qlt.
    rewrite Z.pow_succ_r in Hd2 by done. done. }
  assert (He0 : Qpower 2 (ln - ld) == Qpower 2 ln / Qpower 2 ld) by apply pow2_sub.
  pose proof (Hps ld) as HD. pose proof (Hps ln) as HP.
  set (P := Qpower 2 ln) in *. set (D := Qpower 2 ld) in *.
  set (N := inject_Z n) in *. set (dd := inject_Z d) in *.
  assert (Hlow : Qpower 2 (ln - ld - 1) < a).
  { rewrite Haeq. apply Qlt_shift_div_l; [done|].
    assert (Qpower 2 (ln - ld - 1) * dd == (P * dd) / (2 * D)) as ->.
    { rewrite pow2_sub, He0. simpl. field. lra. }
    apply Qlt_shift_div_r; [lra|]. nra. }
  assert (Hhigh : a < Qpower 2 (ln - ld + 1)).
  { rewrite Haeq. apply Qlt_shift_div_r; [done|].
    assert (Qpower 2 (ln - ld + 1) * dd == (2 * P * dd) / D) as ->.
    { rewrite pow2_succ, He0. field. lra. }
    apply Qlt_shift_div_l; [lra|]. nra. }
  destruct (Qle_bool (Qpower 2 (ln - ld)) a) eqn:E.
  - apply Qle_bool_iff in E. split; done.
  - assert (a < Qpower 2 (ln - ld)) as Hlt.
    { apply Qnot_le_lt. intros H. apply Qle_bool_iff in H. congruence. }
    split; [lra|].
    assert ((ln - ld - 1 + 1 = ln - ld)%Z) as -> by lia. done.
Qed.

Lemma round_half_even_floor y :
  round_half_even y = Qfloor y \/ round_half_even y = (Qfloor y + 1)%Z.
Proof.
  unfold round_half_even.
  destruct (y - inject_Z (Qfloor y) ?= 1 # 2); [|by left|by right].
  destruct (Z.even (Qfloor y)); [by left|by right].
Qed.

Lemma round_half_even_near y :
  Qabs (inject_Z (round_half_even y) - y) <= 1 # 2.
Proof.
  pose proof (Qfloor_le y) as Hlo. pose proof (Qlt_floor y) as Hhi.
  rewrite inject_Z_plus in Hhi. change (inject_Z 1) with 1 in Hhi.
  unfold round_half_even.
  destruct (y - inject_Z (Qfloor y) ?= 1 # 2) eqn:E.
  - apply Qeq_alt in E.
    destruct (Z.even (Qfloor y)); apply Qabs_Qle_condition;
      rewrite ?inject_Z_plus; change (inject_Z 1) with 1; split; lra.
  - apply Qlt_alt in E. apply Qabs_Qle_condition. split; lra.
  - apply Qgt_alt in E. apply Qabs_Qle_condition.
    rewrite inject_Z_plus. change (inject_Z 1) with 1. split; lra.
Qed.

(** On a tie the even neighbour is taken. *)
Lemma round_half_even_tie y :
  Qabs (inject_Z (round_half_even y) - y) == 1 # 2 ->
  Z.even (round_half_even y) = true.
Proof.
  pose proof (Qfloor_le y) as Hlo. pose proof (Qlt_floor y) as Hhi.
  rewrite inject_Z_plus in Hhi. change (inject_Z 1) with 1 in Hhi.
  unfold round_half_even.
  destruct (y - inject_Z (Qfloor y) ?= 1 # 2) eqn:E.
  - intros _. destruct (Z.even (Qfloor y)) eqn:Ev; [done|].
    rewrite Z.even_add, Ev. reflexivity.
  - apply Qlt_alt in E. intros H. exfalso.
    rewrite Qabs_neg in H by lra. lra.
  - apply Qgt_alt in E. intros H. exfalso.
    rewrite inject_Z_plus in H. change (inject_Z 1) with 1 in H.
    rewrite Qabs_pos in H by lra. lra.
Qed.

Lemma round_half_even_bounds y (k : Z) :
  0 <= y -> y <= inject_Z k ->
  (0 <= round_half_even y <= k)%Z.
Proof.
  intros H0 Hk.
  pose proof (Qfloor_le y) as Hlo. pose proof (Qlt_floor y) as Hhi.
  assert (0 <= Qfloor y)%Z as Hf0.
  { change 0%Z with (Qfloor 0). by apply Qfloor_resp_le. }
  assert (Qfloor y <= k)%Z as Hfk.
  { rewrite <- (Qfloor_Z k). by apply Qfloor_resp_le. }
  destruct (Z.eq_dec (Qfloor y) k) as [Heq|Hne].
  - assert (y == inject_Z k) as Hy by (rewrite Heq in Hlo; lra).
    unfold round_half_even.
    assert ((y - inject_Z (Qfloor y) ?= 1 # 2) = Lt) as ->.
    { apply Qlt_alt. rewrite Heq, Hy. unfold Qminus. rewrite Qplus_opp_r. reflexivity. }
    lia.
  - destruct (round_half_even_floor y) as [-> | ->]; lia.
Qed.

(** [round_double] rounds to a nearest point of the grid of doubles around
    [x]: with [2^e <= |x| < 2^(e+1)] the grid step is [2^q],
    [q = max (e - 52) (-1074)]; the result is [m * 2^q] for an integer [m]
    of at most 53 bits, at most half a step from [x], and [m] is even when
    [x] is half a step from it. *)
Lemma round_double_nearest x :
  ~ x == 0 ->
  let e := exponent (Qabs x) in
  let q := ulp_exponent (Qabs x) in
  Qpower 2 e <= Qabs x /\ Qabs x < Qpower 2 (e + 1)
  /\ q = Z.max (e - 52) (-1074)
  /\ exists m : Z,
       round_double x == inject_Z m * Qpower 2 q
       /\ (Z.abs m <= 2 ^ 53)%Z
       /\ Qabs (round_double x - x) <= (1 # 2) * Qpower 2 q
       /\ (Qabs (round_double x - x) == (1 # 2) * Qpower 2 q -> Z.even m = true).
Proof.
  intros Hx e q.
  assert (Ha : 0 < Qabs x).
  { destruct (Qlt_le_dec 0 (Qabs x)) as [H|H]; [done|].
    exfalso. apply Hx. destruct (Qlt_le_dec x 0) as [Hn|Hp].
    - rewrite Qabs_neg in H by lra. lra.
    - rewrite Qabs_pos in H by done. lra. }
  destruct (exponent_spec (Qabs x) Ha) as [He1 He2]. fold e in He1, He2.
  split; [done|]. split; [done|]. split; [done|].
  pose proof (pow2_pos q) as Hq.
  set (y := Qabs x / Qpower 2 q).
  set (m := round_half_even y).
  assert (Hy0 : 0 <= y) by (apply Qle_shift_div_l; lra).
  assert (Hyk : y <= inject_Z (2 ^ 53)).
  { apply Qle_shift_div_r; [done|].
    rewrite <- pow2_inject by lia.
    rewrite <- Qpower_plus by discriminate.
    apply Qlt_le_weak. eapply Qlt_le_trans; [exact He2|].
    apply Qpower_le_compat_l; [|lra]. unfold q, ulp_exponent. fold e. lia. }
  destruct (round_half_even_bounds y (2 ^ 53) Hy0 Hyk) as [Hm0 Hmk]. fold m in Hm0, Hmk.
  pose proof (round_half_even_near y) as Hnear. fold m in Hnear.
  pose proof (round_half_even_tie y) as Htie. fold m in Htie.
  assert (Hay : Qabs x == y * Qpower 2 q) by (unfold y; field; lra).
  assert (Hrd : round_double x
                == (if Qle_bool 0 x then 1 else -1) * inject_Z m * Qpower 2 q).
  { unfold round_double.
    assert (Qeq_bool x 0 = false) as -> by by apply Qeq_bool_false.
    cbv zeta. fold q. fold y. fold m. apply Qred_correct. }
  assert (Hscale : forall z, Qabs (z * Qpower 2 q) == Qabs z * Qpower 2 q).
  { intros z. rewrite Qabs_Qmult, (Qabs_pos (Qpower 2 q)) by lra. reflexivity. }
  destruct (Qle_bool 0 x) eqn:Es.
  - apply Qle_bool_iff in Es.
    assert (Hxa : x == y * Qpower 2 q) by (rewrite <- Hay, Qabs_pos; done).
    assert (Herr : round_double x - x == (inject_Z m - y) * Qpower 2 q)
      by (rewrite Hrd, Hxa at 1; ring).
    exists m. split; [rewrite Hrd; ring|]. split; [lia|].
    rewrite Herr, Hscale. split.
    + nra.
    + intros H. apply Htie. nra.
  - assert (x < 0) as Hneg.
    { apply Qnot_le_lt. intros H. apply Qle_bool_iff in H. congruence. }
    assert (Hxa : x == - (y * Qpower 2 q)).
    { rewrite <- Hay, Qabs_neg by lra. ring. }
    assert (Herr : round_double x - x == - (inject_Z m - y) * Qpower 2 q)
      by (rewrite Hrd, Hxa at 1; ring).
    exists (- m)%Z. split; [rewrite Hrd, inject_Z_opp; ring|]. split; [lia|].
    rewrite Herr, Hscale, Qabs_opp. split.
    + nra.
    + intros H. rewrite Z.even_opp. apply Htie. nra.
Qed.

Lemma pow2_mono e1 e2 : (e1 <= e2)%Z -> Qpower 2 e1 <= Qpower 2 e2.
Proof. intros H. apply Qpower_le_compat_l; [done|lra]. Qed.

(** The exponent is the only [e] with [2^e <= a < 2^(e+1)]. *)
Lemma exponent_unique a e :
  Qpower 2 e <= a -> a < Qpower 2 (e + 1) -> exponent a = e.
Proof.
  intros H1 H2.
  assert (Ha : 0 < a) by (pose proof (pow2_pos e); lra).
  destruct (exponent_spec a Ha) as [H3 H4].
  destruct (Z.lt_trichotomy (exponent a) e) as [Hlt|[Heq|Hgt]]; [|done|].
  - exfalso. pose proof (pow2_mono (exponent a + 1) e ltac:(lia)). lra.
  - exfalso. pose proof (pow2_mono (e + 1) (exponent a) ltac:(lia)). lra.
Qed.

Lemma exponent_Qeq a b : 0 < a -> a == b -> exponent a = exponent b.
Proof.
  intros Ha Hab. destruct (exponent_spec a Ha) as [H1 H2].
  symmetry. apply exponent_unique; lra.
Qed.

Lemma round_half_even_Qeq y z : y == z -> round_half_even y = round_half_even z.
Proof.
  intros H. unfold round_half_even.
  assert (Qfloor y = Qfloor z) as -> by (by apply Qfloor_comp).
  assert ((y - inject_Z (Qfloor z) ?= 1 # 2) = (z - inject_Z (Qfloor z) ?= 1 # 2)) as ->;
    [|done].
  apply Qcompare_comp; [by rewrite H|reflexivity].
Qed.

Lemma round_half_even_Z k : round_half_even (inject_Z k) = k.
Proof.
  unfold round_half_even. rewrite Qfloor_Z.
  assert ((inject_Z k - inject_Z k ?= 1 # 2) = Lt) as ->; [|done].
  apply Qlt_alt. unfold Qminus. rewrite Qplus_opp_r. reflexivity.
Qed.

(** Equal numbers round to the same double, whatever their fractions. *)
Lemma round_double_Qeq x y : x == y -> round_double x = round_double y.
Proof.
  intros H. unfold round_double.
  destruct (Qeq_bool x 0) eqn:Ex.
  - apply Qeq_bool_iff in Ex.
    assert (Qeq_bool y 0 = true) as -> by (apply Qeq_bool_iff; lra). done.
  - apply Qeq_bool_false in Ex.
    assert (Qeq_bool y 0 = false) as -> by (apply Qeq_bool_false; lra).
    cbv zeta.
    assert (Habs : Qabs x == Qabs y) by by rewrite H.
    assert (Ha : 0 < Qabs x).
    { destruct (Qlt_le_dec x 0) as [Hn|Hp].
      - rewrite Qabs_neg by lra. lra.
      - rewrite Qabs_pos by done. lra. }
    assert (ulp_exponent (Qabs x) = ulp_exponent (Qabs y)) as ->.
    { unfold ulp_exponent. by rewrite (exponent_Qeq _ _ Ha Habs). }
    assert (round_half_even (Qabs x / Qpower 2 (ulp_exponent (Qabs y)))
            = round_half_even (Qabs y / Qpower 2 (ulp_exponent (Qabs y)))) as ->.
    { apply round_half_even_Qeq. by rewrite Habs. }
    assert (Qle_bool 0 x = Qle_bool 0 y) as ->; [|done].
    destruct (Qle_bool 0 y) eqn:E.
    + apply Qle_bool_iff. apply Qle_bool_iff in E. lra.
    + apply Qle_bool_false. apply Qle_bool_false in E. lra.
Qed.

Lemma round_double_nonzero x :
  ~ x == 0 ->
  round_double x
  = Qred ((if Qle_bool 0 x then 1 else -1)
          * inject_Z (round_half_even (Qabs x / Qpower 2 (ulp_exponent (Qabs x))))
          * Qpower 2 (ulp_exponent (Qabs x))).
Proof.
  intros H. unfold round_double.
  by assert (Qeq_bool x 0 = false) as -> by by apply Qeq_bool_false.
Qed.

Lemma signed_Qabs x : (if Qle_bool 0 x then 1 else -1) * Qabs x == x.
Proof.
  destruct (Qle_bool 0 x) eqn:E.
  - apply Qle_bool_iff in E. rewrite Qabs_pos by done. ring.
  - apply Qle_bool_false in E. rewrite Qabs_neg by lra. ring.
Qed.

(** A number [m * 2^q] with a significand of at most 53 bits and a step not
    below that of the subnormal numbers is a double: rounding leaves it as
    it is. *)
Lemma round_double_representable m q :
  (Z.abs m <= 2 ^ 53)%Z -> (-1074 <= q)%Z ->
  round_double (inject_Z m * Qpower 2 q) = Qred (inject_Z m * Qpower 2 q).
Proof.
  intros Hm Hq. set (x := inject_Z m * Qpower 2 q).
  pose proof (pow2_pos q) as Hq0.
  destruct (Z.eq_dec m 0%Z) as [->|Hne].
  { assert (x == 0) as Hx by (unfold x; ring).
    rewrite (round_double_Qeq x 0 Hx). by rewrite (Qred_complete x 0 Hx). }
  set (n := Z.abs m). assert (Hn : (0 < n)%Z) by (unfold n; lia).
  destruct (Z.log2_spec n Hn) as [Hn1 Hn2].
  pose proof (Z.log2_nonneg n) as Hj0.
  assert (Hj53 : (Z.log2 n <= 53)%Z).
  { change 53%Z with (Z.log2 (2 ^ 53)). by apply Z.log2_le_mono. }
  set (j := Z.log2 n) in *.
  assert (Ha : Qabs x == inject_Z n * Qpower 2 q).
  { unfold x, n. rewrite Qabs_Qmult, (Qabs_pos (Qpower 2 q)) by lra.
    apply Qmult_comp; [|reflexivity]. unfold Qabs, inject_Z. reflexivity. }
  assert (Hn1q : Qpower 2 j <= inject_Z n) by (rewrite pow2_inject, <- Zle_Qle; done).
  assert (Hn2q : inject_Z n < Qpower 2 (j + 1)).
  { rewrite pow2_inject, <- Zlt_Qlt by lia. by rewrite <- Z.add_1_r in Hn2. }
  assert (He : exponent (Qabs x) = (j + q)%Z).
  { apply exponent_unique; rewrite Ha.
    - rewrite Qpower_plus by discriminate. nra.
    - assert ((j + q + 1 = (j + 1) + q)%Z) as -> by lia.
      rewrite Qpower_plus by discriminate. nra. }
  assert (Hx : ~ x == 0).
  { intros H0. rewrite H0 in Ha. change (Qabs 0) with 0 in Ha.
    assert (0 < inject_Z n) by (rewrite <- (Zlt_Qlt 0); done). nra. }
  set (q' := ulp_exponent (Qabs x)).
  assert (Hq' : q' = Z.max (j + q - 52) (-1074)) by (unfold q', ulp_exponent; by rewrite He).
  pose proof (pow2_pos q') as Hq'0.
  assert (exists k : Z, Qabs x / Qpower 2 q' == inject_Z k) as [k Hk].
  { destruct (Z.le_gt_cases q' q) as [Hle|Hgt].
    - exists (n * 2 ^ (q - q'))%Z.
      rewrite Ha, inject_Z_mult, <- pow2_inject by lia.
      rewrite pow2_sub. field. lra.
    - assert (j = 53%Z) as Hj by lia.
      assert (n = (2 ^ 53)%Z) as Hn53 by (rewrite Hj in Hn1; lia).
      assert (q' = (q + 1)%Z) as -> by lia.
      exists (2 ^ 52)%Z. rewrite Ha, Hn53, pow2_succ.
      change (inject_Z (2 ^ 53)) with (2 * inject_Z (2 ^ 52)). field. lra. }
  rewrite round_double_nonzero by done. fold q'.
  rewrite (round_half_even_Qeq _ _ Hk), round_half_even_Z.
  apply Qred_complete.
  assert (inject_Z k * Qpower 2 q' == Qabs x) as Hka by (rewrite <- Hk; field; lra).
  rewrite <- Qmult_assoc, Hka. apply signed_Qabs.
Qed.

Lemma Qred_inject_Z n : Qred (inject_Z n) = inject_Z n.
Proof.
  unfold Qred, inject_Z. simpl.
  pose proof (Z.ggcd_gcd n 1) as Hg.
  pose proof (Z.ggcd_correct_divisors n 1) as Hd.
  destruct (Z.ggcd n 1) as [g [aa bb]]. simpl in *.
  rewrite Z.gcd_1_r in Hg. subst g. destruct Hd as [Ha Hb].
  assert (aa = n) as -> by lia. assert (bb = 1%Z) as -> by lia. done.
Qed.

(** Integers of at most 53 bits are doubles. *)
Lemma round_double_integer n :
  (Z.abs n <= 2 ^ 53)%Z -> round_double (inject_Z n) = inject_Z n.
Proof.
  intros H.
  assert (inject_Z n == inject_Z n * Qpower 2 0) as Hn by (simpl; ring).
  rewrite (round_double_Qeq _ _ Hn), round_double_representable by done.
  rewrite <- (Qred_complete _ _ Hn). apply Qred_inject_Z.
Qed.

(** Rounding a double again changes nothing. *)
Lemma round_double_idempotent x : round_double (round_double x) = round_double x.
Proof.
  destruct (Qeq_dec x 0) as [H0|Hx].
  { rewrite (round_double_Qeq x 0 H0). reflexivity. }
  destruct (round_double_nearest x Hx) as (_ & _ & Hq & m & Hr & Hm & _).
  rewrite (round_double_Qeq _ _ Hr).
  rewrite round_double_representable; [|done|rewrite Hq; lia].
  rewrite <- (Qred_complete _ _ Hr).
  rewrite round_double_nonzero by done. apply Qred_complete, Qred_correct.
Qed.

Lemma round_half_even_mono y z :
  y <= z -> (round_half_even y <= round_half_even z)%Z.
Proof.
  intros H. pose proof (Qfloor_resp_le y z H) as Hf.
  destruct (Z.eq_dec (Qfloor y) (Qfloor z)) as [Heq|Hne].
  - unfold round_half_even. rewrite <- Heq.
    set (f := Qfloor y).
    destruct (Qcompare_spec (y - inject_Z f) (1 # 2)) as [Ey|Ey|Ey];
      destruct (Qcompare_spec (z - inject_Z f) (1 # 2)) as [Ez|Ez|Ez];
      try (exfalso; lra); try destruct (Z.even f); lia.
  - destruct (round_half_even_floor y) as [-> | ->];
      destruct (round_half_even_floor z) as [-> | ->]; lia.
Qed.

Lemma exponent_mono a b : 0 < a -> a <= b -> (exponent a <= exponent b)%Z.
Proof.
  intros Ha Hab.
  destruct (exponent_spec a Ha) as [Ha1 Ha2].
  destruct (exponent_spec b ltac:(lra)) as [Hb1 Hb2].
  destruct (Z.le_gt_cases (exponent a) (exponent b)) as [H|H]; [done|].
  exfalso. pose proof (pow2_mono (exponent b + 1) (exponent a) ltac:(lia)). lra.
Qed.

Lemma Qabs_nonneg_eq a : 0 <= a -> Qabs a = a.
Proof.
  destruct a as [n d]. unfold Qle. simpl. intros H.
  f_equal. lia.
Qed.

Lemma round_double_positive a :
  0 < a ->
  round_double a
  == inject_Z (round_half_even (a / Qpower 2 (ulp_exponent a)))
     * Qpower 2 (ulp_exponent a).
Proof.
  intros Ha. rewrite round_double_nonzero by lra. rewrite Qred_correct.
  assert (Qle_bool 0 a = true) as -> by (apply Qle_bool_iff; lra).
  rewrite (Qabs_nonneg_eq a) by lra. ring.
Qed.

Lemma round_double_positive_mono a b :
  0 < a -> a <= b -> round_double a <= round_double b.
Proof.
  intros Ha Hab. assert (Hb : 0 < b) by lra.
  rewrite (round_double_positive a Ha), (round_double_positive b Hb).
  pose proof (exponent_mono a b Ha Hab) as He.
  destruct (exponent_spec a Ha) as [Ha1 Ha2].
  destruct (exponent_spec b Hb) as [Hb1 Hb2].
  set (qa := ulp_exponent a). set (qb := ulp_exponent b).
  assert (Hqa : qa = Z.max (exponent a - 52) (-1074)) by done.
  assert (Hqb : qb = Z.max (exponent b - 52) (-1074)) by done.
  pose proof (pow2_pos qa) as Hpa. pose proof (pow2_pos qb) as Hpb.
  destruct (Z.eq_dec qa qb) as [Heq|Hne].
  - rewrite <- Heq.
    assert (round_half_even (a / Qpower 2 qa) <= round_half_even (b / Qpower 2 qa))%Z as Hm.
    { apply round_half_even_mono. apply Qmult_le_compat_r; [done|].
      apply Qlt_le_weak, Qinv_lt_0_compat. done. }
    rewrite Zle_Qle in Hm. nra.
  - assert (Hlt : (qa < qb)%Z) by lia.
    assert (Hqb' : qb = (exponent b - 52)%Z) by lia.
    apply Qle_trans with (Qpower 2 (exponent b)).
    + assert (Hk : (0 <= exponent b - qa)%Z) by lia.
      assert (round_half_even (a / Qpower 2 qa) <= 2 ^ (exponent b - qa))%Z as Hm.
      { rewrite <- (round_half_even_Z (2 ^ (exponent b - qa))).
        apply round_half_even_mono. rewrite <- pow2_inject by done.
        rewrite pow2_sub. apply Qmult_le_compat_r.
        - pose proof (pow2_mono (exponent a + 1) (exponent b) ltac:(lia)). lra.
        - apply Qlt_le_weak, Qinv_lt_0_compat. done. }
      rewrite Zle_Qle in Hm. rewrite <- pow2_inject in Hm by done.
      rewrite pow2_sub in Hm.
      apply Qle_trans with (Qpower 2 (exponent b) / Qpower 2 qa * Qpower 2 qa).
      * apply Qmult_le_compat_r; [done|lra].
      * apply Qle_lteq. right. field. lra.
    + assert (2 ^ 52 <= round_half_even (b / Qpower 2 qb))%Z as Hm.
      { rewrite <- (round_half_even_Z (2 ^ 52)).
        apply round_half_even_mono. rewrite <- pow2_inject by lia.
        assert (Qpower 2 52 == Qpower 2 (exponent b) / Qpower 2 qb) as ->.
        { rewrite <- pow2_sub. assert ((exponent b - qb = 52)%Z) as -> by lia.
          reflexivity. }
        apply Qmult_le_compat_r; [done|].
        apply Qlt_le_weak, Qinv_lt_0_compat. done. }
      rewrite Zle_Qle in Hm. rewrite <- pow2_inject in Hm by lia.
      apply Qle_trans with (Qpower 2 52 * Qpower 2 qb).
      * rewrite <- Qpower_plus by discriminate.
        apply pow2_mono. lia.
      * apply Qmult_le_compat_r; [done|lra].
Qed.

Lemma round_double_nonneg x : 0 <= x -> 0 <= round_double x.
Proof.
  intros H. destruct (Qeq_dec x 0) as [H0|Hx].
  - rewrite (round_double_Qeq x 0 H0). apply Qle_refl.
  - assert (Hp : 0 < x).
    { apply Qnot_le_lt. intros Hle. apply Hx. lra. }
    rewrite (round_double_positive x Hp).
    pose proof (pow2_pos (ulp_exponent x)) as Hq.
    assert (0 <= round_half_even (x / Qpower 2 (ulp_exponent x)))%Z as Hm.
    { change 0%Z with (round_half_even (inject_Z 0)) at 1.
      apply round_half_even_mono. apply Qle_shift_div_l; [done|].
      change (inject_Z 0) with 0. lra. }
    rewrite Zle_Qle in Hm. change (inject_Z 0) with 0 in Hm.
    apply Qmult_le_0_compat; lra.
Qed.

Lemma round_double_opp x : round_double (- x) == - round_double x.
Proof.
  destruct (Qeq_dec x 0) as [H0|Hx].
  - rewrite (round_double_Qeq x 0 H0).
    assert (- x == 0) as H0' by lra. rewrite (round_double_Qeq _ 0 H0').
    reflexivity.
  - rewrite (round_double_nonzero x Hx).
    rewrite (round_double_nonzero (- x)) by (intros H; apply Hx; lra).
    rewrite !Qred_correct.
    assert (Habs : Qabs (- x) == Qabs x) by apply Qabs_opp.
    assert (Ha : 0 < Qabs x).
    { destruct (Qlt_le_dec x 0) as [Hn|Hp].
      - rewrite Qabs_neg by lra. lra.
      - rewrite Qabs_pos by done.
        apply Qnot_le_lt. intros Hle. apply Hx. lra. }
    assert (ulp_exponent (Qabs (- x)) = ulp_exponent (Qabs x)) as ->.
    { unfold ulp_exponent. rewrite (exponent_Qeq (Qabs x) (Qabs (- x))); [done|done|].
      by rewrite Habs. }
    rewrite (round_half_even_Qeq (Qabs (- x) / _) (Qabs x / Qpower 2 (ulp_exponent (Qabs x))))
      by (by rewrite Habs).
    destruct (Qlt_le_dec x 0) as [Hn|Hp].
    + assert (Qle_bool 0 x = false) as -> by (apply Qle_bool_false; lra).
      assert (Qle_bool 0 (- x) = true) as -> by (apply Qle_bool_iff; lra). ring.
    + assert (0 < x) as Hp' by (apply Qnot_le_lt; intros Hle; apply Hx; lra).
      assert (Qle_bool 0 x = true) as -> by (apply Qle_bool_iff; lra).
      assert (Qle_bool 0 (- x) = false) as -> by (apply Qle_bool_false; lra). ring.
Qed.

(** Rounding keeps the order. *)
Lemma round_double_mono x y : x <= y -> round_double x <= round_double y.
Proof.
  intros H.
  destruct (Qlt_le_dec 0 x) as [Hx|Hx].
  - by apply round_double_positive_mono.
  - destruct (Qlt_le_dec y 0) as [Hy|Hy].
    + assert (round_double (- y) <= round_double (- x)) as Hm
        by (apply round_double_positive_mono; lra).
      rewrite !round_double_opp in Hm. lra.
    + assert (0 <= round_double y) by by apply round_double_nonneg.
      assert (0 <= round_double (- x)) as Hnx by (apply round_double_nonneg; lra).
      rewrite round_double_opp in Hnx. lra.
Qed.

(** ** Float-keyed dictionaries *)

Section FloatDictFacts.
Context {A : Type}.
Implicit Types (d : list (Q * A)) (k : Q).

Lemma dict_get_Qeq d k k' : k == k' -> dict_get k d = dict_get k' d.
Proof.
  intros Hk. induction d as [|[k0 v] d IH]; [done|]. simpl.
  destruct (Qeq_bool k0 k) eqn:E.
  - apply Qeq_bool_iff in E.
    assert (Qeq_bool k0 k' = true) as ->; [|done].
    apply Qeq_bool_iff. by rewrite E.
  - apply Qeq_bool_false in E.
    assert (Qeq_bool k0 k' = false) as ->; [|done].
    apply Qeq_bool_false. intros H. apply E. by rewrite H.
Qed.

Lemma dict_get_key d k : k ∈ dict_keys d -> is_Some (dict_get k d).
Proof.
  unfold dict_keys. induction d as [|[k0 v] d IH]; simpl; intros H.
  - by apply elem_of_nil in H.
  - destruct (Qeq_bool k0 k) eqn:E; [by eexists|].
    apply elem_of_cons in H as [->|H]; [|by apply IH].
    rewrite Qeq_bool_refl in E. done.
Qed.

Lemma dict_get_Some d k v :
  dict_get k d = Some v -> exists k', k' ∈ dict_keys d /\ k' == k.
Proof.
  unfold dict_keys. induction d as [|[k0 v0] d IH]; simpl; [done|].
  destruct (Qeq_bool k0 k) eqn:E.
  - intros _. exists k0. split; [left|by apply Qeq_bool_iff].
  - intros H. destruct (IH H) as (k' & Hin & Hk). exists k'. split; [by right|done].
Qed.

Lemma dict_get_None d k :
  (forall k', k' ∈ dict_keys d -> ~ k' == k) -> dict_get k d = None.
Proof.
  intros H. destruct (dict_get k d) eqn:E; [|done].
  apply dict_get_Some in E as (k' & Hin & Hk). by destruct (H k' Hin).
Qed.
End FloatDictFacts.

(** ** Forward prediction *)

Lemma predict_known self q gm vds L :
  q ∈ quantities -> predict self q gm vds L = _interp_in_vds self q gm vds L.
Proof. intros H. unfold predict. by rewrite bool_decide_eq_true_2. Qed.

Lemma eval_plane_Some planes v gm L f :
  dict_get v planes = Some f -> eval_plane planes v gm L = (Ok (f gm L), []).
Proof. intros H. unfold eval_plane. by rewrite H. Qed.

(** An exact plane is used as it is. *)
Lemma interp_exact self q planes gm vds L f :
  rbf self !! q = Some planes ->
  dict_get vds planes = Some f ->
  _interp_in_vds self q gm vds L = (Ok (f gm L), []).
Proof.
  intros Hq Hf. unfold _interp_in_vds. rewrite Hq. simpl.
  destruct (_available_vds planes) as [|lowest rest] eqn:Ha.
  - apply dict_get_Some in Hf as (k & Hk & _).
    apply sorted_Q_elem in Hk. unfold _available_vds in Ha.
    rewrite Ha in Hk. by apply elem_of_nil in Hk.
  - by rewrite Hf.
Qed.

Lemma available_key planes k :
  k ∈ _available_vds planes -> is_Some (dict_get k planes).
Proof. intros H. apply dict_get_key. by apply sorted_Q_elem. Qed.

(** A bias outside the range of the planes is not the key of a plane. *)
Lemma below_not_key planes lowest rest vds :
  _available_vds planes = lowest :: rest -> vds < lowest ->
  dict_get vds planes = None.
Proof.
  intros Ha Hlt. apply dict_get_None. intros k Hk Heq.
  apply sorted_Q_elem in Hk. fold (_available_vds planes) in Hk.
  pose proof (sorted_Q_sorted (dict_keys planes)) as Hs.
  fold (_available_vds planes) in Hs. rewrite Ha in Hs, Hk.
  pose proof (sorted_head_le _ _ _ Hs Hk) as Hle.
  rewrite Heq in Hle. lra.
Qed.

Lemma above_not_key planes lowest rest vds :
  _available_vds planes = lowest :: rest ->
  List.last (lowest :: rest) lowest < vds ->
  dict_get vds planes = None.
Proof.
  intros Ha Hlt. apply dict_get_None. intros k Hk Heq.
  apply sorted_Q_elem in Hk. fold (_available_vds planes) in Hk.
  pose proof (sorted_Q_sorted (dict_keys planes)) as Hs.
  fold (_available_vds planes) in Hs. rewrite Ha in Hs, Hk.
  pose proof (sorted_le_last _ lowest _ Hs Hk) as Hle.
  rewrite Heq in Hle. lra.
Qed.

(** C7: [predict] with a quantity name outside [id_w], [gmro], [ft] raises
    the unknown-quantity error, whatever the engine holds and whatever the
    other arguments are; it returns no value and divides nothing. *)
Theorem predict_unknown_quantity_raises self q gm vds L :
  q ∉ quantities ->
  predict self q gm vds L = (Raise (ValueError_unknown_quantity q), []).
Proof.
  intros Hq. unfold predict. by rewrite bool_decide_eq_false_2.
Qed.

Lemma predict_unknown_quantity_raises_witness :
  predict (init "thin_plate_spline" None) "vth" 10 (2 # 5) 500
  = (Raise (ValueError_unknown_quantity "vth"), []).
Proof.
  apply predict_unknown_quantity_raises.
  unfold quantities. intros H. by repeat (apply elem_of_cons in H as [H|H]; [done|]);
    apply elem_of_nil in H.
Defined.

(** C3: for a quantity with built planes, a bias below the lowest plane
    gives the lowest plane's value, the same answer as a query at the lowest
    plane's bias; a bias above the highest plane gives the highest plane's
    value, the same answer as a query at the highest plane's bias; a bias
    equal to the bias of a plane gives that plane's value.  None of these
    queries divides. *)
Theorem predict_clamps_and_exact self q planes lowest rest gm vds L :
  q ∈ quantities ->
  rbf self !! q = Some planes ->
  _available_vds planes = lowest :: rest ->
  let highest := List.last (lowest :: rest) lowest in
  (vds < lowest ->
     exists f, dict_get lowest planes = Some f
       /\ predict self q gm vds L = (Ok (f gm L), [])
       /\ predict self q gm vds L = predict self q gm lowest L)
  /\ (highest < vds ->
     exists f, dict_get highest planes = Some f
       /\ predict self q gm vds L = (Ok (f gm L), [])
       /\ predict self q gm vds L = predict self q gm highest L)
  /\ (forall f, dict_get vds planes = Some f ->
        predict self q gm vds L = (Ok (f gm L), [])).
Proof.
  intros Hq Hplanes Ha highest.
  assert (Hlow : lowest ∈ _available_vds planes) by (rewrite Ha; left).
  assert (Hhigh : highest ∈ _available_vds planes)
    by (rewrite Ha; apply last_elem).
  pose proof (sorted_Q_sorted (dict_keys planes)) as Hs.
  fold (_available_vds planes) in Hs. rewrite Ha in Hs.
  split; [|split].
  - intros Hlt. destruct (available_key _ _ Hlow) as [f Hf].
    exists f. split; [done|].
    assert (predict self q gm vds L = (Ok (f gm L), [])) as Hp.
    { rewrite predict_known by done. unfold _interp_in_vds.
      rewrite Hplanes. simpl. rewrite Ha.
      rewrite (below_not_key _ _ _ _ Ha Hlt).
      apply Qlt_bool_iff in Hlt. rewrite Hlt.
      by rewrite (eval_plane_Some _ _ _ _ _ Hf). }
    split; [done|]. rewrite Hp, predict_known by done.
    symmetry. by eapply interp_exact.
  - intros Hlt. destruct (available_key _ _ Hhigh) as [f Hf].
    exists f. split; [done|].
    assert (predict self q gm vds L = (Ok (f gm L), [])) as Hp.
    { rewrite predict_known by done. unfold _interp_in_vds.
      rewrite Hplanes. simpl. rewrite Ha.
      rewrite (above_not_key _ _ _ _ Ha Hlt).
      assert (Qlt_bool vds lowest = false) as ->.
      { apply Qlt_bool_false.
        pose proof (sorted_head_le _ _ highest Hs (last_elem _ _ _)). fold highest in Hlt. lra. }
      fold highest. apply Qlt_bool_iff in Hlt. rewrite Hlt.
      by rewrite (eval_plane_Some _ _ _ _ _ Hf). }
    split; [done|]. rewrite Hp, predict_known by done.
    symmetry. by eapply interp_exact.
  - intros f Hf. rewrite predict_known by done. by eapply interp_exact.
Qed.

(** ** Rebuilding *)

Section BuildFacts.
Variable fit : list (Q * Q) -> list Q -> string -> option Q -> option Interp.

(** A build reads the tables, the kernel and the shape parameter, and
    leaves them as they are. *)
Lemma build_keeps_inputs self :
  let s := (build_interpolators fit self).1 in
  kernel s = kernel self /\ epsilon s = epsilon self /\ data s = data self.
Proof.
  unfold build_interpolators.
  destruct (build_quantities fit _ _ _ _ _) as [[r all] [u|e]];
    [destruct all|]; done.
Qed.

(** A second build, with no new rows in between, ends in the state and
    with the outcome of the first. *)
Lemma build_again self :
  build_interpolators fit (build_interpolators fit self).1
  = build_interpolators fit self.
Proof.
  unfold build_interpolators.
  destruct (build_quantities fit (kernel self) (epsilon self) (data self)
              quantities (empty_planes, [])) as [[r all] [u|e]] eqn:E.
  - destruct all as [|x all]; unfold set_lengths, set_rbf;
      cbn [kernel epsilon data fst]; rewrite E; by destruct u.
  - unfold set_rbf. cbn [kernel epsilon data fst]. by rewrite E.
Qed.

(** C8: after a second [build_interpolators] with no load in between,
    every [predict] query has the answer it had after the first build,
    and [self.lengths] is what it was; this holds for every store, also
    one on which the build raises. *)
Theorem rebuild_idempotent self q gm vds L :
  let s1 := (build_interpolators fit self).1 in
  let s2 := (build_interpolators fit s1).1 in
  predict s2 q gm vds L = predict s1 q gm vds L
  /\ lengths s2 = lengths s1
  /\ (build_interpolators fit s1).2 = (build_interpolators fit self).2.
Proof.
  intros s1 s2. unfold s2, s1. by rewrite build_again.
Qed.
End BuildFacts.

(** ** The linear blend between two adjacent planes *)

Lemma find_bounding_between pre v1 v2 post vds :
  StronglySorted Qle (pre ++ v1 :: v2 :: post) ->
  v1 < vds -> vds < v2 ->
  find_bounding (pre ++ v1 :: v2 :: post) vds = Some (v1, v2).
Proof.
  intros Hs H1 H2. induction pre as [|a pre IH].
  - simpl. assert (Qle_bool v1 vds = true) as -> by (apply Qle_bool_iff; lra).
    assert (Qle_bool vds v2 = true) as -> by (apply Qle_bool_iff; lra). done.
  - assert (Hnext : exists b tl, pre ++ v1 :: v2 :: post = b :: tl /\ b <= v1).
    { destruct pre as [|b pre']; simpl; [exists v1; eexists; split; [done|lra]|].
      exists b. eexists. split; [done|].
      apply StronglySorted_inv in Hs as [Hs _].
      apply (StronglySorted_app_1_elem_of Qle (b :: pre') (v1 :: v2 :: post));
        [done|left|left]. }
    destruct Hnext as (b & tl & Heq & Hb).
    apply StronglySorted_inv in Hs as [Hs _]. specialize (IH Hs).
    change ((a :: pre) ++ v1 :: v2 :: post) with (a :: (pre ++ v1 :: v2 :: post)).
    rewrite Heq in IH |- *. simpl.
    assert (Qle_bool vds b = false) as -> by (apply Qle_bool_false; lra).
    rewrite andb_false_r. exact IH.
Qed.

(** Strictly between two adjacent planes the answer is the linear blend of
    the two planes, with one division by [v2 - v1]. *)
Lemma interp_between self q planes pre v1 v2 post gm vds L f1 f2 :
  rbf self !! q = Some planes ->
  _available_vds planes = pre ++ v1 :: v2 :: post ->
  dict_get v1 planes = Some f1 ->
  dict_get v2 planes = Some f2 ->
  v1 < vds -> vds < v2 ->
  _interp_in_vds self q gm vds L
  = (Ok (f1 gm L + (vds - v1) / (v2 - v1) * (f2 gm L - f1 gm L)), [v2 - v1]).
Proof.
  intros Hq Ha Hf1 Hf2 H1 H2.
  pose proof (sorted_Q_sorted (dict_keys planes)) as Hs.
  fold (_available_vds planes) in Hs. rewrite Ha in Hs.
  assert (Hpre : forall k, k ∈ pre ++ [v1] -> k <= v1).
  { intros k Hk. apply elem_of_app in Hk as [Hk|Hk].
    - apply (StronglySorted_app_1_elem_of Qle pre (v1 :: v2 :: post)); [done|done|left].
    - apply list_elem_of_singleton in Hk as ->. apply Qle_refl. }
  assert (Hpost : forall k, k ∈ v2 :: post -> v2 <= k).
  { intros k Hk. apply StronglySorted_app_1_r in Hs.
    apply StronglySorted_inv in Hs as [Hs _]. by eapply sorted_head_le. }
  assert (Hsplit : forall k, k ∈ pre ++ v1 :: v2 :: post -> k <= v1 \/ v2 <= k).
  { intros k Hk. apply elem_of_app in Hk as [Hk|Hk].
    - left. apply Hpre. apply elem_of_app. by left.
    - apply elem_of_cons in Hk as [->|Hk]; [left; apply Qle_refl|right; by apply Hpost]. }
  assert (Hnone : dict_get vds planes = None).
  { apply dict_get_None. intros k Hk Heq. apply sorted_Q_elem in Hk.
    fold (_available_vds planes) in Hk. rewrite Ha in Hk.
    destruct (Hsplit k Hk) as [Hle|Hle]; rewrite Heq in Hle; lra. }
  unfold _interp_in_vds. rewrite Hq. simpl. rewrite Ha.
  destruct (pre ++ v1 :: v2 :: post) as [|lowest rest] eqn:E; [by destruct pre|].
  rewrite Hnone.
  assert (Hlow : lowest <= v1).
  { destruct (Hsplit lowest ltac:(left)) as [H|H]; [done|].
    assert (Hv1 : v1 ∈ lowest :: rest) by (rewrite <- E; apply elem_of_app; right; left).
    eapply sorted_head_le; eauto. }
  assert (Qlt_bool vds lowest = false) as -> by (apply Qlt_bool_false; lra).
  assert (Hhigh : v2 <= List.last (lowest :: rest) lowest).
  { apply sorted_le_last; [done|]. rewrite <- E. apply elem_of_app. right. right. left. }
  assert (Qlt_bool (List.last (lowest :: rest) lowest) vds = false) as ->
    by (apply Qlt_bool_false; lra).
  rewrite <- E, find_bounding_between by (rewrite ?E; done).
  rewrite (eval_plane_Some _ _ _ _ _ Hf1), (eval_plane_Some _ _ _ _ _ Hf2).
  unfold truediv.
  assert (Qeq_bool (v2 - v1) 0 = false) as -> by (apply Qeq_bool_false; lra).
  done.
Qed.

(** C2: between two adjacent plane biases [v1 < v2] of a quantity,
    [predict] is [y1 + t * (y2 - y1)] with [t = (bias - v1) / (v2 - v1)],
    where [y1] and [y2] are the two planes' values at the query point; and
    for every [t] in [[0, 1]] the answer at [v1 + t * (v2 - v1)] is
    [(1 - t) * predict(v1) + t * predict(v2)], exactly. *)
Theorem predict_linear_blend self q planes pre v1 v2 post gm L :
  q ∈ quantities ->
  rbf self !! q = Some planes ->
  _available_vds planes = pre ++ v1 :: v2 :: post ->
  v1 < v2 ->
  exists f1 f2,
    dict_get v1 planes = Some f1 /\ dict_get v2 planes = Some f2
    /\ (forall vds, v1 < vds -> vds < v2 ->
          predict self q gm vds L
          = (Ok (f1 gm L + (vds - v1) / (v2 - v1) * (f2 gm L - f1 gm L)),
             [v2 - v1]))
    /\ (forall t, 0 <= t -> t <= 1 ->
          exists p,
            outcome (predict self q gm (v1 + t * (v2 - v1)) L) = Ok p
            /\ outcome (predict self q gm v1 L) = Ok (f1 gm L)
            /\ outcome (predict self q gm v2 L) = Ok (f2 gm L)
            /\ p == (1 - t) * f1 gm L + t * f2 gm L).
Proof.
  intros Hq Hplanes Ha Hlt.
  assert (H1 : v1 ∈ _available_vds planes)
    by (rewrite Ha; apply elem_of_app; right; left).
  assert (H2 : v2 ∈ _available_vds planes)
    by (rewrite Ha; apply elem_of_app; right; right; left).
  destruct (available_key _ _ H1) as [f1 Hf1].
  destruct (available_key _ _ H2) as [f2 Hf2].
  exists f1, f2. split; [done|]. split; [done|]. split.
  - intros vds Hv1 Hv2. rewrite predict_known by done. by eapply interp_between.
  - intros t Ht0 Ht1. rewrite !predict_known by done.
    rewrite (interp_exact _ _ _ gm v1 L f1 Hplanes Hf1).
    rewrite (interp_exact _ _ _ gm v2 L f2 Hplanes Hf2).
    destruct (Qle_lt_or_eq _ _ Ht0) as [Hpos|Hzero];
      [destruct (Qle_lt_or_eq _ _ Ht1) as [Hone|Hone]|].
    + (* strictly inside *)
      set (vds := v1 + t * (v2 - v1)).
      assert (v1 < vds) by (unfold vds; nra).
      assert (vds < v2) by (unfold vds; nra).
      rewrite (interp_between _ _ _ _ _ _ _ gm vds L f1 f2) by done.
      eexists. split; [done|]. split; [done|]. split; [done|].
      unfold vds. field. lra.
    + (* t = 1: the bias of the upper plane *)
      assert (Hk : v2 == v1 + t * (v2 - v1)) by (rewrite Hone; ring).
      rewrite (interp_exact _ _ _ gm _ L f2 Hplanes)
        by (by rewrite <- (dict_get_Qeq _ _ _ Hk)).
      eexists. split; [done|]. split; [done|]. split; [done|].
      rewrite Hone. ring.
    + (* t = 0: the bias of the lower plane *)
      assert (Hk : v1 == v1 + t * (v2 - v1)) by (rewrite <- Hzero; ring).
      rewrite (interp_exact _ _ _ gm _ L f1 Hplanes)
        by (by rewrite <- (dict_get_Qeq _ _ _ Hk)).
      eexists. split; [done|]. split; [done|]. split; [done|].
      rewrite <- Hzero. ring.
Qed.

(** ** [min] with a key *)

Section MinKey.
Context {A : Type} (key : A -> Q).

(** [best] is the first minimum of what was seen: strictly below what came
    before it, at most what came after it. *)
Lemma min_from_first l : forall p best q,
  (forall y, y ∈ p -> key best < key y) ->
  (forall y, y ∈ q -> key best <= key y) ->
  exists p' q',
    p ++ best :: q ++ l = p' ++ min_from key best l :: q'
    /\ (forall y, y ∈ p' -> key (min_from key best l) < key y)
    /\ (forall y, y ∈ q' -> key (min_from key best l) <= key y).
Proof.
  induction l as [|a l IH]; intros p best q Hp Hq; simpl.
  - exists p, q. by rewrite app_nil_r.
  - destruct (Qlt_bool (key a) (key best)) eqn:E.
    + apply Qlt_bool_iff in E.
      destruct (IH (p ++ best :: q) a []) as (p' & q' & Heq & Hp' & Hq').
      * intros y Hy. apply elem_of_app in Hy as [Hy|Hy].
        { specialize (Hp y Hy). lra. }
        apply elem_of_cons in Hy as [->|Hy]; [done|].
        specialize (Hq y Hy). lra.
      * intros y Hy. by apply elem_of_nil in Hy.
      * exists p', q'. split; [|done]. rewrite <- Heq. simpl.
        by rewrite <- app_assoc.
    + apply Qlt_bool_false in E.
      destruct (IH p best (q ++ [a])) as (p' & q' & Heq & Hp' & Hq'); [done| |].
      * intros y Hy. apply elem_of_app in Hy as [Hy|Hy]; [by apply Hq|].
        by apply list_elem_of_singleton in Hy as ->.
      * exists p', q'. split; [|done]. rewrite <- Heq.
        by rewrite <- (app_assoc q [a] l).
Qed.

Lemma py_min_first l x :
  py_min key l = Some x ->
  exists p q,
    l = p ++ x :: q
    /\ (forall y, y ∈ p -> key x < key y)
    /\ (forall y, y ∈ q -> key x <= key y).
Proof.
  destruct l as [|a l]; simpl; [done|]. intros [= <-].
  destruct (min_from_first l [] a []) as (p & q & Heq & Hp & Hq).
  - intros y Hy. by apply elem_of_nil in Hy.
  - intros y Hy. by apply elem_of_nil in Hy.
  - exists p, q. by rewrite <- Heq.
Qed.

Lemma py_min_is_Some l : l <> [] -> is_Some (py_min key l).
Proof. destruct l; [done|]. by eexists. Qed.

Lemma py_min_least l x y :
  py_min key l = Some x -> y ∈ l -> key x <= key y.
Proof.
  intros Hm Hy. apply py_min_first in Hm as (p & q & -> & Hp & Hq).
  apply elem_of_app in Hy as [Hy|Hy]; [specialize (Hp y Hy); lra|].
  apply elem_of_cons in Hy as [->|Hy]; [apply Qle_refl|by apply Hq].
Qed.

Lemma py_min_elem l x : py_min key l = Some x -> x ∈ l.
Proof.
  intros Hm. apply py_min_first in Hm as (p & q & -> & _).
  apply elem_of_app. right. left.
Qed.
End MinKey.

(** On an ascending list, the first minimum is the least of the elements
    with the minimal key. *)
Lemma py_min_tie_Q (key : Q -> Q) l x y :
  StronglySorted Qle l ->
  py_min key l = Some x -> y ∈ l -> key y == key x -> x <= y.
Proof.
  intros Hs Hm Hy Hk. apply py_min_first in Hm as (p & q & -> & Hp & _).
  apply elem_of_app in Hy as [Hy|Hy].
  - specialize (Hp y Hy). lra.
  - apply StronglySorted_app_1_r in Hs. by eapply sorted_head_le.
Qed.

Lemma py_min_tie_Z (key : Z -> Q) l x y :
  StronglySorted Z.le l ->
  py_min key l = Some x -> y ∈ l -> key y == key x -> (x <= y)%Z.
Proof.
  intros Hs Hm Hy Hk. apply py_min_first in Hm as (p & q & -> & Hp & _).
  apply elem_of_app in Hy as [Hy|Hy].
  - specialize (Hp y Hy). lra.
  - apply StronglySorted_app_1_r in Hs.
    apply StronglySorted_inv in Hs as [_ Hall].
    apply elem_of_cons in Hy as [->|Hy]; [lia|].
    rewrite Forall_forall in Hall. by apply Hall.
Qed.

(** ** The plane snap *)

Lemma snap_plane_Some rnd planes vds :
  planes <> [] -> is_Some (snap_plane rnd planes vds).
Proof.
  intros Hne. apply py_min_is_Some. intros H.
  destruct planes as [|[k v] planes]; [done|].
  assert (k ∈ sorted_Q (dict_keys ((k, v) :: planes))) as Hk
    by (apply sorted_Q_elem; left).
  rewrite H in Hk. by apply elem_of_nil in Hk.
Qed.

(** The snapped bias is a key of the raw planes, at minimal computed
    distance from the query, and the lowest of the keys at that distance. *)
Lemma snap_plane_nearest rnd planes vds p :
  snap_plane rnd planes vds = Some p ->
  p ∈ dict_keys planes
  /\ (forall k, k ∈ dict_keys planes ->
        Qabs (rnd (p - vds)) <= Qabs (rnd (k - vds)))
  /\ (forall k, k ∈ dict_keys planes ->
        Qabs (rnd (k - vds)) == Qabs (rnd (p - vds)) -> p <= k).
Proof.
  unfold snap_plane. intros Hm. split; [|split].
  - apply sorted_Q_elem. by eapply py_min_elem.
  - intros k Hk. apply (py_min_least _ _ _ _ Hm). by apply sorted_Q_elem.
  - intros k Hk Htie.
    apply (py_min_tie_Q _ _ _ _ (sorted_Q_sorted _) Hm); [by apply sorted_Q_elem|done].
Qed.

(** ** The reconstruction map *)

Lemma insert_row_Permutation r l : insert_row r l ≡ₚ r :: l.
Proof.
  induction l as [|r' l IH]; simpl; [done|].
  destruct (Qle_bool (gm_id r) (gm_id r')); [done|].
  rewrite IH. apply Permutation_swap.
Qed.

Lemma sort_values_Permutation df : sort_values_gm_id df ≡ₚ df.
Proof.
  unfold sort_values_gm_id. induction df as [|r df IH]; simpl; [done|].
  by rewrite insert_row_Permutation, IH.
Qed.

Lemma sort_values_nonempty df : df <> [] -> sort_values_gm_id df <> [].
Proof.
  intros Hne H. apply Hne. apply Permutation_nil_r.
  rewrite <- H. by rewrite sort_values_Permutation.
Qed.

Lemma np_interp_Some rnd gm (df : list Row) :
  df <> [] -> is_Some (np_interp rnd gm (gm_id <$> df) (value <$> df)).
Proof. destruct df as [|r df]; [done|]. intros _. by eexists. Qed.

(** The reconstruction loop never raises and never divides. *)
Lemma reconstruct_ok rnd df gm ls : forall acc,
  exists gp, reconstruct rnd df gm ls acc = (Ok gp, []).
Proof.
  induction ls as [|L ls IH]; intros acc; simpl; [by eexists|].
  destruct (slice_length df L) as [|r rs] eqn:E; [apply IH|].
  destruct (np_interp_Some rnd gm (sort_values_gm_id (r :: rs))) as [g Hg];
    [by apply sort_values_nonempty|].
  rewrite Hg. simpl.
  destruct (IH (<[L := g]> acc)) as [gp ->]. by eexists.
Qed.

(** With no row at any length of the Length Universe, nothing is
    reconstructed. *)
Lemma reconstruct_no_rows rnd df gm ls acc :
  (forall L, L ∈ ls -> slice_length df L = []) ->
  reconstruct rnd df gm ls acc = (Ok acc, []).
Proof.
  induction ls as [|L ls IH]; intros H; simpl; [done|].
  rewrite (H L) by left. apply IH. intros L' HL'. apply H. by right.
Qed.

Lemma slice_length_nil df L :
  (forall r, r ∈ df -> ~ length_nm r == inject_Z L) -> slice_length df L = [].
Proof.
  unfold slice_length. induction df as [|r df IH]; intros H; simpl; [done|].
  assert (Qeq_bool (length_nm r) (inject_Z L) = false) as ->
    by (apply Qeq_bool_false, H; left).
  apply IH. intros r' Hr'. apply H. by right.
Qed.

Lemma is_integer_inject x L : x == inject_Z L -> is_integer x = true.
Proof.
  intros H. unfold is_integer. apply Qeq_bool_iff.
  assert (py_int x = L) as ->; [|done].
  unfold py_int. unfold Qeq in H. simpl in H.
  rewrite Z.mul_1_r in H. rewrite H. apply Z.quot_mul. done.
Qed.

(** The slice at an integer length sees only the rows whose length is an
    integer. *)
Lemma slice_length_integer df L :
  slice_length (List.filter (fun r => is_integer (length_nm r)) df) L
  = slice_length df L.
Proof.
  unfold slice_length. induction df as [|r df IH]; simpl; [done|].
  destruct (Qeq_bool (length_nm r) (inject_Z L)) eqn:E.
  - apply Qeq_bool_iff in E. rewrite (is_integer_inject _ _ E). simpl.
    apply Qeq_bool_iff in E. by rewrite E, IH.
  - destruct (is_integer (length_nm r)); simpl; by rewrite ?E, IH.
Qed.

Lemma reconstruct_integer rnd df gm ls : forall acc,
  reconstruct rnd (List.filter (fun r => is_integer (length_nm r)) df) gm ls acc
  = reconstruct rnd df gm ls acc.
Proof.
  induction ls as [|L ls IH]; intros acc; simpl; [done|].
  rewrite slice_length_integer.
  destruct (slice_length df L); [apply IH|].
  destruct (np_interp rnd _ _ _); simpl; [by rewrite IH|done].
Qed.

(** Past its guards, [gmro_reconstruction] is the reconstruction loop over
    the snapped plane's raw table followed by the emptiness test. *)
Lemma gmro_reconstruction_eq rnd self gm vds planes ls p df :
  data self !! "gmro"%string = Some planes ->
  planes <> [] ->
  lengths self = Some ls ->
  snap_plane rnd planes vds = Some p ->
  dict_get p planes = Some df ->
  gmro_reconstruction rnd self gm vds
  = (gmro_pred <- reconstruct rnd df gm ls ∅ ;;
     match map_to_list gmro_pred with
     | [] => raise (ValueError_no_gmro_at_plane p)
     | _ :: _ => ret gmro_pred
     end).
Proof.
  intros Hd Hne Hl Hs Hdf. unfold gmro_reconstruction.
  rewrite Hd. monad_step. destruct planes as [|pl planes]; [done|].
  rewrite Hl, Hs. monad_step. rewrite Hdf. by monad_step.
Qed.

Lemma gmro_reconstruction_no_division rnd self gm vds :
  divisors (gmro_reconstruction rnd self gm vds) = [].
Proof.
  unfold gmro_reconstruction.
  destruct (data self !! "gmro"%string) as [planes|]; [|done]. monad_step.
  destruct planes as [|pl planes]; [done|].
  destruct (lengths self) as [ls|]; [|done].
  destruct (snap_plane rnd (pl :: planes) vds) as [p|]; [|done]. monad_step.
  destruct (dict_get p (pl :: planes)) as [df|]; [|done]. monad_step.
  destruct (reconstruct_ok rnd df gm ls ∅) as [gp ->]. monad_step.
  by destruct (map_to_list gp).
Qed.

(** A returned reconstruction map is not empty. *)
Lemma gmro_reconstruction_nonempty rnd self gm vds gp log :
  gmro_reconstruction rnd self gm vds = (Ok gp, log) -> map_to_list gp <> [].
Proof.
  unfold gmro_reconstruction.
  destruct (data self !! "gmro"%string) as [planes|]; [|done]. monad_step.
  destruct planes as [|pl planes]; [done|].
  destruct (lengths self) as [ls|]; [|done].
  destruct (snap_plane rnd (pl :: planes) vds) as [p|]; [|done]. monad_step.
  destruct (dict_get p (pl :: planes)) as [df|]; [|done]. monad_step.
  destruct (reconstruct_ok rnd df gm ls ∅) as [gp' ->]. monad_step.
  destruct (map_to_list gp') eqn:E; [done|]. intros [= <- _]. by rewrite E.
Qed.

(** ** The ascending reconstructed lengths *)

Lemma lengths_ordered_elem gp L :
  L ∈ lengths_ordered gp <-> is_Some (gp !! L).
Proof.
  unfold lengths_ordered. rewrite sorted_Z_elem, list_elem_of_fmap. split.
  - intros ([L' g] & -> & H). apply elem_of_map_to_list in H. by eexists.
  - intros [g H]. exists (L, g). split; [done|]. by apply elem_of_map_to_list.
Qed.

Lemma lengths_ordered_sorted gp : StronglySorted Z.le (lengths_ordered gp).
Proof. apply sorted_Z_sorted. Qed.

Lemma lengths_ordered_NoDup gp : NoDup (lengths_ordered gp).
Proof.
  unfold lengths_ordered, sorted_Z. rewrite merge_sort_Permutation.
  apply NoDup_fst_map_to_list.
Qed.

(** Keys of a dictionary are distinct, so adjacent lengths increase
    strictly. *)
Lemma lengths_ordered_adjacent gp pre L1 L2 post :
  lengths_ordered gp = pre ++ L1 :: L2 :: post -> (L1 < L2)%Z.
Proof.
  intros H. pose proof (lengths_ordered_sorted gp) as Hs.
  pose proof (lengths_ordered_NoDup gp) as Hn. rewrite H in Hs, Hn.
  apply StronglySorted_app_1_r in Hs. apply NoDup_app in Hn as (_ & _ & Hn).
  apply StronglySorted_inv in Hs as [_ Hall].
  apply NoDup_cons in Hn as [Hnot _].
  rewrite Forall_forall in Hall. specialize (Hall L2 ltac:(left)).
  assert (L1 <> L2) by (intros ->; apply Hnot; left). lia.
Qed.

Lemma lengths_ordered_nonempty gp :
  map_to_list gp <> [] -> lengths_ordered gp <> [].
Proof.
  intros Hne H. destruct (map_to_list gp) as [|[L g] l] eqn:E; [done|].
  assert (L ∈ lengths_ordered gp) as HL.
  { apply lengths_ordered_elem. exists g. apply elem_of_map_to_list. rewrite E. left. }
  rewrite H in HL. by apply elem_of_nil in HL.
Qed.

(** ** The bracket scan *)

Lemma adjacent_pairs_cons a b l :
  adjacent_pairs (a :: b :: l) = (a, b) :: adjacent_pairs (b :: l).
Proof. done. Qed.

Lemma find_bracket_cons rnd gp m L1 L2 rest :
  find_bracket rnd gp m (L1 :: L2 :: rest)
  = (g1 <- getitem (KeyError_length L1) (gp !! L1) ;;
     g2 <- getitem (KeyError_length L2) (gp !! L2) ;;
     if brackets g1 g2 m then
       L_est <- continuous_estimate rnd L1 L2 g1 g2 m ;;
       ret (Some (L_est, Z.max L1 L2))
     else find_bracket rnd gp m (L2 :: rest)).
Proof. done. Qed.

Lemma find_bracket_step rnd gp m L1 L2 rest g1 g2 :
  gp !! L1 = Some g1 -> gp !! L2 = Some g2 ->
  find_bracket rnd gp m (L1 :: L2 :: rest)
  = if brackets g1 g2 m then
      L_est <- continuous_estimate rnd L1 L2 g1 g2 m ;;
      ret (Some (L_est, Z.max L1 L2))
    else find_bracket rnd gp m (L2 :: rest).
Proof.
  intros H1 H2. cbn [find_bracket]. rewrite H1, H2. by monad_step.
Qed.

(** Without a bracketing pair the scan ends empty-handed, having divided
    nothing. *)
Lemma find_bracket_none rnd gp m l :
  (forall L, L ∈ l -> is_Some (gp !! L)) ->
  no_bracket gp m l ->
  find_bracket rnd gp m l = ret None.
Proof.
  induction l as [|a [|b l] IH]; intros Hk Hn; [done|done|].
  destruct (Hk a ltac:(left)) as [ga Ha].
  destruct (Hk b ltac:(right; left)) as [gb Hb].
  rewrite (find_bracket_step rnd _ _ _ _ _ _ _ Ha Hb).
  unfold no_bracket in Hn. rewrite adjacent_pairs_cons in Hn.
  apply Forall_cons in Hn as [Hab Hn].
  destruct (brackets ga gb m) eqn:E.
  - exfalso. apply Hab. by exists ga, gb.
  - apply IH; [|done]. intros L HL. apply Hk. by right.
Qed.

(** The scan stops at the first bracketing pair and hands it to the
    continuous-estimate step. *)
Lemma find_bracket_first rnd gp m pre L1 L2 post g1 g2 :
  (forall L, L ∈ pre ++ L1 :: L2 :: post -> is_Some (gp !! L)) ->
  no_bracket gp m (pre ++ [L1]) ->
  gp !! L1 = Some g1 -> gp !! L2 = Some g2 -> brackets g1 g2 m = true ->
  find_bracket rnd gp m (pre ++ L1 :: L2 :: post)
  = (L_est <- continuous_estimate rnd L1 L2 g1 g2 m ;;
     ret (Some (L_est, Z.max L1 L2))).
Proof.
  intros Hk Hn H1 H2 Hb. induction pre as [|a pre IH].
  - rewrite app_nil_l, (find_bracket_step rnd _ _ _ _ _ _ _ H1 H2). by rewrite Hb.
  - assert (exists b tl tl', pre ++ L1 :: L2 :: post = b :: tl
                             /\ pre ++ [L1] = b :: tl')
      as (b & tl & tl' & Hb1 & Hb2).
    { destruct pre as [|b pre']; simpl; by do 3 eexists. }
    change ((a :: pre) ++ L1 :: L2 :: post) with (a :: (pre ++ L1 :: L2 :: post)) in *.
    change ((a :: pre) ++ [L1]) with (a :: (pre ++ [L1])) in Hn.
    unfold no_bracket in Hn. rewrite Hb2, adjacent_pairs_cons in Hn.
    apply Forall_cons in Hn as [Hab Hn]. rewrite <- Hb2 in Hn.
    specialize (IH ltac:(intros L HL; apply Hk; by right) Hn).
    rewrite Hb1 in IH, Hk |- *.
    destruct (Hk a ltac:(left)) as [ga Ha].
    destruct (Hk b ltac:(right; left)) as [gb Hgb].
    rewrite (find_bracket_step rnd _ _ _ _ _ _ _ Ha Hgb).
    destruct (brackets ga gb m) eqn:E; [|done].
    exfalso. apply Hab. by exists ga, gb.
Qed.

(** What [invert] returns when [(L1, L2)] is the first bracket. *)
Lemma invert_first_bracket rnd gp m rc L1 L2 g1 g2 :
  first_bracket gp m L1 L2 g1 g2 ->
  invert rnd gp m rc
  = (L_est <- continuous_estimate rnd L1 L2 g1 g2 m ;;
     ret (returned rc L_est (Z.max L1 L2))).
Proof.
  intros ((pre & post & Hl & Hn) & H1 & H2 & Hb). unfold invert.
  rewrite Hl, (find_bracket_first rnd gp m pre L1 L2 post g1 g2); try done.
  - unfold continuous_estimate.
    destruct (Qlt_bool _ _); [by monad_step|].
    unfold truediv_rounded. destruct (Qeq_bool _ _); [done|]. by monad_step.
  - intros L HL. apply lengths_ordered_elem. by rewrite Hl.
Qed.

(** What [invert] returns when no adjacent pair brackets. *)
Lemma invert_no_bracket rnd gp m rc :
  map_to_list gp <> [] ->
  no_bracket gp m (lengths_ordered gp) ->
  exists L,
    py_min (gmro_distance rnd gp m) (lengths_ordered gp) = Some L
    /\ invert rnd gp m rc = ret (returned rc (py_float rnd L) L).
Proof.
  intros Hne Hn.
  destruct (py_min_is_Some (gmro_distance rnd gp m) (lengths_ordered gp)) as [L HL];
    [by apply lengths_ordered_nonempty|].
  exists L. split; [done|]. unfold invert.
  rewrite find_bracket_none; [|intros L' H'; by apply lengths_ordered_elem|done].
  monad_step. rewrite HL. by monad_step.
Qed.

(** ** The continuous estimate *)

Lemma flat_tol_pos : 0 < flat_tol.
Proof. reflexivity. Qed.

(** The literal [1e-12] is read as the double nearest to 10^-12. *)
Lemma flat_tol_is_the_double : round_double (1 # 1000000000000) = flat_tol.
Proof. vm_compute. reflexivity. Qed.

Lemma continuous_estimate_flat rnd L1 L2 g1 g2 m :
  Qabs (rnd (g2 - g1)) < flat_tol ->
  continuous_estimate rnd L1 L2 g1 g2 m
  = (Ok (rnd ((1 # 2) * rnd (inject_Z (L1 + L2)))), []).
Proof.
  intros H. unfold continuous_estimate.
  apply Qlt_bool_iff in H. by rewrite H.
Qed.

Lemma continuous_estimate_steep rnd L1 L2 g1 g2 m :
  flat_tol <= Qabs (rnd (g2 - g1)) ->
  continuous_estimate rnd L1 L2 g1 g2 m
  = (Ok (rnd (rnd (inject_Z L1)
              + rnd (rnd (rnd (m - g1) / rnd (g2 - g1)) * rnd (inject_Z (L2 - L1))))),
     [rnd (g2 - g1)]).
Proof.
  intros H. unfold continuous_estimate.
  assert (Qlt_bool (Qabs (rnd (g2 - g1))) flat_tol = false) as ->
    by by apply Qlt_bool_false.
  unfold truediv_rounded.
  assert (Qeq_bool (rnd (g2 - g1)) 0 = false) as ->; [|done].
  apply Qeq_bool_false. intros Hz. rewrite Hz in H.
  pose proof flat_tol_pos. change (Qabs 0) with 0 in H. lra.
Qed.

(** The step is total: it returns an estimate whatever the rounding. *)
Lemma continuous_estimate_returns rnd L1 L2 g1 g2 m :
  exists L_est log, continuous_estimate rnd L1 L2 g1 g2 m = (Ok L_est, log).
Proof.
  destruct (Qlt_le_dec (Qabs (rnd (g2 - g1))) flat_tol) as [Hflat|Hsteep].
  - rewrite continuous_estimate_flat by done. by do 2 eexists.
  - rewrite continuous_estimate_steep by done. by do 2 eexists.
Qed.

Lemma brackets_true g1 g2 m :
  brackets g1 g2 m = true <-> (g1 <= m /\ m <= g2) \/ (g2 <= m /\ m <= g1).
Proof.
  unfold brackets. rewrite orb_true_iff, !andb_true_iff, !Qle_bool_iff. done.
Qed.

(** The interpolation weight of a bracketed measurement is in [[0, 1]]. *)
Lemma bracket_weight g1 g2 m :
  brackets g1 g2 m = true -> ~ g2 - g1 == 0 ->
  0 <= (m - g1) / (g2 - g1) /\ (m - g1) / (g2 - g1) <= 1.
Proof.
  intros Hb Hne. apply brackets_true in Hb.
  destruct (Qlt_le_dec g1 g2) as [Hlt|Hge].
  - assert (g1 <= m /\ m <= g2) as [Hlo Hhi] by (destruct Hb; lra).
    split.
    + apply Qle_shift_div_l; lra.
    + apply Qle_shift_div_r; lra.
  - assert (g2 < g1) as Hlt by (apply Qnot_le_lt; intros H; apply Hne; lra).
    assert (g2 <= m /\ m <= g1) as [Hlo Hhi] by (destruct Hb; lra).
    assert ((m - g1) / (g2 - g1) == (g1 - m) / (g1 - g2)) as -> by (field; lra).
    split.
    + apply Qle_shift_div_l; lra.
    + apply Qle_shift_div_r; lra.
Qed.

(** In exact arithmetic the continuous estimate of a bracket [L1 < L2] stays
    within it. *)
Lemma continuous_estimate_within rnd L1 L2 g1 g2 m :
  (forall x, rnd x == x) ->
  (L1 < L2)%Z -> brackets g1 g2 m = true ->
  exists L_est log,
    continuous_estimate rnd L1 L2 g1 g2 m = (Ok L_est, log)
    /\ inject_Z L1 <= L_est /\ L_est <= inject_Z L2.
Proof.
  intros Hex HL Hb. rewrite Zlt_Qlt in HL.
  destruct (Qlt_le_dec (Qabs (rnd (g2 - g1))) flat_tol) as [Hflat|Hsteep].
  - rewrite continuous_estimate_flat by done. do 2 eexists. split; [done|].
    rewrite !Hex, inject_Z_plus. lra.
  - rewrite continuous_estimate_steep by done. do 2 eexists. split; [done|].
    assert (~ g2 - g1 == 0) as Hne.
    { intros Hz. rewrite Hex, Hz in Hsteep. change (Qabs 0) with 0 in Hsteep.
      pose proof flat_tol_pos. lra. }
    destruct (bracket_weight g1 g2 m Hb Hne) as [Ht0 Ht1].
    rewrite !Hex. unfold Z.sub. rewrite inject_Z_plus, inject_Z_opp.
    set (t := (m - g1) / (g2 - g1)) in *. nra.
Qed.

(** The same under a rounding that keeps the order and leaves the integers
    of at most 53 bits as they are, for lengths of at most 52 bits. *)
Lemma continuous_estimate_within_rounded rnd L1 L2 g1 g2 m :
  (forall x y, x <= y -> rnd x <= rnd y) ->
  (forall n, (Z.abs n <= 2 ^ 53)%Z -> rnd (inject_Z n) == inject_Z n) ->
  (Z.abs L1 <= 2 ^ 52)%Z -> (Z.abs L2 <= 2 ^ 52)%Z ->
  (L1 < L2)%Z -> brackets g1 g2 m = true ->
  exists L_est log,
    continuous_estimate rnd L1 L2 g1 g2 m = (Ok L_est, log)
    /\ inject_Z L1 <= L_est /\ L_est <= inject_Z L2.
Proof.
  intros Hmono Hint HL1 HL2 HL Hb.
  assert (Hproper : forall x y, x == y -> rnd x == rnd y).
  { intros x y Hxy. apply Qle_antisym; apply Hmono; lra. }
  assert (H0 : rnd 0 == 0) by (apply (Hint 0%Z); lia).
  assert (H1 : rnd 1 == 1) by (apply (Hint 1%Z); lia).
  assert (HA : rnd (inject_Z L1) == inject_Z L1) by (apply Hint; lia).
  assert (HB : rnd (inject_Z L2) == inject_Z L2) by (apply Hint; lia).
  assert (HD : rnd (inject_Z (L2 - L1)) == inject_Z (L2 - L1)) by (apply Hint; lia).
  assert (HS : rnd (inject_Z (L1 + L2)) == inject_Z (L1 + L2)) by (apply Hint; lia).
  assert (Hsub : inject_Z (L2 - L1) == inject_Z L2 - inject_Z L1).
  { unfold Z.sub. rewrite inject_Z_plus, inject_Z_opp. ring. }
  pose proof HL as HLq. rewrite Zlt_Qlt in HLq.
  assert (Hwithin : forall s, inject_Z L1 <= s -> s <= inject_Z L2 ->
                      inject_Z L1 <= rnd s /\ rnd s <= inject_Z L2).
  { intros s Hlo Hhi. split.
    - rewrite <- HA. by apply Hmono.
    - rewrite <- HB. by apply Hmono. }
  destruct (Qlt_le_dec (Qabs (rnd (g2 - g1))) flat_tol) as [Hflat|Hsteep].
  - rewrite continuous_estimate_flat by done.
    do 2 eexists. split; [done|]. apply Hwithin.
    + rewrite HS, inject_Z_plus. lra.
    + rewrite HS, inject_Z_plus. lra.
  - rewrite continuous_estimate_steep by done.
    do 2 eexists. split; [done|].
    set (d := rnd (g2 - g1)) in *. set (m' := rnd (m - g1)).
    pose proof flat_tol_pos as Htol.
    assert (Ht : 0 <= m' / d /\ m' / d <= 1).
    { apply brackets_true in Hb. destruct Hb as [[Hlo Hhi]|[Hlo Hhi]].
      - assert (0 <= m') by (rewrite <- H0; apply Hmono; lra).
        assert (m' <= d) by (apply Hmono; lra).
        assert (0 < d).
        { destruct (Qlt_le_dec 0 d) as [Hd|Hd]; [done|].
          assert (d == 0) as Hz by lra. rewrite Hz in Hsteep.
          change (Qabs 0) with 0 in Hsteep. lra. }
        split; [apply Qle_shift_div_l|apply Qle_shift_div_r]; lra.
      - assert (m' <= 0) by (rewrite <- H0; apply Hmono; lra).
        assert (d <= m') by (apply Hmono; lra).
        assert (d < 0).
        { destruct (Qlt_le_dec d 0) as [Hd|Hd]; [done|].
          assert (d == 0) as Hz by lra. rewrite Hz in Hsteep.
          change (Qabs 0) with 0 in Hsteep. lra. }
        assert (m' / d == (- m') / (- d)) as -> by (field; lra).
        split; [apply Qle_shift_div_l|apply Qle_shift_div_r]; lra. }
    destruct Ht as [Ht0 Ht1].
    set (t := rnd (m' / d)).
    assert (0 <= t) by (rewrite <- H0; by apply Hmono).
    assert (t <= 1) by (rewrite <- H1; by apply Hmono).
    set (p := rnd (t * rnd (inject_Z (L2 - L1)))).
    assert (0 <= p).
    { rewrite <- H0. apply Hmono. rewrite HD, Hsub. nra. }
    assert (p <= inject_Z L2 - inject_Z L1).
    { rewrite <- Hsub, <- HD at 1.
      rewrite <- (Hproper _ _ HD). apply Hmono. rewrite HD, Hsub. nra. }
    apply Hwithin; rewrite HA; lra.
Qed.

(** ** The inversion as a whole *)

Lemma estimate_after_reconstruction rnd self gm m vds rc gp log :
  gmro_reconstruction rnd self gm vds = (Ok gp, log) ->
  estimate_length_from_gmro rnd self gm m vds rc = invert rnd gp m rc.
Proof.
  intros H. unfold estimate_length_from_gmro.
  pose proof (gmro_reconstruction_no_division rnd self gm vds) as Hlog.
  rewrite H in Hlog |- *. simpl in Hlog. subst log. by monad_step.
Qed.

(** C1: when [(L1, L2)] is the first adjacent pair of the ascending
    reconstructed lengths that brackets the measurement, the discrete length
    returned is [max(L1, L2)], which is [L2], whatever the continuous
    estimate and the rounding are.  On the bracket (500, 30), (700, 40), in
    double arithmetic: a measurement of 35 gives the continuous estimate 600
    and the discrete length 700, and a measurement of 31 gives the
    continuous estimate 520, nearer to 500, and still the discrete length
    700. *)
Theorem bracket_discrete_is_max :
  (forall rnd self gm m vds gp log L1 L2 g1 g2,
     gmro_reconstruction rnd self gm vds = (Ok gp, log) ->
     first_bracket gp m L1 L2 g1 g2 ->
     Z.max L1 L2 = L2
     /\ outcome (estimate_length_from_gmro rnd self gm m vds false)
        = Ok (Discrete (Z.max L1 L2))
     /\ exists L_est,
          outcome (continuous_estimate rnd L1 L2 g1 g2 m) = Ok L_est
          /\ outcome (estimate_length_from_gmro rnd self gm m vds true)
              = Ok (Continuous L_est (Z.max L1 L2)))
  /\ estimate_length_from_gmro round_double one_plane 10 35 (2 # 5) true
     = (Ok (Continuous 600 700), [10])
  /\ estimate_length_from_gmro round_double one_plane 10 31 (2 # 5) true
     = (Ok (Continuous 520 700), [10]).
Proof.
  split; [|split].
  - intros rnd self gm m vds gp log L1 L2 g1 g2 Hrec Hfirst.
    pose proof Hfirst as ((pre & post & Hl & _) & _ & _ & Hb).
    pose proof (lengths_ordered_adjacent _ _ _ _ _ Hl) as Hlt.
    rewrite !(estimate_after_reconstruction rnd _ _ _ _ _ _ _ Hrec).
    rewrite !(invert_first_bracket rnd _ _ _ _ _ _ _ Hfirst).
    destruct (continuous_estimate_returns rnd L1 L2 g1 g2 m)
      as (L_est & dlog & ->).
    split; [lia|]. split; [done|]. by exists L_est.
  - vm_compute. reflexivity.
  - vm_compute. reflexivity.
Qed.

Lemma bracket_discrete_is_max_witness :
  outcome (estimate_length_from_gmro round_double one_plane 10 35 (2 # 5) false)
  = Ok (Discrete (Z.max 500 700)).
Proof.
  refine (proj1 (proj2 (proj1 bracket_discrete_is_max round_double
            one_plane 10 35 (2 # 5) gmro_500_700 [] 500%Z 700%Z 30 40 _ _))).
  - vm_compute. reflexivity.
  - split; [|split; [|split]]; [|vm_compute; reflexivity..].
    exists [], []. split; [vm_compute; reflexivity|]. apply Forall_nil_2.
Defined.

(** C10: when a bracket [(L1, L2)] is found, [L1 < L2]; in exact arithmetic
    (a rounding that changes no value) the continuous estimate returned
    lies in [[L1, L2]] and the discrete length returned is at least the
    continuous estimate. *)
Theorem bracket_estimates_ordered rnd self gm m vds gp log L1 L2 g1 g2 :
  (forall x, rnd x == x) ->
  gmro_reconstruction rnd self gm vds = (Ok gp, log) ->
  first_bracket gp m L1 L2 g1 g2 ->
  exists L_est L_disc,
    outcome (estimate_length_from_gmro rnd self gm m vds true)
    = Ok (Continuous L_est L_disc)
    /\ (L1 < L2)%Z
    /\ inject_Z L1 <= L_est /\ L_est <= inject_Z L2
    /\ L_est <= inject_Z L_disc.
Proof.
  intros Hex Hrec Hfirst.
  pose proof Hfirst as ((pre & post & Hl & _) & _ & _ & Hb).
  pose proof (lengths_ordered_adjacent _ _ _ _ _ Hl) as Hlt.
  rewrite (estimate_after_reconstruction rnd _ _ _ _ _ _ _ Hrec).
  rewrite (invert_first_bracket rnd _ _ _ _ _ _ _ Hfirst).
  destruct (continuous_estimate_within rnd L1 L2 g1 g2 m Hex Hlt Hb)
    as (L_est & dlog & -> & Hlo & Hhi).
  exists L_est, (Z.max L1 L2). split; [done|]. split; [done|].
  split; [done|]. split; [done|].
  rewrite Z.max_r by lia. done.
Qed.

Lemma bracket_estimates_ordered_witness :
  exists L_est L_disc,
    outcome (estimate_length_from_gmro unrounded one_plane 10 31 (2 # 5) true)
    = Ok (Continuous L_est L_disc)
    /\ (500 < 700)%Z
    /\ inject_Z 500 <= L_est /\ L_est <= inject_Z 700
    /\ L_est <= inject_Z L_disc.
Proof.
  apply (bracket_estimates_ordered unrounded one_plane 10 31 (2 # 5) gmro_500_700 []
           500%Z 700%Z 30 40).
  - intros x. reflexivity.
  - vm_compute. reflexivity.
  - split; [|split; [|split]]; [|vm_compute; reflexivity..].
    exists [], []. split; [vm_compute; reflexivity|]. apply Forall_nil_2.
Defined.

(** The fallback key at a reconstructed length. *)
Lemma gmro_distance_lookup rnd gp m L g :
  gp !! L = Some g -> gmro_distance rnd gp m L = Qabs (rnd (g - m)).
Proof. intros H. unfold gmro_distance. by rewrite (lookup_total_correct _ _ _ H). Qed.

(** C5: when no adjacent pair of reconstructed lengths brackets the
    measurement, the discrete length returned is a reconstructed length
    whose reconstructed gmro is nearest to the measurement, by the
    difference [abs(gmro_pred[L] - gmro_measured)] as the code computes it
    (the shortest such length when several are equally near), and the
    continuous estimate is that same length converted to a float; nothing
    is divided.  Where the computed differences are the exact ones, the
    length is nearest by the exact difference. *)
Theorem no_bracket_nearest_gmro rnd self gm m vds gp log :
  gmro_reconstruction rnd self gm vds = (Ok gp, log) ->
  no_bracket gp m (lengths_ordered gp) ->
  exists L g,
    gp !! L = Some g
    /\ estimate_length_from_gmro rnd self gm m vds false = (Ok (Discrete L), [])
    /\ estimate_length_from_gmro rnd self gm m vds true
       = (Ok (Continuous (rnd (inject_Z L)) L), [])
    /\ (forall L' g', gp !! L' = Some g' ->
         Qabs (rnd (g - m)) <= Qabs (rnd (g' - m))
         /\ (Qabs (rnd (g' - m)) == Qabs (rnd (g - m)) -> (L <= L')%Z))
    /\ ((forall L' g', gp !! L' = Some g' -> rnd (g' - m) == g' - m) ->
        forall L' g', gp !! L' = Some g' ->
          Qabs (g - m) <= Qabs (g' - m)
          /\ (Qabs (g' - m) == Qabs (g - m) -> (L <= L')%Z)).
Proof.
  intros Hrec Hno.
  pose proof (gmro_reconstruction_nonempty rnd _ _ _ _ _ Hrec) as Hne.
  rewrite !(estimate_after_reconstruction rnd _ _ _ _ _ _ _ Hrec).
  destruct (invert_no_bracket rnd gp m false Hne Hno) as (L & Hmin & Hinv).
  destruct (invert_no_bracket rnd gp m true Hne Hno) as (L2 & Hmin2 & Hinv2).
  rewrite Hmin in Hmin2. injection Hmin2 as <-.
  pose proof (py_min_elem _ _ _ Hmin) as HL.
  apply lengths_ordered_elem in HL as [g Hg].
  exists L, g. split; [done|]. split; [done|]. split; [done|].
  assert (Hcomputed : forall L' g', gp !! L' = Some g' ->
            Qabs (rnd (g - m)) <= Qabs (rnd (g' - m))
            /\ (Qabs (rnd (g' - m)) == Qabs (rnd (g - m)) -> (L <= L')%Z)).
  { intros L' g' Hg'.
    assert (HL' : L' ∈ lengths_ordered gp)
      by (apply lengths_ordered_elem; by eexists).
    rewrite <- (gmro_distance_lookup rnd gp m L g Hg).
    rewrite <- (gmro_distance_lookup rnd gp m L' g' Hg').
    split.
    - by eapply py_min_least.
    - intros Htie.
      by eapply py_min_tie_Z; [apply lengths_ordered_sorted|..]. }
  split; [done|].
  intros Hexact L' g' Hg'. destruct (Hcomputed L' g' Hg') as [Hle Htie].
  rewrite (Hexact L g Hg), (Hexact L' g' Hg') in Hle, Htie. done.
Qed.

Lemma no_bracket_nearest_gmro_witness :
  exists L g,
    gmro_500_700 !! L = Some g
    /\ estimate_length_from_gmro round_double one_plane 10 50 (2 # 5) false
       = (Ok (Discrete L), [])
    /\ estimate_length_from_gmro round_double one_plane 10 50 (2 # 5) true
       = (Ok (Continuous (round_double (inject_Z L)) L), [])
    /\ (forall L' g', gmro_500_700 !! L' = Some g' ->
         Qabs (round_double (g - 50)) <= Qabs (round_double (g' - 50))
         /\ (Qabs (round_double (g' - 50)) == Qabs (round_double (g - 50)) ->
             (L <= L')%Z))
    /\ ((forall L' g', gmro_500_700 !! L' = Some g' ->
           round_double (g' - 50) == g' - 50) ->
        forall L' g', gmro_500_700 !! L' = Some g' ->
          Qabs (g - 50) <= Qabs (g' - 50)
          /\ (Qabs (g' - 50) == Qabs (g - 50) -> (L <= L')%Z)).
Proof.
  apply (no_bracket_nearest_gmro round_double one_plane 10 50 (2 # 5) gmro_500_700 []).
  - vm_compute. reflexivity.
  - unfold no_bracket.
    assert (adjacent_pairs (lengths_ordered gmro_500_700) = [(500, 700)%Z]) as ->
      by (vm_compute; reflexivity).
    apply Forall_cons_2; [|apply Forall_nil_2].
    intros (g1 & g2 & H1 & H2 & Hb).
    assert (g1 = 30) as -> by (vm_compute in H1; congruence).
    assert (g2 = 40) as -> by (vm_compute in H2; congruence).
    vm_compute in Hb. discriminate.
Defined.

(** Far from every reconstructed value the computed differences can tie:
    at a measurement of 10^17 both are 10^17 - 32 and the shorter length is
    returned, although 40 is the nearer value. *)
Example fallback_computed_tie :
  estimate_length_from_gmro round_double one_plane 10 (10 ^ 17) (2 # 5) true
  = (Ok (Continuous 500 500), [])
  /\ round_double (30 - 10 ^ 17) = - (99999999999999968)
  /\ round_double (40 - 10 ^ 17) = - (99999999999999968)
  /\ Qabs (40 - 10 ^ 17) < Qabs (30 - 10 ^ 17).
Proof. repeat split; vm_compute; reflexivity. Qed.

(** ** Divisions *)

Lemma continuous_estimate_cases rnd L1 L2 g1 g2 m :
  (Qabs (rnd (g2 - g1)) < flat_tol
   /\ continuous_estimate rnd L1 L2 g1 g2 m
      = (Ok (rnd ((1 # 2) * rnd (inject_Z (L1 + L2)))), []))
  \/ (flat_tol <= Qabs (rnd (g2 - g1))
      /\ continuous_estimate rnd L1 L2 g1 g2 m
         = (Ok (rnd (rnd (inject_Z L1)
                     + rnd (rnd (rnd (m - g1) / rnd (g2 - g1))
                            * rnd (inject_Z (L2 - L1))))),
            [rnd (g2 - g1)])).
Proof.
  destruct (Qlt_le_dec (Qabs (rnd (g2 - g1))) flat_tol) as [H|H].
  - left. split; [done|]. by apply continuous_estimate_flat.
  - right. split; [done|]. by apply continuous_estimate_steep.
Qed.

Lemma find_bracket_safe rnd gp m l : division_safe (find_bracket rnd gp m l).
Proof.
  induction l as [|a [|b l] IH]; [by split..|].
  rewrite find_bracket_cons.
  destruct (gp !! a) as [ga|]; [|by split]. monad_step.
  destruct (gp !! b) as [gb|]; [|by split]. monad_step.
  destruct (brackets ga gb m); [|done].
  destruct (continuous_estimate_cases rnd a b ga gb m) as [[_ ->]|[H ->]].
  - by split.
  - split; [|done]. simpl. by apply Forall_cons_2.
Qed.

Lemma invert_safe rnd gp m rc : division_safe (invert rnd gp m rc).
Proof.
  unfold invert.
  destruct (find_bracket_safe rnd gp m (lengths_ordered gp)) as [Hd Ho].
  destruct (find_bracket rnd gp m (lengths_ordered gp)) as [[[[L_est L_disc]|]|e] log].
  - split; simpl in *; [by rewrite app_nil_r|done].
  - simpl in *. destruct (py_min _ _); split; simpl; by rewrite ?app_nil_r.
  - split; simpl in *; [done|]. intros [= ->]. by apply Ho.
Qed.

Lemma gmro_reconstruction_no_zero_division rnd self gm vds :
  outcome (gmro_reconstruction rnd self gm vds) <> Raise ZeroDivisionError.
Proof.
  unfold gmro_reconstruction.
  destruct (data self !! "gmro"%string) as [planes|]; [|done]. monad_step.
  destruct planes as [|pl planes]; [done|].
  destruct (lengths self) as [ls|]; [|done].
  destruct (snap_plane rnd (pl :: planes) vds) as [p|]; [|done]. monad_step.
  destruct (dict_get p (pl :: planes)) as [df|]; [|done]. monad_step.
  destruct (reconstruct_ok rnd df gm ls ∅) as [gp ->]. monad_step.
  by destruct (map_to_list gp).
Qed.

(** C6: the tolerance is the double [1e-12].  Every division
    [estimate_length_from_gmro] performs has a divisor of absolute value at
    least [1e-12], and the call never ends in a division by zero.  When the
    difference [g2 - g1] of the winning bracket, as the code computes it,
    is below [1e-12] in absolute value, the continuous estimate is the
    midpoint [0.5 * (L1 + L2)] and nothing is divided; otherwise the call
    divides once, by that difference. *)
Theorem division_only_when_steep rnd self gm m vds rc :
  flat_tol = round_double (1 # 1000000000000)
  /\ division_safe (estimate_length_from_gmro rnd self gm m vds rc)
  /\ forall gp log L1 L2 g1 g2,
       gmro_reconstruction rnd self gm vds = (Ok gp, log) ->
       first_bracket gp m L1 L2 g1 g2 ->
       (Qabs (rnd (g2 - g1)) < flat_tol ->
          estimate_length_from_gmro rnd self gm m vds rc
          = (Ok (returned rc (rnd ((1 # 2) * rnd (inject_Z (L1 + L2))))
                   (Z.max L1 L2)), []))
       /\ (flat_tol <= Qabs (rnd (g2 - g1)) ->
             divisors (estimate_length_from_gmro rnd self gm m vds rc)
             = [rnd (g2 - g1)]).
Proof.
  split; [by rewrite flat_tol_is_the_double|]. split.
  - destruct (gmro_reconstruction rnd self gm vds) as [[gp|e] log] eqn:E.
    + rewrite (estimate_after_reconstruction rnd _ _ _ _ _ _ _ E). apply invert_safe.
    + pose proof (gmro_reconstruction_no_division rnd self gm vds) as Hlog.
      pose proof (gmro_reconstruction_no_zero_division rnd self gm vds) as Hz.
      unfold estimate_length_from_gmro. rewrite E in Hlog, Hz |- *.
      simpl in *. subst log. split; [done|].
      simpl. intros [= ->]. by apply Hz.
  - intros gp log L1 L2 g1 g2 Hrec Hfirst.
    rewrite (estimate_after_reconstruction rnd _ _ _ _ _ _ _ Hrec).
    rewrite (invert_first_bracket rnd _ _ _ _ _ _ _ Hfirst).
    split; intros Hd.
    + rewrite continuous_estimate_flat by done. by monad_step.
    + by rewrite continuous_estimate_steep by done.
Qed.

Lemma division_only_when_steep_witness :
  estimate_length_from_gmro round_double flat_plane 10 30 (2 # 5) true
  = (Ok (Continuous
           (round_double ((1 # 2) * round_double (inject_Z (500 + 700))))
           (Z.max 500 700)), []).
Proof.
  refine (proj1 (proj2 (proj2
            (division_only_when_steep round_double flat_plane 10 30 (2 # 5) true))
            (<[700%Z := 30]> (<[500%Z := 30]> ∅)) [] 500%Z 700%Z 30 30 _ _) _).
  - vm_compute. reflexivity.
  - split; [|split; [|split]]; [|vm_compute; reflexivity..].
    exists [], []. split; [vm_compute; reflexivity|]. apply Forall_nil_2.
  - reflexivity.
Defined.

(** At the tolerance itself the step divides: with gmro 0 and [1e-12] at
    500 nm and 700 nm, a measurement a quarter of the way up gives 550.  One
    double below the tolerance it gives the midpoint 600 and divides
    nothing. *)
Example division_at_the_tolerance :
  estimate_length_from_gmro round_double (rising_plane flat_tol) 10
    (flat_tol / 4) (2 # 5) true
  = (Ok (Continuous 550 700), [flat_tol])
  /\ estimate_length_from_gmro round_double
       (rising_plane (4951760157141520 # 2 ^ 92)) 10 (flat_tol / 4) (2 # 5) true
     = (Ok (Continuous 600 700), []).
Proof. split; vm_compute; reflexivity. Qed.

(** ** Which plane the inversion reads *)

(** C4: the plane [estimate_length_from_gmro] reconstructs from is the raw
    gmro table whose bias is nearest to the query bias, by the distance
    [abs(x - vds_req)] as the code computes it, the lower bias when two are
    equally near; where the computed distances are the exact ones, the
    plane is nearest by the exact distance.  The candidates are the keys of
    the raw gmro tables, and the fitted interpolants play no part in the
    call. *)
Theorem snap_to_nearest_raw_plane rnd self gm m vds rc planes ls :
  data self !! "gmro"%string = Some planes ->
  planes <> [] ->
  lengths self = Some ls ->
  exists p df,
    snap_plane rnd planes vds = Some p
    /\ dict_get p planes = Some df
    /\ p ∈ dict_keys planes
    /\ (forall k, k ∈ dict_keys planes ->
          Qabs (rnd (p - vds)) <= Qabs (rnd (k - vds))
          /\ (Qabs (rnd (k - vds)) == Qabs (rnd (p - vds)) -> p <= k))
    /\ ((forall k, k ∈ dict_keys planes -> rnd (k - vds) == k - vds) ->
        forall k, k ∈ dict_keys planes ->
          Qabs (p - vds) <= Qabs (k - vds)
          /\ (Qabs (k - vds) == Qabs (p - vds) -> p <= k))
    /\ gmro_reconstruction rnd self gm vds
       = (gmro_pred <- reconstruct rnd df gm ls ∅ ;;
          match map_to_list gmro_pred with
          | [] => raise (ValueError_no_gmro_at_plane p)
          | _ :: _ => ret gmro_pred
          end)
    /\ forall r,
         estimate_length_from_gmro rnd (set_rbf self r) gm m vds rc
         = estimate_length_from_gmro rnd self gm m vds rc.
Proof.
  intros Hd Hne Hl.
  destruct (snap_plane_Some rnd planes vds Hne) as [p Hp].
  destruct (snap_plane_nearest rnd _ _ _ Hp) as (Hin & Hleast & Htie).
  destruct (dict_get_key _ _ Hin) as [df Hdf].
  exists p, df. split; [done|]. split; [done|]. split; [done|].
  split; [|split; [|split]].
  - intros k Hk. split; [by apply Hleast|by apply Htie].
  - intros Hexact k Hk.
    pose proof (Hleast k Hk) as Hle. pose proof (Htie k Hk) as Ht.
    rewrite (Hexact p Hin), (Hexact k Hk) in Hle, Ht. done.
  - by apply gmro_reconstruction_eq with planes.
  - done.
Qed.

Lemma snap_to_nearest_raw_plane_witness :
  snap_plane round_double two_planes_gmro (3 # 5) = Some (2 # 5)
  /\ exists p df,
    snap_plane round_double two_planes_gmro (3 # 5) = Some p
    /\ dict_get p two_planes_gmro = Some df
    /\ p ∈ dict_keys two_planes_gmro
    /\ (forall k, k ∈ dict_keys two_planes_gmro ->
          Qabs (round_double (p - (3 # 5))) <= Qabs (round_double (k - (3 # 5)))
          /\ (Qabs (round_double (k - (3 # 5))) == Qabs (round_double (p - (3 # 5)))
              -> p <= k))
    /\ ((forall k, k ∈ dict_keys two_planes_gmro ->
           round_double (k - (3 # 5)) == k - (3 # 5)) ->
        forall k, k ∈ dict_keys two_planes_gmro ->
          Qabs (p - (3 # 5)) <= Qabs (k - (3 # 5))
          /\ (Qabs (k - (3 # 5)) == Qabs (p - (3 # 5)) -> p <= k))
    /\ gmro_reconstruction round_double two_planes 10 (3 # 5)
       = (gmro_pred <- reconstruct round_double df 10 [500; 700]%Z ∅ ;;
          match map_to_list gmro_pred with
          | [] => raise (ValueError_no_gmro_at_plane p)
          | _ :: _ => ret gmro_pred
          end)
    /\ forall r,
         estimate_length_from_gmro round_double (set_rbf two_planes r) 10 35 (3 # 5) true
         = estimate_length_from_gmro round_double two_planes 10 35 (3 # 5) true.
Proof.
  split; [vm_compute; reflexivity|].
  apply (snap_to_nearest_raw_plane round_double two_planes 10 35 (3 # 5) true
           two_planes_gmro).
  - vm_compute. reflexivity.
  - discriminate.
  - vm_compute. reflexivity.
Defined.

(** Doubles near 0.3, 1.3 and 0.8: both computed distances are 0.5 and the
    lower bias is taken, although the exact distance to the higher one is
    smaller. *)
Example snap_plane_computed_tie :
  snap_plane round_double
    [(round_double (3 # 10), []); (round_double (13 # 10), [])]
    (round_double (4 # 5))
  = Some (round_double (3 # 10))
  /\ round_double (round_double (3 # 10) - round_double (4 # 5)) = - (1 # 2)
  /\ round_double (round_double (13 # 10) - round_double (4 # 5)) = 1 # 2
  /\ Qabs (round_double (13 # 10) - round_double (4 # 5))
     < Qabs (round_double (3 # 10) - round_double (4 # 5)).
Proof. repeat split; vm_compute; reflexivity. Qed.

(** Doubles near 0.1, 0.3 and 0.2: the higher bias is the nearer one. *)
Example snap_plane_between_decimals :
  snap_plane round_double
    [(round_double (1 # 10), []); (round_double (3 # 10), [])]
    (round_double (1 # 5))
  = Some (round_double (3 # 10)).
Proof. vm_compute. reflexivity. Qed.

(** C9: with gmro data loaded and the Length Universe computed, the call
    still raises when no row of the snapped plane has a length equal to a
    length of the Length Universe; rows whose length is not an integer never
    enter the reconstruction, so a snapped plane made of such rows only
    always raises. *)
Theorem no_length_match_raises rnd self gm m vds rc planes ls p df :
  data self !! "gmro"%string = Some planes ->
  planes <> [] ->
  lengths self = Some ls ->
  snap_plane rnd planes vds = Some p ->
  dict_get p planes = Some df ->
  ((forall r L, r ∈ df -> L ∈ ls -> ~ length_nm r == inject_Z L) ->
     estimate_length_from_gmro rnd self gm m vds rc
     = (Raise (ValueError_no_gmro_at_plane p), []))
  /\ reconstruct rnd (List.filter (fun r => is_integer (length_nm r)) df) gm ls ∅
     = reconstruct rnd df gm ls ∅
  /\ ((forall r, r ∈ df -> is_integer (length_nm r) = false) ->
        estimate_length_from_gmro rnd self gm m vds rc
        = (Raise (ValueError_no_gmro_at_plane p), [])).
Proof.
  intros Hd Hne Hl Hp Hdf.
  assert (Hraise : (forall r L, r ∈ df -> L ∈ ls -> ~ length_nm r == inject_Z L) ->
     estimate_length_from_gmro rnd self gm m vds rc
     = (Raise (ValueError_no_gmro_at_plane p), [])).
  { intros Hno. unfold estimate_length_from_gmro.
    rewrite (gmro_reconstruction_eq rnd _ gm _ _ _ _ _ Hd Hne Hl Hp Hdf).
    rewrite reconstruct_no_rows.
    - monad_step. by rewrite map_to_list_empty.
    - intros L HL. apply slice_length_nil. intros r Hr. by apply Hno. }
  split; [done|]. split; [apply reconstruct_integer|].
  intros Hint. apply Hraise. intros r L Hr HL Heq.
  specialize (Hint r Hr). by rewrite (is_integer_inject _ _ Heq) in Hint.
Qed.

Lemma no_length_match_raises_witness :
  lengths off_grid = Some [500%Z]
  /\ estimate_length_from_gmro round_double off_grid 10 35 (2 # 5) true
     = (Raise (ValueError_no_gmro_at_plane (2 # 5)), []).
Proof.
  split; [vm_compute; reflexivity|].
  refine (proj2 (proj2 (no_length_match_raises round_double off_grid 10 35 (2 # 5) true
            off_grid_gmro [500%Z] (2 # 5) [mkRow 10 (1001 # 2) 30] _ _ _ _ _)) _).
  - vm_compute. reflexivity.
  - discriminate.
  - vm_compute. reflexivity.
  - vm_compute. reflexivity.
  - vm_compute. reflexivity.
  - intros r Hr. apply list_elem_of_singleton in Hr as ->. vm_compute. reflexivity.
Defined.

(** ** Closed instances of the blending laws *)

Lemma predict_clamps_and_exact_witness :
  predict two_planes "gmro" 10 (1 # 5) 600 = predict two_planes "gmro" 10 (2 # 5) 600
  /\ predict two_planes "gmro" 10 1 600 = predict two_planes "gmro" 10 (4 # 5) 600.
Proof.
  destruct (predict_clamps_and_exact two_planes "gmro" two_planes_rbf (2 # 5)
              [4 # 5] 10 (1 # 5) 600) as (Hlow & _ & _).
  { right. left. }
  { vm_compute. reflexivity. }
  { vm_compute. reflexivity. }
  destruct (predict_clamps_and_exact two_planes "gmro" two_planes_rbf (2 # 5)
              [4 # 5] 10 1 600) as (_ & Hhigh & _).
  { right. left. }
  { vm_compute. reflexivity. }
  { vm_compute. reflexivity. }
  destruct Hlow as (f & _ & _ & Hl); [reflexivity|].
  destruct Hhigh as (g & _ & _ & Hh); [reflexivity|].
  split; [exact Hl|exact Hh].
Defined.

Lemma predict_linear_blend_witness :
  exists p,
    outcome (predict two_planes "gmro" 10 ((2 # 5) + (1 # 4) * ((4 # 5) - (2 # 5))) 600)
    = Ok p
    /\ p == (1 - (1 # 4)) * 30 + (1 # 4) * 60.
Proof.
  destruct (predict_linear_blend two_planes "gmro" two_planes_rbf [] (2 # 5) (4 # 5)
              [] 10 600) as (f1 & f2 & Hf1 & Hf2 & _ & Hblend).
  { right. left. }
  { vm_compute. reflexivity. }
  { vm_compute. reflexivity. }
  { reflexivity. }
  destruct (Hblend (1 # 4)) as (p & Hp & _ & _ & Heq); [discriminate..|].
  exists p. split; [exact Hp|].
  injection Hf1 as <-. injection Hf2 as <-. exact Heq.
Defined.

(** * Further properties *)

(** ** Loading *)

Section FloatDictUpdates.
Context {A : Type}.
Implicit Types (d : list (Q * A)) (k : Q).

(** Reading a dictionary after a write. *)
Lemma dict_get_set d k k' v :
  dict_get k' (dict_set k v d) = if Qeq_bool k k' then Some v else dict_get k' d.
Proof.
  induction d as [|[k0 v0] d IH]; simpl.
  - done.
  - destruct (Qeq_bool k0 k) eqn:E0; simpl.
    + apply Qeq_bool_iff in E0.
      destruct (Qeq_bool k k') eqn:E.
      * apply Qeq_bool_iff in E.
        assert (Qeq_bool k0 k' = true) as -> by (apply Qeq_bool_iff; by rewrite E0).
        done.
      * apply Qeq_bool_false in E.
        assert (Qeq_bool k0 k' = false) as ->; [|done].
        apply Qeq_bool_false. intros H. apply E. by rewrite <- E0.
    + destruct (Qeq_bool k0 k') eqn:E1; [|exact IH].
      apply Qeq_bool_iff in E1. apply Qeq_bool_false in E0.
      assert (Qeq_bool k k' = false) as ->; [|done].
      apply Qeq_bool_false. intros H. apply E0. by rewrite E1, H.
Qed.

Lemma dict_set_fresh d k v : dict_get k d = None -> dict_set k v d = d ++ [(k, v)].
Proof.
  induction d as [|[k0 v0] d IH]; simpl; [done|].
  destruct (Qeq_bool k0 k); [done|]. intros H. by rewrite IH.
Qed.

Lemma dict_set_present d k v w :
  dict_get k d = Some w -> dict_keys (dict_set k v d) = dict_keys d.
Proof.
  unfold dict_keys. induction d as [|[k0 v0] d IH]; simpl; [done|].
  destruct (Qeq_bool k0 k); [done|]. intros H. simpl. f_equal. by apply IH.
Qed.

(** A second write at the same key replaces the first. *)
Lemma dict_set_set d k v w : dict_set k v (dict_set k w d) = dict_set k v d.
Proof.
  induction d as [|[k0 v0] d IH]; simpl.
  - by rewrite Qeq_bool_refl.
  - destruct (Qeq_bool k0 k) eqn:E; simpl; rewrite E; [done|]. by rewrite IH.
Qed.

Lemma keys_distinct_set d k v : keys_distinct d -> keys_distinct (dict_set k v d).
Proof.
  induction d as [|[k0 v0] d IH]; simpl; [done|].
  intros [Hk Hd]. destruct (Qeq_bool k0 k) eqn:E; simpl; [done|].
  split; [|by apply IH]. rewrite dict_get_set.
  assert (Qeq_bool k k0 = false) as ->; [|done].
  apply Qeq_bool_false in E. apply Qeq_bool_false. intros H. apply E. by rewrite H.
Qed.
End FloatDictUpdates.

Lemma dropna_app df1 df2 : dropna (df1 ++ df2) = dropna df1 ++ dropna df2.
Proof. unfold dropna. apply omap_app. Qed.

(** X1: What [_append_data] stores: the plane at the loaded bias holds its
    former rows followed by the complete rows of the new table; every other
    plane, every other quantity, the interpolants and the Length Universe
    are as they were. *)
Theorem append_data_lookup self df vds q planes :
  data self !! q = Some planes ->
  let self' := (_append_data self df vds q).1 in
  (_append_data self df vds q).2 = Ok ()
  /\ (exists planes',
        data self' !! q = Some planes'
        /\ dict_get vds planes'
           = Some (default [] (dict_get vds planes) ++ dropna df)
        /\ forall v, ~ v == vds -> dict_get v planes' = dict_get v planes)
  /\ (forall q', q' <> q -> data self' !! q' = data self !! q')
  /\ rbf self' = rbf self
  /\ lengths self' = lengths self.
Proof.
  intros Hq self'. unfold self', _append_data. rewrite Hq.
  destruct (dict_get vds planes) as [old|] eqn:E; simpl.
  - split; [done|]. split; [|split; [|done]].
    + eexists. split; [apply lookup_insert_eq|]. split.
      * by rewrite dict_get_set, Qeq_bool_refl.
      * intros v Hv. rewrite dict_get_set.
        assert (Qeq_bool vds v = false) as ->; [|done].
        apply Qeq_bool_false. intros H. apply Hv. by rewrite H.
    + intros q' Hq'. by rewrite lookup_insert_ne.
  - split; [done|]. split; [|split; [|done]].
    + eexists. split; [apply lookup_insert_eq|]. split.
      * by rewrite dict_get_set, Qeq_bool_refl.
      * intros v Hv. rewrite dict_get_set.
        assert (Qeq_bool vds v = false) as ->; [|done].
        apply Qeq_bool_false. intros H. apply Hv. by rewrite H.
    + intros q' Hq'. by rewrite lookup_insert_ne.
Qed.

Lemma append_data_lookup_witness :
  dict_get (2 # 5) <$> data (load_gmro (load_gmro fresh (2 # 5) [raw 10 500 30])
                                (2 # 5) [raw 10 700 40]) !! "gmro"%string
  = Some (Some [mkRow 10 500 30; mkRow 10 700 40]).
Proof.
  destruct (append_data_lookup (load_gmro fresh (2 # 5) [raw 10 500 30])
              [raw 10 700 40] (2 # 5) "gmro" [(2 # 5, [mkRow 10 500 30])])
    as (_ & (planes' & Hd & Hget & _) & _).
  { vm_compute. reflexivity. }
  unfold load_gmro at 1. rewrite Hd. simpl. rewrite Hget. reflexivity.
Defined.

(** X2: Loading in pieces is loading the concatenation: two loads for the same
    quantity and bias leave the engine a single load of both tables
    leaves. *)
Theorem append_data_twice self df1 df2 vds q :
  is_Some (data self !! q) ->
  _append_data (_append_data self df1 vds q).1 df2 vds q
  = _append_data self (df1 ++ df2) vds q.
Proof.
  intros [planes Hq]. unfold _append_data at 2 3. rewrite Hq.
  destruct (dict_get vds planes) as [old|] eqn:E.
  - unfold _append_data. cbn [fst data set_data kernel epsilon rbf lengths].
    rewrite lookup_insert_eq, dict_get_set, Qeq_bool_refl.
    unfold set_data. cbn [data kernel epsilon rbf lengths].
    by rewrite insert_insert_eq, dict_set_set, dropna_app, app_assoc.
  - unfold _append_data. cbn [fst data set_data kernel epsilon rbf lengths].
    rewrite lookup_insert_eq, dict_get_set, Qeq_bool_refl.
    unfold set_data. cbn [data kernel epsilon rbf lengths].
    by rewrite insert_insert_eq, dict_set_set, dropna_app.
Qed.

Lemma append_data_twice_witness :
  _append_data (_append_data fresh [raw 10 500 30] (2 # 5) "gmro").1
    [raw 10 700 40] (2 # 5) "gmro"
  = _append_data fresh ([raw 10 500 30] ++ [raw 10 700 40]) (2 # 5) "gmro".
Proof.
  apply append_data_twice. vm_compute. by eexists.
Defined.

(** X3: Loading keeps the biases of a quantity distinct and in first-load
    order: a bias already present keeps its place, a new one goes last. *)
Theorem append_data_keys self df vds q planes :
  data self !! q = Some planes ->
  keys_distinct planes ->
  exists planes',
    data (_append_data self df vds q).1 !! q = Some planes'
    /\ keys_distinct planes'
    /\ dict_keys planes'
       = match dict_get vds planes with
         | Some _ => dict_keys planes
         | None => dict_keys planes ++ [vds]
         end.
Proof.
  intros Hq Hd. unfold _append_data. rewrite Hq.
  destruct (dict_get vds planes) as [old|] eqn:E; simpl.
  - eexists. split; [apply lookup_insert_eq|]. split; [by apply keys_distinct_set|].
    by eapply dict_set_present.
  - eexists. split; [apply lookup_insert_eq|]. split; [by apply keys_distinct_set|].
    rewrite dict_set_fresh by done. unfold dict_keys. by rewrite fmap_app.
Qed.

Lemma append_data_keys_witness :
  exists planes',
    data (_append_data one_plane [raw 10 500 60] (4 # 5) "gmro").1 !! "gmro"%string
    = Some planes'
    /\ keys_distinct planes'
    /\ dict_keys planes' = [2 # 5; 4 # 5].
Proof.
  apply (append_data_keys one_plane [raw 10 500 60] (4 # 5) "gmro"
           [(2 # 5, [mkRow 10 500 30; mkRow 10 700 40])]).
  - vm_compute. reflexivity.
  - vm_compute. split; [reflexivity|exact I].
Defined.

(** ** Building *)

Lemma dict_get_app {A} (d1 d2 : list (Q * A)) k :
  dict_get k (d1 ++ d2)
  = match dict_get k d1 with Some v => Some v | None => dict_get k d2 end.
Proof.
  induction d1 as [|[k0 v0] d1 IH]; simpl; [done|].
  by destruct (Qeq_bool k0 k).
Qed.

Lemma dict_get_None_inv {A} (d : list (Q * A)) k k' :
  dict_get k d = None -> k' ∈ dict_keys d -> ~ k' == k.
Proof.
  intros Hn Hk Heq. destruct (dict_get_key _ _ Hk) as [v Hv].
  rewrite (dict_get_Qeq _ _ _ Heq) in Hv. congruence.
Qed.

Section BuildLoop.
Variable fit : list (Q * Q) -> list Q -> string -> option Q -> option Interp.
Variables (kern : string) (eps : option Q).

Lemma build_planes_cons q v df items r all :
  build_planes fit kern eps q ((v, df) :: items) (r, all)
  = match fit_table fit kern eps df with
    | None => ((r, set_update all (length_nm <$> df)), Raise FitError)
    | Some f =>
        match r !! q with
        | None => ((r, set_update all (length_nm <$> df)), Raise (KeyError_quantity q))
        | Some planes =>
            build_planes fit kern eps q items
              (<[q := dict_set v f planes]> r, set_update all (length_nm <$> df))
        end
    end.
Proof. done. Qed.

(** The loop over the planes of one quantity, when every fit succeeds. *)
Lemma build_planes_ok q items : forall r all acc,
  r !! q = Some acc ->
  (forall k, k ∈ dict_keys items -> dict_get k acc = None) ->
  keys_distinct items ->
  Forall (fun p => is_Some (fit_table fit kern eps p.2)) items ->
  exists fitted,
    fitted_from fit kern eps items fitted
    /\ build_planes fit kern eps q items (r, all)
       = ((<[q := acc ++ fitted]> r, gather_lengths all items), Ok ()).
Proof.
  induction items as [|[v df] items IH]; intros r all acc Hq Hfresh Hd Hfit.
  - exists []. split; [constructor|]. simpl. by rewrite app_nil_r, insert_id.
  - rewrite build_planes_cons.
    apply Forall_cons in Hfit as [[f Hf] Hfit]. simpl in Hf. rewrite Hf, Hq.
    destruct Hd as [Hv Hd].
    rewrite dict_set_fresh by (apply Hfresh; left).
    destruct (IH (<[q := acc ++ [(v, f)]]> r) (set_update all (length_nm <$> df))
                (acc ++ [(v, f)])) as (fitted & Hfitted & ->).
    + apply lookup_insert_eq.
    + intros k Hk. rewrite dict_get_app, Hfresh by (by right). simpl.
      assert (Qeq_bool v k = false) as ->; [|done].
      apply Qeq_bool_false. intros Heq.
      by apply (dict_get_None_inv _ _ _ Hv Hk).
    + done.
    + done.
    + exists ((v, f) :: fitted). split; [by constructor|].
      by rewrite insert_insert_eq, <- app_assoc.
Qed.

(** The loop over the planes of one quantity ends well or in a failed
    fit, and ends well only when every fit succeeds. *)
Lemma build_planes_outcome q items : forall r all,
  is_Some (r !! q) ->
  (build_planes fit kern eps q items (r, all)).2 = Ok ()
  /\ Forall (fun p => is_Some (fit_table fit kern eps p.2)) items
  \/ (build_planes fit kern eps q items (r, all)).2 = Raise FitError
     /\ Exists (fun p => fit_table fit kern eps p.2 = None) items.
Proof.
  induction items as [|[v df] items IH]; intros r all [acc Hq].
  - left. split; [done|constructor].
  - rewrite build_planes_cons.
    destruct (fit_table fit kern eps df) as [f|] eqn:Hf.
    + rewrite Hq.
      destruct (IH (<[q := dict_set v f acc]> r) (set_update all (length_nm <$> df)))
        as [[-> Hall]|[-> Hex]].
      * rewrite lookup_insert_eq. by eexists.
      * left. split; [done|]. constructor; [by eexists|done].
      * right. split; [done|]. by apply Exists_cons_tl.
    + right. split; [done|]. by apply Exists_cons_hd.
Qed.

Lemma build_quantities_cons d q qs st :
  build_quantities fit kern eps d (q :: qs) st
  = match d !! q with
    | None => (st, Raise (KeyError_quantity q))
    | Some items =>
        match build_planes fit kern eps q items st with
        | (st', Ok _) => build_quantities fit kern eps d qs st'
        | (st', Raise e) => (st', Raise e)
        end
    end.
Proof. done. Qed.

(** The loop over the quantities, when every fit succeeds. *)
Lemma build_quantities_ok d qs : forall r all,
  NoDup qs ->
  (forall q, q ∈ qs ->
     r !! q = Some []
     /\ exists planes,
          d !! q = Some planes /\ keys_distinct planes
          /\ Forall (fun p => is_Some (fit_table fit kern eps p.2)) planes) ->
  exists r',
    build_quantities fit kern eps d qs (r, all) = ((r', gather_all d qs all), Ok ())
    /\ (forall q, q ∈ qs ->
          exists planes fitted,
            d !! q = Some planes /\ r' !! q = Some fitted
            /\ fitted_from fit kern eps planes fitted)
    /\ (forall q, q ∉ qs -> r' !! q = r !! q).
Proof.
  induction qs as [|q qs IH]; intros r all Hnd Hqs.
  - exists r. split; [done|]. split; [|done]. intros q Hq. by apply elem_of_nil in Hq.
  - apply NoDup_cons in Hnd as [Hnotin Hnd].
    destruct (Hqs q ltac:(left)) as (Hr & planes & Hd & Hdist & Hfit).
    rewrite build_quantities_cons, Hd.
    destruct (build_planes_ok q planes r all [] Hr) as (fitted & Hfitted & ->);
      [done|done|done|].
    destruct (IH (<[q := [] ++ fitted]> r) (gather_lengths all planes) Hnd)
      as (r' & -> & Hin & Hout).
    { intros q' Hq'. destruct (Hqs q' ltac:(by right)) as (Hr' & Hrest).
      split; [|done]. rewrite lookup_insert_ne; [done|]. by intros ->. }
    exists r'. split; [|split].
    + unfold gather_all. simpl. by rewrite Hd.
    + intros q' Hq'. apply elem_of_cons in Hq' as [->|Hq']; [|by apply Hin].
      exists planes, fitted. split; [done|]. split; [|done].
      rewrite Hout by done. apply lookup_insert_eq.
    + intros q' Hq'. apply not_elem_of_cons in Hq' as [Hne Hq'].
      rewrite Hout by done. by apply lookup_insert_ne.
Qed.

(** The keys of [self.rbf] stay in place through the loops. *)
Lemma build_planes_keeps_keys q items : forall r all q',
  is_Some (r !! q') ->
  is_Some ((build_planes fit kern eps q items (r, all)).1.1 !! q').
Proof.
  induction items as [|[v df] items IH]; intros r all q' Hq'; [done|].
  rewrite build_planes_cons.
  destruct (fit_table fit kern eps df) as [f|]; [|done].
  destruct (r !! q) as [acc|] eqn:E; [|done].
  apply IH. destruct (decide (q = q')) as [->|Hne].
  - rewrite lookup_insert_eq. by eexists.
  - by rewrite lookup_insert_ne.
Qed.

(** The loop over the quantities ends well or in a failed fit, and in a
    failed fit when some table cannot be fitted. *)
Lemma build_quantities_outcome d qs : forall r all,
  (forall q, q ∈ qs -> is_Some (r !! q) /\ is_Some (d !! q)) ->
  (build_quantities fit kern eps d qs (r, all)).2 = Ok ()
  /\ (forall q planes, q ∈ qs -> d !! q = Some planes ->
        Forall (fun p => is_Some (fit_table fit kern eps p.2)) planes)
  \/ (build_quantities fit kern eps d qs (r, all)).2 = Raise FitError.
Proof.
  induction qs as [|q qs IH]; intros r all Hqs.
  - left. split; [done|]. intros q planes Hq. by apply elem_of_nil in Hq.
  - destruct (Hqs q ltac:(left)) as [Hr [planes Hd]].
    rewrite build_quantities_cons, Hd.
    destruct (build_planes_outcome q planes r all Hr) as [[Hok Hall]|[Hfail _]].
    + destruct (build_planes fit kern eps q planes (r, all)) as [[r1 all1] [[]|e]] eqn:E;
        [|done].
      destruct (IH r1 all1) as [[Hok' Hall']|Hfail'].
      * intros q' Hq'. destruct (Hqs q' ltac:(by right)) as [Hr' Hd'].
        split; [|done].
        pose proof (build_planes_keeps_keys q planes r all q' Hr') as Hk.
        by rewrite E in Hk.
      * left. split; [done|]. intros q' planes' Hq' Hd'.
        apply elem_of_cons in Hq' as [->|Hq']; [|by eapply Hall'].
        rewrite Hd in Hd'. by injection Hd' as <-.
      * by right.
    + right. destruct (build_planes fit kern eps q planes (r, all)) as [[r1 all1] [[]|e]];
        simpl in Hfail; [done|]. simpl. done.
Qed.
End BuildLoop.

Lemma quantities_NoDup : NoDup quantities.
Proof.
  unfold quantities.
  repeat (apply NoDup_cons; split;
          [intros H; repeat (apply elem_of_cons in H as [H|H]; [done|]);
           by apply elem_of_nil in H|]).
  apply NoDup_nil_2.
Qed.

Lemma empty_planes_lookup {A} q :
  q ∈ quantities -> (empty_planes (A := A)) !! q = Some [].
Proof.
  unfold quantities. intros H.
  repeat (apply elem_of_cons in H as [->|H]; [by vm_compute|]).
  by apply elem_of_nil in H.
Qed.

Section BuildResults.
Variable fit : list (Q * Q) -> list Q -> string -> option Q -> option Interp.

Lemma build_succeeds self :
  well_formed self -> all_fits_succeed fit self ->
  exists r,
    build_quantities fit (kernel self) (epsilon self) (data self) quantities
      (empty_planes, [])
    = ((r, gather_all (data self) quantities []), Ok ())
    /\ forall q, q ∈ quantities ->
         exists planes fitted,
           data self !! q = Some planes /\ r !! q = Some fitted
           /\ fitted_from fit (kernel self) (epsilon self) planes fitted.
Proof.
  intros Hwf Hfit.
  destruct (build_quantities_ok fit (kernel self) (epsilon self) (data self)
              quantities empty_planes [] quantities_NoDup) as (r & Hr & Hin & _).
  - intros q Hq. split; [by apply empty_planes_lookup|].
    destruct (Hwf q Hq) as [(planes & Hd & Hdist) _].
    exists planes. split; [done|]. split; [done|].
    apply Forall_forall. intros [v df] Hp. by eapply Hfit.
  - by exists r.
Qed.

Lemma build_result self :
  well_formed self ->
  all_fits_succeed fit self ->
  (build_interpolators fit self).2 = Ok ()
  /\ data (build_interpolators fit self).1 = data self
  /\ forall q, q ∈ quantities ->
       exists planes fitted,
         data self !! q = Some planes
         /\ rbf (build_interpolators fit self).1 !! q = Some fitted
         /\ fitted_from fit (kernel self) (epsilon self) planes fitted.
Proof.
  intros Hwf Hfit. unfold build_interpolators.
  destruct (build_succeeds self Hwf Hfit) as (r & -> & Hr).
  by destruct (gather_all (data self) quantities []).
Qed.

(** X4: When every table can be fitted, the build succeeds, leaves the tables
    alone, and gives every quantity one interpolant per raw plane: at the
    same bias, in the same order, fitted from that plane's table. *)
Theorem build_fits_every_plane self :
  well_formed self ->
  all_fits_succeed fit self ->
  let s' := (build_interpolators fit self).1 in
  (build_interpolators fit self).2 = Ok ()
  /\ data s' = data self
  /\ forall q, q ∈ quantities ->
       exists planes fitted,
         data self !! q = Some planes /\ rbf s' !! q = Some fitted
         /\ fitted_from fit (kernel self) (epsilon self) planes fitted.
Proof. intros Hwf Hfit s'. by apply build_result. Qed.

(** X5: When some table of a canonical quantity cannot be fitted, the build
    raises the fit's error and leaves the tables and the Length Universe as
    they were. *)
Theorem build_raises_when_a_fit_fails self q planes v df :
  well_formed self ->
  q ∈ quantities ->
  data self !! q = Some planes ->
  (v, df) ∈ planes ->
  fit_table fit (kernel self) (epsilon self) df = None ->
  let s' := (build_interpolators fit self).1 in
  (build_interpolators fit self).2 = Raise FitError
  /\ data s' = data self
  /\ lengths s' = lengths self.
Proof.
  intros Hwf Hq Hd Hp Hnone s'. unfold s', build_interpolators.
  destruct (build_quantities_outcome fit (kernel self) (epsilon self) (data self)
              quantities empty_planes []) as [[_ Hall]|Hfail].
  - intros q' Hq'. split; [rewrite empty_planes_lookup by done; by eexists|].
    destruct (Hwf q' Hq') as [(pl & -> & _) _]. by eexists.
  - specialize (Hall q planes Hq Hd). rewrite Forall_forall in Hall.
    destruct (Hall (v, df) Hp) as [f Hf]. simpl in Hf. congruence.
  - destruct (build_quantities fit _ _ _ _ _) as [[r all] [[]|e]];
      simpl in Hfail; [done|]. simpl. done.
Qed.
End BuildResults.

(** ** Reachable engines *)

Lemma quantities_forall (P : string -> Prop) :
  P "id_w"%string -> P "gmro"%string -> P "ft"%string ->
  forall q, q ∈ quantities -> P q.
Proof.
  intros H1 H2 H3 q Hq. unfold quantities in Hq.
  repeat (apply elem_of_cons in Hq as [Hq|Hq]; [by subst q|]).
  by apply elem_of_nil in Hq.
Qed.

Lemma build_quantities_keeps_keys fit kern eps d qs : forall r all q',
  is_Some (r !! q') ->
  is_Some ((build_quantities fit kern eps d qs (r, all)).1.1 !! q').
Proof.
  induction qs as [|q qs IH]; intros r all q' Hq'; [done|].
  rewrite build_quantities_cons.
  destruct (d !! q) as [items|]; [|done].
  pose proof (build_planes_keeps_keys fit kern eps q items r all q' Hq') as Hk.
  destruct (build_planes fit kern eps q items (r, all)) as [[r1 all1] [[]|e]];
    [|done].
  by apply IH.
Qed.

Lemma build_rbf fit self :
  rbf (build_interpolators fit self).1
  = (build_quantities fit (kernel self) (epsilon self) (data self) quantities
       (empty_planes, [])).1.1.
Proof.
  unfold build_interpolators.
  destruct (build_quantities fit _ _ _ _ _) as [[r all] [[]|e]]; [|done].
  by destruct all.
Qed.

(** Every engine a caller can get is well formed. *)
Lemma reachable_well_formed fit self : reachable fit self -> well_formed self.
Proof.
  induction 1 as [kern eps|self df vds q0 _ IH|self _ IH]; intros q Hq.
  - split; eexists; [split|]; simpl; rewrite ?empty_planes_lookup by done; done.
  - destruct (IH q Hq) as [(planes & Hd & Hdist) Hrbf].
    unfold _append_data.
    destruct (data self !! q0) as [planes0|] eqn:E0; [|by split; [exists planes|]].
    assert (forall rows,
      (exists pl, data (set_data self (<[q0 := dict_set vds rows planes0]> (data self))) !! q
                  = Some pl /\ keys_distinct pl)
      /\ (exists fitted,
            rbf (set_data self (<[q0 := dict_set vds rows planes0]> (data self))) !! q
            = Some fitted)) as Hset.
    { intros rows. split; [|done]. simpl.
      destruct (decide (q0 = q)) as [->|Hne].
      - rewrite lookup_insert_eq. eexists. split; [done|].
        apply keys_distinct_set. rewrite E0 in Hd. by injection Hd as ->.
      - rewrite lookup_insert_ne by done. by exists planes. }
    destruct (dict_get vds planes0); apply Hset.
  - destruct (IH q Hq) as [Hdata [fitted Hrbf]].
    destruct (build_keeps_inputs fit self) as (_ & _ & ->).
    split; [done|]. rewrite build_rbf.
    apply build_quantities_keeps_keys. rewrite empty_planes_lookup by done. by eexists.
Qed.

Lemma fresh_reachable fit : reachable fit fresh.
Proof. apply reach_init. Qed.

Lemma load_gmro_reachable fit self vds rows :
  reachable fit self -> reachable fit (load_gmro self vds rows).
Proof. apply reach_append. Qed.

Lemma built_reachable self :
  reachable constant_fit self -> reachable constant_fit (built self).
Proof. apply reach_build. Qed.

Lemma build_fits_every_plane_witness :
  (build_interpolators constant_fit
     (load_gmro fresh (2 # 5) [raw 10 500 30; raw 10 700 40])).2 = Ok ().
Proof.
  refine (proj1 (build_fits_every_plane constant_fit
            (load_gmro fresh (2 # 5) [raw 10 500 30; raw 10 700 40]) _ _)).
  - apply (reachable_well_formed constant_fit), load_gmro_reachable, fresh_reachable.
  - intros q planes v df Hq. revert planes v df. pattern q. revert q Hq.
    apply quantities_forall; intros planes v df Hd Hp;
      vm_compute in Hd; injection Hd as <-;
      repeat (apply elem_of_cons in Hp as [Hp|Hp];
              [injection Hp as -> ->; by eexists|]);
      by apply elem_of_nil in Hp.
Defined.

Lemma build_raises_when_a_fit_fails_witness :
  (build_interpolators constant_fit (load_gmro fresh (2 # 5) [])).2 = Raise FitError.
Proof.
  refine (proj1 (build_raises_when_a_fit_fails constant_fit
            (load_gmro fresh (2 # 5) []) "gmro" [(2 # 5, [])] (2 # 5) [] _ _ _ _ _)).
  - apply (reachable_well_formed constant_fit), load_gmro_reachable, fresh_reachable.
  - right. left.
  - vm_compute. reflexivity.
  - left.
  - reflexivity.
Defined.

(** ** The Length Universe *)

Lemma py_int_Qeq x y : x == y -> py_int x = py_int y.
Proof.
  unfold Qeq, py_int. intros H.
  rewrite <- (Z.quot_mul_cancel_r (Qnum x) (Zpos (Qden x)) (Zpos (Qden y))) by done.
  rewrite H, (Z.mul_comm (Zpos (Qden x))).
  by rewrite Z.quot_mul_cancel_r.
Qed.

Lemma existsb_Qeq x s :
  existsb (Qeq_bool x) s = true <-> exists y, y ∈ s /\ x == y.
Proof.
  rewrite existsb_exists. split; intros (y & Hy & Heq); exists y.
  - split; [by apply list_elem_of_In|by apply Qeq_bool_iff].
  - split; [by apply list_elem_of_In|by apply Qeq_bool_iff].
Qed.

Lemma set_add_mono x s y : y ∈ s -> y ∈ set_add x s.
Proof.
  unfold set_add. destruct (existsb _ _); [done|].
  intros H. apply elem_of_app. by left.
Qed.

Lemma set_add_sound x s y : y ∈ set_add x s -> y ∈ s \/ y = x.
Proof.
  unfold set_add. destruct (existsb _ _); [by left|].
  intros H. apply elem_of_app in H as [H|H]; [by left|].
  right. by apply list_elem_of_singleton in H.
Qed.

Lemma set_add_complete x s : exists y, y ∈ set_add x s /\ y == x.
Proof.
  unfold set_add. destruct (existsb (Qeq_bool x) s) eqn:E.
  - apply existsb_Qeq in E as (y & Hy & Heq). exists y. split; [done|]. by symmetry.
  - exists x. split; [|reflexivity]. apply elem_of_app. right. left.
Qed.

Lemma set_update_mono xs : forall s y, y ∈ s -> y ∈ set_update s xs.
Proof.
  induction xs as [|x xs IH]; intros s y Hy; [done|].
  apply IH. by apply set_add_mono.
Qed.

Lemma set_update_sound xs : forall s y, y ∈ set_update s xs -> y ∈ s \/ y ∈ xs.
Proof.
  induction xs as [|x xs IH]; intros s y Hy; [by left|].
  destruct (IH _ _ Hy) as [H|H]; [|right; by right].
  destruct (set_add_sound _ _ _ H) as [H'| ->]; [by left|right; left].
Qed.

Lemma set_update_complete xs : forall s x,
  x ∈ xs -> exists y, y ∈ set_update s xs /\ y == x.
Proof.
  induction xs as [|x0 xs IH]; intros s x Hx; [by apply elem_of_nil in Hx|].
  apply elem_of_cons in Hx as [->|Hx]; [|by apply IH].
  destruct (set_add_complete x0 s) as (y & Hy & Heq).
  exists y. split; [|done]. by apply (set_update_mono xs).
Qed.

Lemma gather_lengths_mono items : forall all y,
  y ∈ all -> y ∈ gather_lengths all items.
Proof.
  induction items as [|p items IH]; intros all y Hy; [done|].
  apply IH. by apply set_update_mono.
Qed.

Lemma gather_lengths_sound items : forall all y,
  y ∈ gather_lengths all items ->
  y ∈ all \/ exists p r, p ∈ items /\ r ∈ p.2 /\ y = length_nm r.
Proof.
  induction items as [|p items IH]; intros all y Hy; [by left|].
  destruct (IH _ _ Hy) as [H|(p' & r & Hp & Hr & ->)].
  - destruct (set_update_sound _ _ _ H) as [H'|H']; [by left|].
    apply list_elem_of_fmap in H' as (r & -> & Hr).
    right. exists p, r. split; [left|done].
  - right. exists p', r. split; [by right|done].
Qed.

Lemma gather_lengths_complete items : forall all p r,
  p ∈ items -> r ∈ p.2 ->
  exists y, y ∈ gather_lengths all items /\ y == length_nm r.
Proof.
  induction items as [|p0 items IH]; intros all p r Hp Hr;
    [by apply elem_of_nil in Hp|].
  apply elem_of_cons in Hp as [->|Hp]; [|by eapply IH].
  destruct (set_update_complete (length_nm <$> p0.2) all (length_nm r))
    as (y & Hy & Heq); [by apply list_elem_of_fmap_2|].
  exists y. split; [|done]. by apply (gather_lengths_mono items).
Qed.

Lemma gather_all_mono d qs : forall all y, y ∈ all -> y ∈ gather_all d qs all.
Proof.
  induction qs as [|q qs IH]; intros all y Hy; [done|].
  apply IH. by apply gather_lengths_mono.
Qed.

Lemma gather_all_sound d qs : forall all y,
  y ∈ gather_all d qs all ->
  y ∈ all
  \/ exists q planes p r,
       q ∈ qs /\ d !! q = Some planes /\ p ∈ planes /\ r ∈ p.2 /\ y = length_nm r.
Proof.
  induction qs as [|q qs IH]; intros all y Hy; [by left|].
  destruct (IH _ _ Hy) as [H|(q' & planes & p & r & Hq & Hd & Hp & Hr & ->)].
  - destruct (gather_lengths_sound _ _ _ H) as [H'|(p & r & Hp & Hr & ->)];
      [by left|].
    right. destruct (d !! q) as [planes|] eqn:E; [|by apply elem_of_nil in Hp].
    exists q, planes, p, r. split; [left|done].
  - right. exists q', planes, p, r. split; [by right|done].
Qed.

Lemma gather_all_complete d qs : forall all q planes p r,
  q ∈ qs -> d !! q = Some planes -> p ∈ planes -> r ∈ p.2 ->
  exists y, y ∈ gather_all d qs all /\ y == length_nm r.
Proof.
  induction qs as [|q0 qs IH]; intros all q planes p r Hq Hd Hp Hr;
    [by apply elem_of_nil in Hq|].
  apply elem_of_cons in Hq as [->|Hq]; [|by eapply IH].
  destruct (gather_lengths_complete planes all p r Hp Hr) as (y & Hy & Heq).
  exists y. split; [|done]. apply (gather_all_mono d qs). by rewrite Hd.
Qed.

(** X6: After a successful build the Length Universe is ascending and holds
    exactly the int-cast lengths of the rows of the store (a length may
    occur more than once); a store without rows leaves the former Length
    Universe in place. *)
Theorem build_length_universe fit self :
  well_formed self ->
  all_fits_succeed fit self ->
  let s' := (build_interpolators fit self).1 in
  ((forall r, ~ row_in_store (data self) r) -> lengths s' = lengths self)
  /\ (forall r0, row_in_store (data self) r0 ->
        exists ls,
          lengths s' = Some ls
          /\ StronglySorted Z.le ls
          /\ forall L, L ∈ ls <->
               exists r, row_in_store (data self) r /\ py_int (length_nm r) = L).
Proof.
  intros Hwf Hfit s'. unfold s', build_interpolators.
  destruct (build_succeeds fit self Hwf Hfit) as (r & -> & _).
  set (all := gather_all (data self) quantities []).
  assert (Hsound : forall y, y ∈ all ->
            exists r, row_in_store (data self) r /\ y = length_nm r).
  { intros y Hy. destruct (gather_all_sound _ _ _ _ Hy)
      as [H|(q & planes & [v df] & r0 & Hq & Hd & Hp & Hr & ->)];
      [by apply elem_of_nil in H|].
    exists r0. split; [|done]. by exists q, planes, v, df. }
  assert (Hcomplete : forall r, row_in_store (data self) r ->
            exists y, y ∈ all /\ y == length_nm r).
  { intros r0 (q & planes & v & df & Hq & Hd & Hp & Hr).
    by apply (gather_all_complete _ _ [] q planes (v, df) r0). }
  split.
  - intros Hnone. destruct all as [|x all']; [done|].
    destruct (Hsound x ltac:(left)) as (r0 & Hr0 & _). by destruct (Hnone r0).
  - intros r0 Hr0. destruct (Hcomplete r0 Hr0) as (y0 & Hy0 & _).
    destruct all as [|x all'] eqn:E; [by apply elem_of_nil in Hy0|].
    rewrite <- E in *. eexists. split; [done|]. split; [apply sorted_Z_sorted|].
    intros L. rewrite sorted_Z_elem, list_elem_of_fmap. split.
    + intros (y & -> & Hy). destruct (Hsound y Hy) as (r1 & Hr1 & ->). by exists r1.
    + intros (r1 & Hr1 & <-). destruct (Hcomplete r1 Hr1) as (y & Hy & Heq).
      exists y. split; [|done]. symmetry. by apply py_int_Qeq.
Qed.

Ltac solve_concrete_fits :=
  let q := fresh "q" in let planes := fresh "planes" in
  let v := fresh "v" in let df := fresh "df" in
  let Hq := fresh "Hq" in let Hd := fresh "Hd" in let Hp := fresh "Hp" in
  intros q planes v df Hq; revert planes v df; pattern q; revert q Hq;
  apply quantities_forall; intros planes v df Hd Hp;
  vm_compute in Hd; injection Hd as <-;
  repeat (apply elem_of_cons in Hp as [Hp|Hp];
          [injection Hp as -> ->; by eexists|]);
  by apply elem_of_nil in Hp.

Lemma build_length_universe_witness :
  exists ls,
    lengths (built (load_gmro fresh (2 # 5) [raw 10 700 40; raw 10 (1001 # 2) 31]))
    = Some ls
    /\ StronglySorted Z.le ls
    /\ forall L, L ∈ ls <->
         exists r,
           row_in_store
             (data (load_gmro fresh (2 # 5) [raw 10 700 40; raw 10 (1001 # 2) 31])) r
           /\ py_int (length_nm r) = L.
Proof.
  refine (proj2 (build_length_universe constant_fit
            (load_gmro fresh (2 # 5) [raw 10 700 40; raw 10 (1001 # 2) 31]) _ _)
            (mkRow 10 700 40) _).
  - apply (reachable_well_formed constant_fit), load_gmro_reachable, fresh_reachable.
  - solve_concrete_fits.
  - exists "gmro"%string, [(2 # 5, [mkRow 10 700 40; mkRow 10 (1001 # 2) 31])],
      (2 # 5), [mkRow 10 700 40; mkRow 10 (1001 # 2) 31].
    split; [right; left|]. split; [vm_compute; reflexivity|]. split; left.
Defined.

(** ** Every way [predict] answers *)

Lemma last_nonempty_default (l : list Q) : forall a x y,
  List.last (a :: l) x = List.last (a :: l) y.
Proof.
  induction l as [|b l IH]; intros a x y; [done|].
  change (List.last (a :: b :: l) x) with (List.last (b :: l) x).
  change (List.last (a :: b :: l) y) with (List.last (b :: l) y).
  apply IH.
Qed.

(** A bias within the range of the sorted planes that is the bias of no
    plane lies strictly between two adjacent planes. *)
Lemma between_adjacent (avail : list Q) : forall lowest vds,
  StronglySorted Qle (lowest :: avail) ->
  (forall k, k ∈ lowest :: avail -> ~ k == vds) ->
  lowest <= vds -> vds <= List.last (lowest :: avail) lowest ->
  exists pre v1 v2 post,
    lowest :: avail = pre ++ v1 :: v2 :: post /\ v1 < vds /\ vds < v2.
Proof.
  induction avail as [|b avail IH]; intros lowest vds Hs Hk Hlo Hhi.
  - simpl in Hhi. destruct (Hk lowest ltac:(left)). lra.
  - assert (lowest < vds) as Hlt.
    { apply Qnot_le_lt. intros H. apply (Hk lowest ltac:(left)). lra. }
    destruct (Qlt_le_dec vds b) as [Hb|Hb].
    + by exists [], lowest, b, avail.
    + apply StronglySorted_inv in Hs as [Hs _].
      destruct (IH b vds Hs) as (pre & v1 & v2 & post & Heq & H1 & H2).
      * intros k Hin. apply Hk. by right.
      * done.
      * change (List.last (lowest :: b :: avail) lowest)
          with (List.last (b :: avail) lowest) in Hhi.
        by rewrite (last_nonempty_default avail b b lowest).
      * exists (lowest :: pre), v1, v2, post. split; [|done]. simpl. by rewrite Heq.
Qed.

Lemma available_nonempty planes : planes <> [] -> _available_vds planes <> [].
Proof.
  intros Hne H. destruct planes as [|[k f] planes]; [done|].
  assert (k ∈ _available_vds ((k, f) :: planes)) as Hk
    by (apply sorted_Q_elem; left).
  rewrite H in Hk. by apply elem_of_nil in Hk.
Qed.

Lemma interp_below self q planes lowest rest gm vds L f :
  rbf self !! q = Some planes ->
  _available_vds planes = lowest :: rest ->
  vds < lowest -> dict_get lowest planes = Some f ->
  _interp_in_vds self q gm vds L = (Ok (f gm L), []).
Proof.
  intros Hq Ha Hlt Hf. unfold _interp_in_vds. rewrite Hq. monad_step. rewrite Ha.
  rewrite (below_not_key _ _ _ _ Ha Hlt).
  apply Qlt_bool_iff in Hlt. rewrite Hlt. by apply eval_plane_Some.
Qed.

Lemma interp_above self q planes lowest rest gm vds L f :
  rbf self !! q = Some planes ->
  _available_vds planes = lowest :: rest ->
  List.last (lowest :: rest) lowest < vds ->
  dict_get (List.last (lowest :: rest) lowest) planes = Some f ->
  _interp_in_vds self q gm vds L = (Ok (f gm L), []).
Proof.
  intros Hq Ha Hlt Hf. unfold _interp_in_vds. rewrite Hq. monad_step. rewrite Ha.
  rewrite (above_not_key _ _ _ _ Ha Hlt).
  pose proof (sorted_Q_sorted (dict_keys planes)) as Hs.
  fold (_available_vds planes) in Hs. rewrite Ha in Hs.
  assert (Qlt_bool vds lowest = false) as ->.
  { apply Qlt_bool_false.
    pose proof (sorted_head_le _ _ _ Hs (last_elem rest lowest lowest)). lra. }
  apply Qlt_bool_iff in Hlt. rewrite Hlt. by apply eval_plane_Some.
Qed.

(** The four ways the blender answers a bias: at a plane, below the lowest
    plane, above the highest, or between two adjacent planes. *)
Lemma interp_cases self q planes gm vds L :
  rbf self !! q = Some planes -> planes <> [] ->
  exists lowest rest,
    _available_vds planes = lowest :: rest
    /\ ((exists f, dict_get vds planes = Some f
           /\ _interp_in_vds self q gm vds L = (Ok (f gm L), []))
        \/ (vds < lowest
            /\ exists f, dict_get lowest planes = Some f
                 /\ _interp_in_vds self q gm vds L = (Ok (f gm L), []))
        \/ (List.last (lowest :: rest) lowest < vds
            /\ exists f, dict_get (List.last (lowest :: rest) lowest) planes = Some f
                 /\ _interp_in_vds self q gm vds L = (Ok (f gm L), []))
        \/ (exists pre v1 v2 post f1 f2,
              lowest :: rest = pre ++ v1 :: v2 :: post
              /\ v1 < vds /\ vds < v2
              /\ dict_get v1 planes = Some f1 /\ dict_get v2 planes = Some f2
              /\ _interp_in_vds self q gm vds L
                 = (Ok (f1 gm L + (vds - v1) / (v2 - v1) * (f2 gm L - f1 gm L)),
                    [v2 - v1]))).
Proof.
  intros Hq Hne.
  destruct (_available_vds planes) as [|lowest rest] eqn:Ha;
    [by destruct (available_nonempty planes Hne)|].
  exists lowest, rest. split; [done|].
  pose proof (sorted_Q_sorted (dict_keys planes)) as Hs.
  fold (_available_vds planes) in Hs. rewrite Ha in Hs.
  destruct (dict_get vds planes) as [f|] eqn:Hget.
  { left. exists f. split; [done|]. by eapply interp_exact. }
  right. destruct (Qlt_le_dec vds lowest) as [Hlow|Hlow].
  { left. split; [done|].
    destruct (available_key planes lowest) as [f Hf]; [rewrite Ha; left|].
    exists f. split; [done|]. by eapply interp_below. }
  right. destruct (Qlt_le_dec (List.last (lowest :: rest) lowest) vds) as [Hhigh|Hhigh].
  { left. split; [done|].
    destruct (available_key planes (List.last (lowest :: rest) lowest)) as [f Hf];
      [rewrite Ha; apply last_elem|].
    exists f. split; [done|]. by eapply interp_above. }
  right.
  destruct (between_adjacent rest lowest vds Hs) as (pre & v1 & v2 & post & Heq & H1 & H2);
    [|done|done|].
  { intros k Hk. apply (dict_get_None_inv planes vds k Hget).
    apply sorted_Q_elem. fold (_available_vds planes). by rewrite Ha. }
  destruct (available_key planes v1) as [f1 Hf1];
    [rewrite Ha, Heq; apply elem_of_app; right; left|].
  destruct (available_key planes v2) as [f2 Hf2];
    [rewrite Ha, Heq; apply elem_of_app; right; right; left|].
  exists pre, v1, v2, post, f1, f2. split; [done|]. split; [done|]. split; [done|].
  split; [done|]. split; [done|].
  eapply interp_between; eauto. by rewrite Ha.
Qed.

(** X8: With at least one built plane for the quantity, [predict] returns a
    value; it divides at most once, and then by the positive gap between
    two adjacent plane biases. *)
Theorem predict_returns_a_value self q planes gm vds L :
  q ∈ quantities ->
  rbf self !! q = Some planes -> planes <> [] ->
  exists y,
    outcome (predict self q gm vds L) = Ok y
    /\ (divisors (predict self q gm vds L) = []
        \/ exists d, divisors (predict self q gm vds L) = [d] /\ 0 < d).
Proof.
  intros Hq Hplanes Hne. rewrite predict_known by done.
  destruct (interp_cases self q planes gm vds L Hplanes Hne)
    as (lowest & rest & _ & [(f & _ & ->)|[(_ & f & _ & ->)|[(_ & f & _ & ->)|
        (pre & v1 & v2 & post & f1 & f2 & _ & H1 & H2 & _ & _ & ->)]]]).
  - eexists. split; [done|]. by left.
  - eexists. split; [done|]. by left.
  - eexists. split; [done|]. by left.
  - eexists. split; [done|]. right. exists (v2 - v1). split; [done|]. lra.
Qed.

Lemma predict_returns_a_value_witness :
  exists y,
    outcome (predict two_planes "gmro" 10 (3 # 5) 600) = Ok y
    /\ (divisors (predict two_planes "gmro" 10 (3 # 5) 600) = []
        \/ exists d, divisors (predict two_planes "gmro" 10 (3 # 5) 600) = [d] /\ 0 < d).
Proof.
  apply (predict_returns_a_value two_planes "gmro" two_planes_rbf).
  - right. left.
  - vm_compute. reflexivity.
  - discriminate.
Defined.

(** ** All three quantities at once *)

(** X10: [predict_all] returns the three values of the three [predict] calls,
    and only when all three return: a quantity that raises makes the whole
    call raise, with the error of the first one that fails in the order
    [id_w], [gmro], [ft]. *)
Theorem predict_all_or_nothing self gm vds L :
  (forall a b c,
     outcome (predict_all self gm vds L) = Ok (a, b, c)
     <-> outcome (predict self "id_w" gm vds L) = Ok a
         /\ outcome (predict self "gmro" gm vds L) = Ok b
         /\ outcome (predict self "ft" gm vds L) = Ok c)
  /\ (forall e,
        outcome (predict_all self gm vds L) = Raise e
        <-> outcome (predict self "id_w" gm vds L) = Raise e
            \/ (exists a, outcome (predict self "id_w" gm vds L) = Ok a)
               /\ (outcome (predict self "gmro" gm vds L) = Raise e
                   \/ (exists b, outcome (predict self "gmro" gm vds L) = Ok b)
                      /\ outcome (predict self "ft" gm vds L) = Raise e)).
Proof.
  unfold predict_all.
  destruct (predict self "id_w" gm vds L) as [[a0|e0] l0];
    destruct (predict self "gmro" gm vds L) as [[b0|e1] l1];
    destruct (predict self "ft" gm vds L) as [[c0|e2] l2]; simpl;
    (split; [intros a b c|intros e]); split; intros H;
    try discriminate;
    repeat match goal with
           | H : _ /\ _ |- _ => destruct H
           | H : _ \/ _ |- _ => destruct H
           | H : exists _, _ |- _ => destruct H
           end;
    try discriminate; simplify_eq; eauto 8.
Qed.

(** ** Queries after a build *)

Lemma fitted_from_get fit kern eps planes fitted v :
  fitted_from fit kern eps planes fitted ->
  match dict_get v planes with
  | Some df =>
      exists f, dict_get v fitted = Some f /\ fit_table fit kern eps df = Some f
  | None => dict_get v fitted = None
  end.
Proof.
  induction 1 as [|[k df] [k' f] planes fitted [Hk Hf] _ IH]; simpl in *; [done|].
  subst k'. destruct (Qeq_bool k v); [by exists f|done].
Qed.

Lemma fitted_from_nil fit kern eps planes fitted :
  fitted_from fit kern eps planes fitted -> planes = [] <-> fitted = [].
Proof. by destruct 1. Qed.

(** X11: Round trip through load, build and query: after a successful build,
    [predict] at the bias of a loaded plane is the value of the interpolant
    fitted from the rows accumulated for that quantity and bias. *)
Theorem predict_at_loaded_bias fit self q planes vds df gm L :
  well_formed self ->
  all_fits_succeed fit self ->
  q ∈ quantities ->
  data self !! q = Some planes ->
  dict_get vds planes = Some df ->
  exists f,
    fit_table fit (kernel self) (epsilon self) df = Some f
    /\ predict (build_interpolators fit self).1 q gm vds L = (Ok (f gm L), []).
Proof.
  intros Hwf Hfit Hq Hd Hget.
  destruct (build_result fit self Hwf Hfit) as (_ & _ & Hr).
  destruct (Hr q Hq) as (planes' & fitted & Hd' & Hrbf & Hfrom).
  rewrite Hd in Hd'. injection Hd' as <-.
  pose proof (fitted_from_get _ _ _ _ _ vds Hfrom) as Hv. rewrite Hget in Hv.
  destruct Hv as (f & Hgetf & Hf). exists f. split; [done|].
  rewrite predict_known by done. by eapply interp_exact.
Qed.

Lemma unbuilt_two_planes_reachable :
  reachable constant_fit (load_gmro one_plane (4 # 5) [raw 10 500 60; raw 10 700 80]).
Proof.
  apply load_gmro_reachable. unfold one_plane.
  apply built_reachable, load_gmro_reachable, fresh_reachable.
Qed.

Lemma unbuilt_two_planes_fit :
  all_fits_succeed constant_fit
    (load_gmro one_plane (4 # 5) [raw 10 500 60; raw 10 700 80]).
Proof. solve_concrete_fits. Qed.

Lemma predict_at_loaded_bias_witness :
  exists f,
    fit_table constant_fit "thin_plate_spline" None [mkRow 10 500 60; mkRow 10 700 80]
    = Some f
    /\ predict two_planes "gmro" 10 (4 # 5) 600 = (Ok (f 10 600), []).
Proof.
  apply (predict_at_loaded_bias constant_fit
           (load_gmro one_plane (4 # 5) [raw 10 500 60; raw 10 700 80])
           "gmro" two_planes_gmro (4 # 5) [mkRow 10 500 60; mkRow 10 700 80] 10 600).
  - apply (reachable_well_formed constant_fit), unbuilt_two_planes_reachable.
  - apply unbuilt_two_planes_fit.
  - right. left.
  - vm_compute. reflexivity.
  - vm_compute. reflexivity.
Defined.

(** X12: After a successful build, [predict] for a canonical quantity returns a
    value exactly when at least one table was loaded for that quantity; a
    quantity that was never loaded raises only at query time. *)
Theorem predict_needs_a_loaded_plane fit self q planes gm vds L :
  well_formed self ->
  all_fits_succeed fit self ->
  q ∈ quantities ->
  data self !! q = Some planes ->
  (planes = [] ->
     predict (build_interpolators fit self).1 q gm vds L
     = (Raise (ValueError_no_interpolators q), []))
  /\ (planes <> [] ->
        exists y, outcome (predict (build_interpolators fit self).1 q gm vds L) = Ok y).
Proof.
  intros Hwf Hfit Hq Hd.
  destruct (build_result fit self Hwf Hfit) as (_ & _ & Hr).
  destruct (Hr q Hq) as (planes' & fitted & Hd' & Hrbf & Hfrom).
  rewrite Hd in Hd'. injection Hd' as <-.
  rewrite predict_known by done. split.
  - intros Hnil. apply (fitted_from_nil _ _ _ _ _ Hfrom) in Hnil. subst fitted.
    unfold _interp_in_vds. rewrite Hrbf. by monad_step.
  - intros Hne.
    assert (fitted <> []) as Hne' by (by rewrite <- (fitted_from_nil _ _ _ _ _ Hfrom)).
    destruct (interp_cases _ q fitted gm vds L Hrbf Hne')
      as (lowest & rest & _ & [(f & _ & ->)|[(_ & f & _ & ->)|[(_ & f & _ & ->)|
          (pre & v1 & v2 & post & f1 & f2 & _ & _ & _ & _ & _ & ->)]]]);
      by eexists.
Qed.

Lemma predict_needs_a_loaded_plane_witness :
  predict two_planes "ft" 10 (3 # 5) 600
  = (Raise (ValueError_no_interpolators "ft"), [])
  /\ exists y, outcome (predict two_planes "gmro" 10 (3 # 5) 600) = Ok y.
Proof.
  split.
  - refine (proj1 (predict_needs_a_loaded_plane constant_fit
              (load_gmro one_plane (4 # 5) [raw 10 500 60; raw 10 700 80])
              "ft" [] 10 (3 # 5) 600 _ _ _ _) _).
    + apply (reachable_well_formed constant_fit), unbuilt_two_planes_reachable.
    + apply unbuilt_two_planes_fit.
    + right. right. left.
    + vm_compute. reflexivity.
    + reflexivity.
  - refine (proj2 (predict_needs_a_loaded_plane constant_fit
              (load_gmro one_plane (4 # 5) [raw 10 500 60; raw 10 700 80])
              "gmro" two_planes_gmro 10 (3 # 5) 600 _ _ _ _) _).
    + apply (reachable_well_formed constant_fit), unbuilt_two_planes_reachable.
    + apply unbuilt_two_planes_fit.
    + right. left.
    + vm_compute. reflexivity.
    + discriminate.
Defined.

(** ** What the inversion returns *)

Lemma slice_length_elem df L r :
  r ∈ slice_length df L <-> r ∈ df /\ length_nm r == inject_Z L.
Proof.
  unfold slice_length. rewrite list_elem_of_In, filter_In, <- list_elem_of_In.
  by rewrite Qeq_bool_iff.
Qed.

Lemma slice_length_nonempty df L :
  slice_length df L <> [] <-> exists r, r ∈ df /\ length_nm r == inject_Z L.
Proof.
  split.
  - destruct (slice_length df L) as [|r rs] eqn:E; [done|]. intros _.
    exists r. apply slice_length_elem. rewrite E. left.
  - intros (r & Hr) Hnil. apply slice_length_elem in Hr. rewrite Hnil in Hr.
    by apply elem_of_nil in Hr.
Qed.

(** The lengths that get a reconstructed value: those of the Length
    Universe with a row at the plane. *)
Lemma reconstruct_dom rnd df gm ls : forall acc gp log,
  reconstruct rnd df gm ls acc = (Ok gp, log) ->
  forall L, is_Some (gp !! L)
            <-> is_Some (acc !! L) \/ (L ∈ ls /\ slice_length df L <> []).
Proof.
  induction ls as [|L0 ls IH]; intros acc gp log Hrec L.
  - simpl in Hrec. injection Hrec as <- _. split; [by left|].
    intros [H|[H _]]; [done|by apply elem_of_nil in H].
  - simpl in Hrec. destruct (slice_length df L0) as [|r rs] eqn:E.
    + rewrite (IH _ _ _ Hrec L). split.
      * intros [H|[H1 H2]]; [by left|right; split; [by right|done]].
      * intros [H|[H1 H2]]; [by left|].
        apply elem_of_cons in H1 as [->|H1]; [done|by right].
    + destruct (np_interp rnd _ _ _) as [g|]; [|done].
      revert Hrec. monad_step. intros Hrec.
      rewrite (IH _ _ _ Hrec L). split.
      * intros [H|[H1 H2]]; [|right; split; [by right|done]].
        destruct (decide (L0 = L)) as [->|Hne].
        { right. split; [left|by rewrite E]. }
        rewrite lookup_insert_ne in H by done. by left.
      * intros [H|[H1 H2]].
        { left. destruct (decide (L0 = L)) as [->|Hne];
            [rewrite lookup_insert_eq; by eexists|by rewrite lookup_insert_ne]. }
        apply elem_of_cons in H1 as [->|H1]; [|by right].
        left. rewrite lookup_insert_eq. by eexists.
Qed.

(** The scan either finds nothing, or returns the larger length of an
    adjacent pair. *)
Lemma find_bracket_result rnd gp m l :
  (forall L, L ∈ l -> is_Some (gp !! L)) ->
  (find_bracket rnd gp m l = ret None /\ no_bracket gp m l)
  \/ exists L_est a b log,
       find_bracket rnd gp m l = (Ok (Some (L_est, Z.max a b)), log)
       /\ a ∈ l /\ b ∈ l.
Proof.
  induction l as [|a [|b l] IH]; intros Hk.
  - left. split; [done|constructor].
  - left. split; [done|constructor].
  - destruct (Hk a ltac:(left)) as [ga Ha].
    destruct (Hk b ltac:(right; left)) as [gb Hb].
    rewrite (find_bracket_step rnd _ _ _ _ _ _ _ Ha Hb).
    destruct (brackets ga gb m) eqn:E.
    + right.
      destruct (continuous_estimate_cases rnd a b ga gb m) as [[_ ->]|[_ ->]];
        monad_step; do 4 eexists; (split; [done|split; [left|right; left]]).
    + destruct IH as [[-> Hno]|(L_est & a' & b' & log & -> & Ha' & Hb')].
      * intros L HL. apply Hk. by right.
      * left. split; [done|]. unfold no_bracket. rewrite adjacent_pairs_cons.
        constructor; [|done].
        intros (g1 & g2 & H1 & H2 & Hbr). simpl in *. congruence.
      * right. exists L_est, a', b', log. split; [done|]. split; by right.
Qed.

(** [invert] on a map that is not empty returns: the same pair of estimates
    in both modes, with a reconstructed length as the discrete one. *)
Lemma invert_total rnd gp m :
  map_to_list gp <> [] ->
  exists L_est L_disc log,
    (forall rc, invert rnd gp m rc = (Ok (returned rc L_est L_disc), log))
    /\ is_Some (gp !! L_disc).
Proof.
  intros Hne. unfold invert.
  destruct (find_bracket_result rnd gp m (lengths_ordered gp))
    as [[-> Hno]|(L_est & a & b & log & -> & Ha & Hb)].
  - intros L HL. by apply lengths_ordered_elem.
  - destruct (py_min_is_Some (gmro_distance rnd gp m) (lengths_ordered gp)) as [L HL];
      [by apply lengths_ordered_nonempty|].
    exists (py_float rnd L), L, []. split.
    + intros rc. monad_step. rewrite HL. by monad_step.
    + apply lengths_ordered_elem. by eapply py_min_elem.
  - exists L_est, (Z.max a b), log. split.
    + intros rc. simpl. by rewrite app_nil_r.
    + apply lengths_ordered_elem. destruct (Z.max_spec a b) as [[_ ->]|[_ ->]]; done.
Qed.

(** X13: With gmro data loaded, the Length Universe computed and a row of the
    snapped plane at one of its lengths, the call returns; the pair of
    estimates is the same in both modes, and the discrete length is a length
    of the Length Universe at which the snapped plane has a row. *)
Theorem estimate_returns_a_tabulated_length rnd self gm m vds planes ls p df :
  data self !! "gmro"%string = Some planes ->
  planes <> [] ->
  lengths self = Some ls ->
  snap_plane rnd planes vds = Some p ->
  dict_get p planes = Some df ->
  (exists r L, r ∈ df /\ L ∈ ls /\ length_nm r == inject_Z L) ->
  exists L_est L_disc log,
    (forall rc,
       estimate_length_from_gmro rnd self gm m vds rc
       = (Ok (returned rc L_est L_disc), log))
    /\ L_disc ∈ ls
    /\ exists r, r ∈ df /\ length_nm r == inject_Z L_disc.
Proof.
  intros Hd Hne Hl Hp Hdf (r0 & L0 & Hr0 & HL0 & Heq0).
  pose proof (gmro_reconstruction_eq rnd self gm vds planes ls p df Hd Hne Hl Hp Hdf) as Hrec.
  destruct (reconstruct_ok rnd df gm ls ∅) as [gp Hgp].
  pose proof (reconstruct_dom rnd df gm ls ∅ gp [] Hgp) as Hdom.
  rewrite Hgp in Hrec. revert Hrec. monad_step. intros Hrec.
  assert (map_to_list gp <> []) as Hmap.
  { assert (is_Some (gp !! L0)) as [g Hg].
    { apply Hdom. right. split; [done|]. apply slice_length_nonempty. by exists r0. }
    intros Hnil. apply elem_of_map_to_list in Hg. rewrite Hnil in Hg.
    by apply elem_of_nil in Hg. }
  destruct (invert_total rnd gp m Hmap) as (L_est & L_disc & log & Hinv & Hsome).
  destruct (map_to_list gp) eqn:E; [done|]. clear E Hmap.
  exists L_est, L_disc, log. split.
  - intros rc. rewrite (estimate_after_reconstruction rnd _ _ _ _ _ _ _ Hrec). apply Hinv.
  - apply Hdom in Hsome as [Hsome|[Hin Hslice]].
    + rewrite lookup_empty in Hsome. by destruct Hsome.
    + split; [done|]. by apply slice_length_nonempty.
Qed.

Lemma estimate_returns_a_tabulated_length_witness :
  exists L_est L_disc log,
    (forall rc,
       estimate_length_from_gmro round_double two_planes 10 35 (3 # 5) rc
       = (Ok (returned rc L_est L_disc), log))
    /\ L_disc ∈ [500; 700]%Z
    /\ exists r,
         r ∈ [mkRow 10 500 30; mkRow 10 700 40] /\ length_nm r == inject_Z L_disc.
Proof.
  apply (estimate_returns_a_tabulated_length round_double two_planes 10 35 (3 # 5)
           two_planes_gmro [500; 700]%Z (2 # 5)).
  - vm_compute. reflexivity.
  - discriminate.
  - vm_compute. reflexivity.
  - vm_compute. reflexivity.
  - vm_compute. reflexivity.
  - exists (mkRow 10 500 30), 500%Z. split; [left|]. split; [left|reflexivity].
Defined.

(** ** A measurement that hits a reconstructed value *)

Lemma brackets_at_left g1 g2 m : g1 == m -> brackets g1 g2 m = true.
Proof.
  intros H. apply brackets_true.
  destruct (Qlt_le_dec g2 m); [right|left]; split; lra.
Qed.

Lemma brackets_at_right g1 g2 m : g2 == m -> brackets g1 g2 m = true.
Proof.
  intros H. apply brackets_true.
  destruct (Qlt_le_dec g1 m); [left|right]; split; lra.
Qed.

(** X14: A measurement equal to the reconstructed gmro of the shortest length
    is bracketed by the first pair: the discrete length returned is the
    second-shortest length, not the shortest.  The continuous estimate is
    the midpoint [0.5 * (L1 + L2)] when the computed difference of the pair
    is below [1e-12]; otherwise it is the shortest length as a float, for a
    rounding that respects equality, keeps zero and rounds a rounded value
    to itself. *)
Theorem exact_gmro_at_shortest_length rnd self gm m vds gp log L1 L2 post g1 g2 :
  gmro_reconstruction rnd self gm vds = (Ok gp, log) ->
  lengths_ordered gp = L1 :: L2 :: post ->
  gp !! L1 = Some g1 -> gp !! L2 = Some g2 ->
  g1 == m ->
  (L1 < L2)%Z
  /\ outcome (estimate_length_from_gmro rnd self gm m vds false) = Ok (Discrete L2)
  /\ exists L_est,
       outcome (estimate_length_from_gmro rnd self gm m vds true)
       = Ok (Continuous L_est L2)
       /\ (Qabs (rnd (g2 - g1)) < flat_tol ->
           L_est = rnd ((1 # 2) * rnd (inject_Z (L1 + L2))))
       /\ (flat_tol <= Qabs (rnd (g2 - g1)) ->
           (forall x y, x == y -> rnd x == rnd y) ->
           rnd 0 == 0 ->
           (forall x, rnd (rnd x) == rnd x) ->
           L_est == rnd (inject_Z L1)).
Proof.
  intros Hrec Hl H1 H2 Hm.
  pose proof (lengths_ordered_adjacent gp [] L1 L2 post Hl) as Hlt.
  assert (first_bracket gp m L1 L2 g1 g2) as Hfirst.
  { split; [|split; [done|split; [done|by apply brackets_at_left]]].
    exists [], post. split; [done|]. apply Forall_nil_2. }
  rewrite !(estimate_after_reconstruction rnd _ _ _ _ _ _ _ Hrec).
  rewrite !(invert_first_bracket rnd _ _ _ _ _ _ _ Hfirst).
  rewrite Z.max_r by lia. split; [done|].
  destruct (continuous_estimate_cases rnd L1 L2 g1 g2 m) as [[Hflat ->]|[Hsteep ->]].
  - split; [done|]. eexists. split; [done|]. split; [done|].
    intros Hsteep. exfalso. lra.
  - split; [done|]. eexists. split; [done|]. split; [intros Hflat; exfalso; lra|].
    intros _ Hproper Hzero Hidem.
    assert (Hz : forall x, x == 0 -> rnd x == 0).
    { intros x Hx. rewrite (Hproper x 0 Hx). exact Hzero. }
    assert (Ha : rnd (m - g1) == 0) by (apply Hz; lra).
    assert (Hb : rnd (rnd (m - g1) / rnd (g2 - g1)) == 0).
    { apply Hz. unfold Qdiv. rewrite Ha. ring. }
    assert (Hc : rnd (rnd (rnd (m - g1) / rnd (g2 - g1)) * rnd (inject_Z (L2 - L1)))
                 == 0).
    { apply Hz. rewrite Hb. ring. }
    rewrite (Hproper _ (rnd (inject_Z L1))); [apply Hidem|]. rewrite Hc. ring.
Qed.

Lemma exact_gmro_at_shortest_length_witness :
  (500 < 700)%Z
  /\ outcome (estimate_length_from_gmro round_double one_plane 10 30 (2 # 5) false)
     = Ok (Discrete 700)
  /\ exists L_est,
       outcome (estimate_length_from_gmro round_double one_plane 10 30 (2 # 5) true)
       = Ok (Continuous L_est 700)
       /\ L_est == 500.
Proof.
  destruct (exact_gmro_at_shortest_length round_double one_plane 10 30 (2 # 5)
              gmro_500_700 [] 500%Z 700%Z [] 30 40)
    as (Hlt & Hdisc & L_est & Hcont & _ & Hsteep).
  - vm_compute. reflexivity.
  - vm_compute. reflexivity.
  - vm_compute. reflexivity.
  - vm_compute. reflexivity.
  - reflexivity.
  - split; [exact Hlt|]. split; [exact Hdisc|].
    exists L_est. split; [exact Hcont|].
    rewrite Hsteep.
    + vm_compute. reflexivity.
    + vm_compute. discriminate.
    + intros x y Hxy. by rewrite (round_double_Qeq x y Hxy).
    + reflexivity.
    + intros x. by rewrite round_double_idempotent.
Defined.

(** On the bracket (500, 30), (700, 40) a measurement of 30 gives the
    continuous estimate 500 and the discrete length 700. *)
Example exact_gmro_at_500 :
  estimate_length_from_gmro round_double one_plane 10 30 (2 # 5) true
  = (Ok (Continuous 500 700), [10]).
Proof. vm_compute. reflexivity. Qed.

(** The scan stops no later than at a bracketing pair. *)
Lemma find_bracket_hit rnd gp m l : forall a b,
  StronglySorted Z.le l ->
  (forall L, L ∈ l -> is_Some (gp !! L)) ->
  (a, b) ∈ adjacent_pairs l ->
  pair_brackets gp m (a, b) ->
  exists L_est L_disc log,
    find_bracket rnd gp m l = (Ok (Some (L_est, L_disc)), log)
    /\ (L_disc <= b)%Z.
Proof.
  induction l as [|x [|y l] IH]; intros a b Hs Hk Hin Hbr.
  - by apply elem_of_nil in Hin.
  - by apply elem_of_nil in Hin.
  - destruct (Hk x ltac:(left)) as [gx Hx].
    destruct (Hk y ltac:(right; left)) as [gy Hy].
    rewrite (find_bracket_step rnd _ _ _ _ _ _ _ Hx Hy).
    rewrite adjacent_pairs_cons in Hin.
    pose proof Hs as Hs'. apply StronglySorted_inv in Hs' as [Hs' Hall].
    assert (x <= y)%Z as Hxy by (rewrite Forall_forall in Hall; apply Hall; left).
    assert (y <= b)%Z as Hyb.
    { apply elem_of_cons in Hin as [[= _ ->]|Hin]; [lia|].
      assert (b ∈ l) as Hb.
      { unfold adjacent_pairs in Hin. apply elem_of_zip_r in Hin. done. }
      apply StronglySorted_inv in Hs' as [_ Hall'].
      rewrite Forall_forall in Hall'. by apply Hall'. }
    destruct (brackets gx gy m) eqn:E.
    + destruct (continuous_estimate_cases rnd x y gx gy m) as [[_ ->]|[_ ->]];
        monad_step; do 3 eexists; (split; [done|lia]).
    + apply elem_of_cons in Hin as [[= -> ->]|Hin].
      * destruct Hbr as (g1 & g2 & H1 & H2 & Hb). simpl in *. congruence.
      * apply (IH a b); [done| |done|done]. intros L HL. apply Hk. by right.
Qed.

(** X15: A measurement equal to the reconstructed gmro of a length that is not
    the shortest one is always bracketed, and the discrete length returned
    is at most that length. *)
Theorem exact_gmro_bounds_the_discrete_length rnd
    self gm m vds gp log pre L0 L post g :
  gmro_reconstruction rnd self gm vds = (Ok gp, log) ->
  lengths_ordered gp = pre ++ L0 :: L :: post ->
  gp !! L = Some g ->
  g == m ->
  exists L_disc,
    outcome (estimate_length_from_gmro rnd self gm m vds false) = Ok (Discrete L_disc)
    /\ (L_disc <= L)%Z.
Proof.
  intros Hrec Hl Hg Hm.
  rewrite (estimate_after_reconstruction rnd _ _ _ _ _ _ _ Hrec). unfold invert.
  assert (is_Some (gp !! L0)) as [g0 Hg0].
  { apply lengths_ordered_elem. rewrite Hl. apply elem_of_app. right. left. }
  destruct (find_bracket_hit rnd gp m (lengths_ordered gp) L0 L)
    as (L_est & L_disc & dlog & -> & Hle).
  - apply lengths_ordered_sorted.
  - intros L' HL'. by apply lengths_ordered_elem.
  - rewrite Hl. clear. induction pre as [|a pre IH]; [left|].
    destruct pre as [|b pre]; simpl in *; right; exact IH.
  - exists g0, g. split; [done|]. split; [done|]. by apply brackets_at_right.
  - exists L_disc. split; [done|done].
Qed.

Lemma exact_gmro_bounds_the_discrete_length_witness :
  exists L_disc,
    outcome (estimate_length_from_gmro round_double one_plane 10 40 (2 # 5) false)
    = Ok (Discrete L_disc)
    /\ (L_disc <= 700)%Z.
Proof.
  apply (exact_gmro_bounds_the_discrete_length round_double one_plane 10 40 (2 # 5)
           gmro_500_700 [] [] 500%Z 700%Z [] 40).
  - vm_compute. reflexivity.
  - vm_compute. reflexivity.
  - vm_compute. reflexivity.
  - reflexivity.
Defined.

(** X16: With a single reconstructed length, that length is the answer for
    every measurement: it is the discrete length, and the continuous
    estimate is that length converted to a float. *)
Theorem single_length_is_always_returned rnd self gm m vds rc gp log L :
  gmro_reconstruction rnd self gm vds = (Ok gp, log) ->
  lengths_ordered gp = [L] ->
  estimate_length_from_gmro rnd self gm m vds rc
  = (Ok (returned rc (rnd (inject_Z L)) L), []).
Proof.
  intros Hrec Hl.
  rewrite (estimate_after_reconstruction rnd _ _ _ _ _ _ _ Hrec).
  destruct (invert_no_bracket rnd gp m rc) as (L' & Hmin & ->).
  - by eapply gmro_reconstruction_nonempty.
  - rewrite Hl. apply Forall_nil_2.
  - rewrite Hl in Hmin. simpl in Hmin. by injection Hmin as <-.
Qed.

Lemma single_length_is_always_returned_witness :
  estimate_length_from_gmro round_double
    (built (load_gmro fresh (2 # 5) [raw 10 500 30])) 10 1000 (2 # 5) true
  = (Ok (Continuous (round_double (inject_Z 500)) 500), []).
Proof.
  apply (single_length_is_always_returned round_double
           (built (load_gmro fresh (2 # 5) [raw 10 500 30])) 10 1000 (2 # 5) true
           (<[500%Z := 30]> ∅) [] 500%Z).
  - vm_compute. reflexivity.
  - vm_compute. reflexivity.
Defined.

(** A length is kept as an integer and converted to a float only for the
    continuous estimate: 500 stays 500, and 2^53 + 1, which no double holds,
    becomes 2^53. *)
Example single_length_as_a_float :
  estimate_length_from_gmro round_double
    (built (load_gmro fresh (2 # 5) [raw 10 500 30])) 10 1000 (2 # 5) true
  = (Ok (Continuous 500 500), [])
  /\ estimate_length_from_gmro round_double
       (built (load_gmro fresh (2 # 5) [raw 10 9007199254740993 30]))
       10 1000 (2 # 5) true
     = (Ok (Continuous 9007199254740992 9007199254740993), []).
Proof. split; vm_compute; reflexivity. Qed.

(** X17: A query bias equal to the bias of a loaded gmro plane snaps to that
    plane and reads its table, when the computed distance to that plane is
    zero and the computed distance to every other plane is not. *)
Theorem snap_plane_at_loaded_bias rnd planes vds k :
  k ∈ dict_keys planes ->
  k == vds ->
  rnd (k - vds) == 0 ->
  (forall k', k' ∈ dict_keys planes -> rnd (k' - vds) == 0 -> k' == vds) ->
  exists p,
    snap_plane rnd planes vds = Some p
    /\ p == vds
    /\ dict_get p planes = dict_get vds planes.
Proof.
  intros Hk Heq Hzero Hother.
  destruct (snap_plane_Some rnd planes vds) as [p Hp].
  { intros ->. by apply elem_of_nil in Hk. }
  destruct (snap_plane_nearest rnd _ _ _ Hp) as (Hin & Hleast & _).
  specialize (Hleast k Hk).
  rewrite Hzero in Hleast. change (Qabs 0) with 0 in Hleast.
  apply Qabs_Qle_condition in Hleast.
  assert (p == vds) as Hpv by (apply Hother; [done|lra]).
  exists p. split; [done|]. split; [done|]. by apply dict_get_Qeq.
Qed.

Lemma snap_plane_at_loaded_bias_witness :
  exists p,
    snap_plane round_double two_planes_gmro (8 # 10) = Some p
    /\ p == 8 # 10
    /\ dict_get p two_planes_gmro = dict_get (8 # 10) two_planes_gmro.
Proof.
  apply (snap_plane_at_loaded_bias round_double two_planes_gmro (8 # 10) (4 # 5)).
  - right. left.
  - reflexivity.
  - vm_compute. reflexivity.
  - intros k' Hk' Hz.
    apply elem_of_cons in Hk' as [->|Hk']; [vm_compute in Hz; discriminate|].
    apply list_elem_of_singleton in Hk' as ->. reflexivity.
Defined.

(** ** The bracket in double arithmetic *)

(** X21: In double arithmetic too the continuous estimate of a bracket lies
    in [[L1, L2]] and the discrete length is at least the continuous
    estimate, for lengths of at most 52 bits; the reconstructed values of
    the bracket are taken below 2^1022, where no operation of the step
    leaves the range of the doubles. *)
Theorem bracket_estimates_ordered_in_doubles self gm m vds gp log L1 L2 g1 g2 :
  gmro_reconstruction round_double self gm vds = (Ok gp, log) ->
  first_bracket gp m L1 L2 g1 g2 ->
  (Z.abs L1 <= 2 ^ 52)%Z -> (Z.abs L2 <= 2 ^ 52)%Z ->
  Qabs g1 <= 2 ^ 1022 -> Qabs g2 <= 2 ^ 1022 ->
  exists L_est L_disc,
    outcome (estimate_length_from_gmro round_double self gm m vds true)
    = Ok (Continuous L_est L_disc)
    /\ (L1 < L2)%Z
    /\ inject_Z L1 <= L_est /\ L_est <= inject_Z L2
    /\ L_est <= inject_Z L_disc.
Proof.
  intros Hrec Hfirst HL1 HL2 _ _.
  pose proof Hfirst as ((pre & post & Hl & _) & _ & _ & Hb).
  pose proof (lengths_ordered_adjacent _ _ _ _ _ Hl) as Hlt.
  rewrite (estimate_after_reconstruction round_double _ _ _ _ _ _ _ Hrec).
  rewrite (invert_first_bracket round_double _ _ _ _ _ _ _ Hfirst).
  destruct (continuous_estimate_within_rounded round_double L1 L2 g1 g2 m)
    as (L_est & dlog & -> & Hlo & Hhi); try done.
  - apply round_double_mono.
  - intros n Hn. by rewrite round_double_integer.
  - exists L_est, (Z.max L1 L2). split; [done|]. split; [done|].
    split; [done|]. split; [done|].
    rewrite Z.max_r by lia. done.
Qed.

Lemma bracket_estimates_ordered_in_doubles_witness :
  exists L_est L_disc,
    outcome (estimate_length_from_gmro round_double one_plane 10 (313 # 10) (2 # 5) true)
    = Ok (Continuous L_est L_disc)
    /\ (500 < 700)%Z
    /\ inject_Z 500 <= L_est /\ L_est <= inject_Z 700
    /\ L_est <= inject_Z L_disc.
Proof.
  apply (bracket_estimates_ordered_in_doubles one_plane 10 (313 # 10) (2 # 5)
           gmro_500_700 [] 500%Z 700%Z 30 40).
  - vm_compute. reflexivity.
  - split; [|split; [|split]]; [|vm_compute; reflexivity..].
    exists [], []. split; [vm_compute; reflexivity|]. apply Forall_nil_2.
  - vm_compute. discriminate.
  - vm_compute. discriminate.
  - vm_compute. discriminate.
  - vm_compute. discriminate.
Defined.

(** ** The errors a caller can meet *)

Lemma interp_outcomes self q fitted gm vds L :
  rbf self !! q = Some fitted ->
  (exists y, outcome (_interp_in_vds self q gm vds L) = Ok y)
  \/ _interp_in_vds self q gm vds L = (Raise (ValueError_no_interpolators q), []).
Proof.
  intros Hrbf. destruct fitted as [|pl fitted].
  - right. unfold _interp_in_vds. rewrite Hrbf. by monad_step.
  - left.
    destruct (interp_cases self q (pl :: fitted) gm vds L Hrbf ltac:(done))
      as (lowest & rest & _ & [(f & _ & ->)|[(_ & f & _ & ->)|[(_ & f & _ & ->)|
          (pre & v1 & v2 & post & f1 & f2 & _ & _ & _ & _ & _ & ->)]]]);
      by eexists.
Qed.

Lemma estimate_outcomes rnd self gm m vds rc planes :
  data self !! "gmro"%string = Some planes ->
  (exists e, outcome (estimate_length_from_gmro rnd self gm m vds rc) = Ok e)
  \/ outcome (estimate_length_from_gmro rnd self gm m vds rc)
     = Raise ValueError_gmro_not_available
  \/ outcome (estimate_length_from_gmro rnd self gm m vds rc)
     = Raise ValueError_no_length_information
  \/ exists p,
       snap_plane rnd planes vds = Some p
       /\ outcome (estimate_length_from_gmro rnd self gm m vds rc)
          = Raise (ValueError_no_gmro_at_plane p).
Proof.
  intros Hd. destruct planes as [|pl planes].
  { right. left. unfold estimate_length_from_gmro, gmro_reconstruction.
    rewrite Hd. by monad_step. }
  destruct (lengths self) as [ls|] eqn:Hl.
  2:{ right. right. left. unfold estimate_length_from_gmro, gmro_reconstruction.
      rewrite Hd. monad_step. by rewrite Hl. }
  destruct (snap_plane_Some rnd (pl :: planes) vds ltac:(done)) as [p Hp].
  destruct (snap_plane_nearest rnd _ _ _ Hp) as (Hin & _).
  destruct (dict_get_key _ _ Hin) as [df Hdf].
  pose proof (gmro_reconstruction_eq rnd self gm vds _ ls p df Hd ltac:(done) Hl Hp Hdf)
    as Hrec.
  destruct (reconstruct_ok rnd df gm ls ∅) as [gp Hgp].
  rewrite Hgp in Hrec. revert Hrec. monad_step. intros Hrec.
  destruct (map_to_list gp) as [|x xs] eqn:E.
  - right. right. right. exists p. split; [done|].
    unfold estimate_length_from_gmro. by rewrite Hrec.
  - left. rewrite (estimate_after_reconstruction rnd _ _ _ _ _ _ _ Hrec).
    destruct (invert_total rnd gp m) as (L_est & L_disc & log & Hinv & _);
      [by rewrite E|].
    rewrite Hinv. by eexists.
Qed.

(** X18: On every engine a caller can get from [__init__], loads and builds,
    the public calls fail only with their own errors: [predict] with a
    canonical quantity returns or reports that the quantity has no
    interpolators; [estimate_length_from_gmro] returns or raises one of its
    three errors; [build_interpolators] succeeds or raises the error of a
    fit.  No lookup of a quantity, a bias or a length ever fails, and no
    call divides by zero. *)
Theorem reachable_calls_fail_only_as_documented rnd fit self :
  reachable fit self ->
  (forall q gm vds L, q ∈ quantities ->
     (exists y, outcome (predict self q gm vds L) = Ok y)
     \/ predict self q gm vds L = (Raise (ValueError_no_interpolators q), []))
  /\ (forall gm m vds rc,
        (exists e, outcome (estimate_length_from_gmro rnd self gm m vds rc) = Ok e)
        \/ outcome (estimate_length_from_gmro rnd self gm m vds rc)
           = Raise ValueError_gmro_not_available
        \/ outcome (estimate_length_from_gmro rnd self gm m vds rc)
           = Raise ValueError_no_length_information
        \/ exists p,
             outcome (estimate_length_from_gmro rnd self gm m vds rc)
             = Raise (ValueError_no_gmro_at_plane p))
  /\ ((build_interpolators fit self).2 = Ok ()
      \/ (build_interpolators fit self).2 = Raise FitError).
Proof.
  intros Hreach. pose proof (reachable_well_formed fit self Hreach) as Hwf.
  split; [|split].
  - intros q gm vds L Hq. destruct (Hwf q Hq) as [_ [fitted Hrbf]].
    rewrite predict_known by done. by eapply interp_outcomes.
  - intros gm m vds rc.
    destruct (Hwf "gmro"%string ltac:(right; left)) as [(planes & Hd & _) _].
    destruct (estimate_outcomes rnd self gm m vds rc planes Hd)
      as [H|[H|[H|(p & _ & H)]]]; eauto 6.
  - unfold build_interpolators.
    destruct (build_quantities_outcome fit (kernel self) (epsilon self) (data self)
                quantities empty_planes []) as [[Hok _]|Hfail].
    + intros q Hq. split; [rewrite empty_planes_lookup by done; by eexists|].
      destruct (Hwf q Hq) as [(pl & -> & _) _]. by eexists.
    + left. destruct (build_quantities fit _ _ _ _ _) as [[r all] [[]|e]];
        simpl in Hok; [|done]. by destruct all.
    + right. destruct (build_quantities fit _ _ _ _ _) as [[r all] [[]|e]];
        simpl in Hfail; [done|]. simpl. done.
Qed.

Lemma two_planes_reachable : reachable constant_fit two_planes.
Proof. apply built_reachable, unbuilt_two_planes_reachable. Qed.

Lemma reachable_calls_fail_only_as_documented_witness :
  (exists y, outcome (predict two_planes "id_w" 10 (3 # 5) 600) = Ok y)
  \/ predict two_planes "id_w" 10 (3 # 5) 600
     = (Raise (ValueError_no_interpolators "id_w"), []).
Proof.
  refine (proj1 (reachable_calls_fail_only_as_documented round_double constant_fit two_planes _)
            "id_w"%string 10 (3 # 5) 600 _).
  - apply two_planes_reachable.
  - left.
Defined.

(** ** The reconstructed values *)

Lemma sort_values_elem df r : r ∈ sort_values_gm_id df <-> r ∈ df.
Proof. by rewrite sort_values_Permutation. Qed.

Lemma insert_row_sorted r l :
  StronglySorted gm_id_le l -> StronglySorted gm_id_le (insert_row r l).
Proof.
  induction l as [|r' l IH]; intros Hs; simpl.
  - apply SSorted_cons; [apply SSorted_nil|apply Forall_nil_2].
  - apply StronglySorted_inv in Hs as [Hs Hall].
    destruct (Qle_bool (gm_id r) (gm_id r')) eqn:E.
    + apply Qle_bool_iff in E.
      apply SSorted_cons; [by apply SSorted_cons|].
      apply Forall_cons_2; [done|].
      eapply Forall_impl; [exact Hall|].
      intros x Hx. unfold gm_id_le in *. lra.
    + assert (gm_id r' <= gm_id r) as Hle.
      { destruct (Qlt_le_dec (gm_id r') (gm_id r)) as [H|H]; [lra|].
        apply Qle_bool_iff in H. congruence. }
      apply SSorted_cons; [by apply IH|].
      rewrite Forall_forall. intros x Hx.
      rewrite insert_row_Permutation in Hx.
      apply elem_of_cons in Hx as [->|Hx]; [done|].
      rewrite Forall_forall in Hall. by apply Hall.
Qed.

Lemma sort_values_sorted df : StronglySorted gm_id_le (sort_values_gm_id df).
Proof.
  unfold sort_values_gm_id.
  induction df as [|r df IH]; simpl; [apply SSorted_nil|by apply insert_row_sorted].
Qed.

(** Rows with equal [gm_id] keep their order. *)
Example sort_values_keeps_ties :
  sort_values_gm_id [mkRow 10 500 35; mkRow 12 500 40; mkRow 10 500 33]
  = [mkRow 10 500 35; mkRow 10 500 33; mkRow 12 500 40].
Proof. reflexivity. Qed.

Lemma zip_columns (l : list Row) :
  zip (gm_id <$> l) (value <$> l) = (fun r => (gm_id r, value r)) <$> l.
Proof. induction l as [|r l IH]; [done|]. simpl. f_equal. exact IH. Qed.

(** On samples ascending in [gm_id], a query at the [gm_id] of a sample
    returns the value of a sample with that [gm_id]. *)
Lemma interp_from_hit rnd x (rest : list Row) : forall r0,
  StronglySorted gm_id_le (r0 :: rest) ->
  (exists r, r ∈ r0 :: rest /\ gm_id r == x) ->
  exists r, r ∈ r0 :: rest /\ gm_id r == x
    /\ interp_from rnd x (gm_id r0) (value r0)
         ((fun r => (gm_id r, value r)) <$> rest) = value r.
Proof.
  induction rest as [|r1 rest IH]; intros r0 Hs (r & Hr & Hx); simpl.
  - apply list_elem_of_singleton in Hr as ->. exists r0. split; [left|done].
  - apply StronglySorted_inv in Hs as [Hs Hall]. rewrite Forall_forall in Hall.
    destruct (Qle_bool (gm_id r1) x) eqn:E.
    + apply Qle_bool_iff in E. destruct (IH r1 Hs) as (r' & Hr' & Hx' & Heq).
      * apply elem_of_cons in Hr as [->|Hr]; [|by exists r].
        exists r1. split; [left|].
        specialize (Hall r1 ltac:(left)). unfold gm_id_le in Hall. lra.
      * exists r'. split; [by right|]. split; [done|exact Heq].
    + apply Qle_bool_false in E.
      apply elem_of_cons in Hr as [->|Hr].
      * assert (Qeq_bool (gm_id r0) x = true) as -> by by apply Qeq_bool_iff.
        exists r0. split; [left|done].
      * exfalso. apply StronglySorted_inv in Hs as [_ Hall1].
        rewrite Forall_forall in Hall1.
        apply elem_of_cons in Hr as [->|Hr]; [lra|].
        specialize (Hall1 r Hr). unfold gm_id_le in Hall1. lra.
Qed.

Lemma np_interp_hit rnd x (l : list Row) g :
  StronglySorted gm_id_le l ->
  np_interp rnd x (gm_id <$> l) (value <$> l) = Some g ->
  (exists r, r ∈ l /\ gm_id r == x) ->
  exists r, r ∈ l /\ gm_id r == x /\ g = value r.
Proof.
  unfold np_interp. rewrite zip_columns.
  destruct l as [|r0 rest]; simpl; [done|]. intros Hs [= <-] (r & Hr & Hx).
  assert (Qlt_bool x (gm_id r0) = false) as ->.
  { apply Qlt_bool_false.
    apply elem_of_cons in Hr as [->|Hr]; [lra|].
    apply StronglySorted_inv in Hs as [_ Hall]. rewrite Forall_forall in Hall.
    specialize (Hall r Hr). unfold gm_id_le in Hall. lra. }
  destruct (interp_from_hit rnd x rest r0 Hs) as (r' & Hr' & Hx' & Heq); [by exists r|].
  exists r'. split; [done|]. split; [done|exact Heq].
Qed.

(** Where a reconstructed value comes from. *)
Lemma reconstruct_value rnd df gm ls : forall acc gp log L g,
  reconstruct rnd df gm ls acc = (Ok gp, log) ->
  gp !! L = Some g ->
  acc !! L = Some g
  \/ (L ∈ ls
      /\ np_interp rnd gm (gm_id <$> sort_values_gm_id (slice_length df L))
           (value <$> sort_values_gm_id (slice_length df L)) = Some g).
Proof.
  induction ls as [|L0 ls IH]; intros acc gp log L g Hrec Hg.
  - simpl in Hrec. injection Hrec as <- _. by left.
  - simpl in Hrec. destruct (slice_length df L0) as [|r rs] eqn:E.
    + destruct (IH _ _ _ _ _ Hrec Hg) as [H|[H1 H2]]; [by left|].
      right. split; [by right|done].
    + destruct (np_interp rnd gm (gm_id <$> sort_values_gm_id (r :: rs))
                  (value <$> sort_values_gm_id (r :: rs))) as [g0|] eqn:En; [|done].
      revert Hrec. monad_step. intros Hrec.
      destruct (IH _ _ _ _ _ Hrec Hg) as [H|[H1 H2]].
      * destruct (decide (L0 = L)) as [->|Hne].
        { rewrite lookup_insert_eq in H. injection H as ->.
          right. split; [left|]. by rewrite E. }
        rewrite lookup_insert_ne in H by done. by left.
      * right. split; [by right|done].
Qed.

(** How [numpy.interp] answers from the first sample on, for a query not
    below it. *)
Lemma interp_from_source rnd x (rest : list Row) : forall r0,
  gm_id r0 <= x ->
  (exists r, r ∈ r0 :: rest /\ gm_id r == x
     /\ interp_from rnd x (gm_id r0) (value r0)
          ((fun r => (gm_id r, value r)) <$> rest) = value r)
  \/ (exists r, last (r0 :: rest) = Some r /\ gm_id r < x
        /\ interp_from rnd x (gm_id r0) (value r0)
             ((fun r => (gm_id r, value r)) <$> rest) = value r)
  \/ (exists pre ra rb post,
        r0 :: rest = pre ++ ra :: rb :: post
        /\ gm_id ra < x /\ x < gm_id rb
        /\ interp_from rnd x (gm_id r0) (value r0)
             ((fun r => (gm_id r, value r)) <$> rest)
           = interp_segment rnd x (gm_id ra) (value ra) (gm_id rb) (value rb)).
Proof.
  induction rest as [|r1 rest IH]; intros r0 Hle; simpl.
  - destruct (Qlt_le_dec (gm_id r0) x) as [Hlt|Hge].
    + right. left. by exists r0.
    + left. exists r0. split; [left|]. split; [lra|done].
  - destruct (Qle_bool (gm_id r1) x) eqn:E.
    + apply Qle_bool_iff in E.
      destruct (IH r1 E) as [(r & Hr & Hx & Heq)|[(r & Hr & Hx & Heq)
        |(pre & ra & rb & post & Hl & Ha & Hb & Heq)]].
      * left. exists r. split; [by right|]. split; [done|exact Heq].
      * right. left. exists r. split; [exact Hr|]. split; [done|exact Heq].
      * right. right. exists (r0 :: pre), ra, rb, post.
        split; [by rewrite Hl|]. split; [done|]. split; [done|exact Heq].
    + apply Qle_bool_false in E.
      destruct (Qeq_bool (gm_id r0) x) eqn:E0.
      * apply Qeq_bool_iff in E0. left. exists r0. split; [left|done].
      * apply Qeq_bool_false in E0. right. right. exists [], r0, r1, rest.
        split; [done|]. split; [lra|]. split; [lra|done].
Qed.

Lemma np_interp_source rnd x (l : list Row) g :
  np_interp rnd x (gm_id <$> l) (value <$> l) = Some g ->
  (exists r, head l = Some r /\ x < gm_id r /\ g = value r)
  \/ (exists r, last l = Some r /\ gm_id r < x /\ g = value r)
  \/ (exists r, r ∈ l /\ gm_id r == x /\ g = value r)
  \/ (exists pre ra rb post,
        l = pre ++ ra :: rb :: post
        /\ gm_id ra < x /\ x < gm_id rb
        /\ g = interp_segment rnd x (gm_id ra) (value ra) (gm_id rb) (value rb)).
Proof.
  unfold np_interp. rewrite zip_columns.
  destruct l as [|r0 rest]; simpl; [done|]. intros [= <-].
  destruct (Qlt_bool x (gm_id r0)) eqn:E.
  - apply Qlt_bool_iff in E. left. by exists r0.
  - apply Qlt_bool_false in E. right.
    destruct (interp_from_source rnd x rest r0 E) as [(r & Hr & Hx & Heq)
      |[(r & Hr & Hx & Heq)|(pre & ra & rb & post & Hl & Ha & Hb & Heq)]].
    + right. left. exists r. split; [done|]. split; [done|]. exact Heq.
    + left. exists r. split; [done|]. split; [done|]. exact Heq.
    + right. right. exists pre, ra, rb, post.
      split; [done|]. split; [done|]. split; [done|]. exact Heq.
Qed.

(** X19: Each reconstructed gmro comes from the rows of the snapped plane at
    that length, sorted by [gm_id]: it is the value of the first row for a
    query below it, of the last row for a query above it, of a row at the
    query's [gm_id], and otherwise the rounded line through the two
    consecutive rows around the query. *)
Theorem reconstructed_gmro_from_samples rnd self gm vds planes ls p df gp log L g :
  data self !! "gmro"%string = Some planes ->
  planes <> [] ->
  lengths self = Some ls ->
  snap_plane rnd planes vds = Some p ->
  dict_get p planes = Some df ->
  gmro_reconstruction rnd self gm vds = (Ok gp, log) ->
  gp !! L = Some g ->
  exists rows,
    rows = sort_values_gm_id (slice_length df L)
    /\ StronglySorted gm_id_le rows
    /\ (forall r, r ∈ rows <-> r ∈ df /\ length_nm r == inject_Z L)
    /\ ((exists r, head rows = Some r /\ gm < gm_id r /\ g = value r)
        \/ (exists r, last rows = Some r /\ gm_id r < gm /\ g = value r)
        \/ (exists r, r ∈ rows /\ gm_id r == gm /\ g = value r)
        \/ (exists pre r0 r1 post,
              rows = pre ++ r0 :: r1 :: post
              /\ gm_id r0 < gm /\ gm < gm_id r1
              /\ g = rnd (rnd (rnd (rnd (value r1 - value r0)
                                    / rnd (gm_id r1 - gm_id r0))
                               * rnd (gm - gm_id r0))
                          + value r0))).
Proof.
  intros Hd Hne Hl Hp Hdf Hrec Hg.
  rewrite (gmro_reconstruction_eq rnd self gm vds planes ls p df Hd Hne Hl Hp Hdf) in Hrec.
  destruct (reconstruct_ok rnd df gm ls ∅) as [gp' Hgp]. rewrite Hgp in Hrec.
  revert Hrec. monad_step. destruct (map_to_list gp'); [done|]. intros [= <- _].
  destruct (reconstruct_value rnd df gm ls ∅ gp' [] L g Hgp Hg) as [H|[_ Hn]];
    [by rewrite lookup_empty in H|].
  eexists. split; [done|]. split; [apply sort_values_sorted|]. split.
  - intros r. by rewrite sort_values_elem, slice_length_elem.
  - by apply np_interp_source.
Qed.

Lemma reconstructed_gmro_from_samples_witness :
  exists rows,
    rows = sort_values_gm_id
             (slice_length [mkRow 13 500 31; mkRow 10 500 30;
                            mkRow 10 700 40; mkRow 13 700 42] 500)
    /\ StronglySorted gm_id_le rows
    /\ (forall r, r ∈ rows <->
          r ∈ [mkRow 13 500 31; mkRow 10 500 30; mkRow 10 700 40; mkRow 13 700 42]
          /\ length_nm r == inject_Z 500)
    /\ ((exists r, head rows = Some r /\ 11 < gm_id r
                   /\ round_double (round_double (1 # 3) + 30) = value r)
        \/ (exists r, last rows = Some r /\ gm_id r < 11
                      /\ round_double (round_double (1 # 3) + 30) = value r)
        \/ (exists r, r ∈ rows /\ gm_id r == 11
                      /\ round_double (round_double (1 # 3) + 30) = value r)
        \/ (exists pre r0 r1 post,
              rows = pre ++ r0 :: r1 :: post
              /\ gm_id r0 < 11 /\ 11 < gm_id r1
              /\ round_double (round_double (1 # 3) + 30)
                 = round_double
                     (round_double
                        (round_double (round_double (value r1 - value r0)
                                       / round_double (gm_id r1 - gm_id r0))
                         * round_double (11 - gm_id r0))
                      + value r0))).
Proof.
  apply (reconstructed_gmro_from_samples round_double sampled_plane 11 (2 # 5)
           [(2 # 5, [mkRow 13 500 31; mkRow 10 500 30;
                     mkRow 10 700 40; mkRow 13 700 42])]
           [500; 700]%Z (2 # 5)
           [mkRow 13 500 31; mkRow 10 500 30; mkRow 10 700 40; mkRow 13 700 42]
           (<[700%Z := round_double (round_double (2 # 3) + 40)]>
              (<[500%Z := round_double (round_double (1 # 3) + 30)]> ∅)) [] 500%Z).
  - vm_compute. reflexivity.
  - discriminate.
  - vm_compute. reflexivity.
  - vm_compute. reflexivity.
  - vm_compute. reflexivity.
  - vm_compute. reflexivity.
  - vm_compute. reflexivity.
Defined.

(** At [gm_id = 11] the plane with samples at 10 and 13 gives the rounded
    30 + 1/3 at 500 nm. *)
Example reconstruction_between_samples :
  gmro_reconstruction round_double sampled_plane 11 (2 # 5)
  = (Ok (<[700%Z := round_double (round_double (2 # 3) + 40)]>
           (<[500%Z := round_double (round_double (1 # 3) + 30)]> ∅)), [])
  /\ round_double (round_double (1 # 3) + 30)
     = 8538074293556565 # 281474976710656.
Proof. split; vm_compute; reflexivity. Qed.

(** X20: At a query [gm_id] that is the [gm_id] of a row of the plane at length
    [L], the reconstructed gmro at [L] is the value of a row with that
    [gm_id] and length: tabulated points are reproduced. *)
Theorem reconstructed_gmro_at_a_sample rnd self gm vds planes ls p df gp log L g r :
  data self !! "gmro"%string = Some planes ->
  planes <> [] ->
  lengths self = Some ls ->
  snap_plane rnd planes vds = Some p ->
  dict_get p planes = Some df ->
  gmro_reconstruction rnd self gm vds = (Ok gp, log) ->
  gp !! L = Some g ->
  r ∈ df -> length_nm r == inject_Z L -> gm_id r == gm ->
  exists r',
    r' ∈ df /\ length_nm r' == inject_Z L /\ gm_id r' == gm /\ g = value r'.
Proof.
  intros Hd Hne Hl Hp Hdf Hrec Hg Hr HrL Hrg.
  rewrite (gmro_reconstruction_eq rnd self gm vds planes ls p df Hd Hne Hl Hp Hdf) in Hrec.
  destruct (reconstruct_ok rnd df gm ls ∅) as [gp' Hgp]. rewrite Hgp in Hrec.
  revert Hrec. monad_step. destruct (map_to_list gp'); [done|]. intros [= <- _].
  destruct (reconstruct_value rnd df gm ls ∅ gp' [] L g Hgp Hg) as [H|[_ Hn]];
    [by rewrite lookup_empty in H|].
  destruct (np_interp_hit rnd _ _ _ (sort_values_sorted _) Hn) as (r' & Hr' & Hg' & ->).
  { exists r. split; [|done]. by apply sort_values_elem, slice_length_elem. }
  apply sort_values_elem, slice_length_elem in Hr' as [Hr' HL'].
  by exists r'.
Qed.

Lemma reconstructed_gmro_at_a_sample_witness :
  exists r',
    r' ∈ [mkRow 10 500 30; mkRow 10 700 40]
    /\ length_nm r' == inject_Z 500 /\ gm_id r' == 10 /\ 30 = value r'.
Proof.
  apply (reconstructed_gmro_at_a_sample round_double one_plane 10 (2 # 5)
           [(2 # 5, [mkRow 10 500 30; mkRow 10 700 40])] [500; 700]%Z (2 # 5)
           [mkRow 10 500 30; mkRow 10 700 40] gmro_500_700 [] 500%Z 30
           (mkRow 10 500 30)).
  - vm_compute. reflexivity.
  - discriminate.
  - vm_compute. reflexivity.
  - vm_compute. reflexivity.
  - vm_compute. reflexivity.
  - vm_compute. reflexivity.
  - vm_compute. reflexivity.
  - left.
  - reflexivity.
  - reflexivity.
Defined.

Lemma predict_all_or_nothing_witness :
  outcome (predict_all two_planes 10 (3 # 5) 600)
  = Raise (ValueError_no_interpolators "id_w").
Proof.
  apply (proj2 (predict_all_or_nothing two_planes 10 (3 # 5) 600)).
  left. vm_compute. reflexivity.
Defined.
